(** * github-loc-report: a shallow embedding of [gh-loc-report.js]

    The development follows the class [GitHubLOCCalculator]:

    - [Pattern] and [shouldIncludeFile]: the file classifier and the
      star-free regular expressions it is made of;
    - [rateLimitCheck]: the self-tracked request throttle;
    - [getCommitsForRepo], [getCommitStatsWithRetry], [processRepository]:
      the per-repository pipeline;
    - [getAllRepositories], [getRepositoryByName], [calculateLOCForYear]:
      the run orchestrator;
    - [generateTextSummary], [printSummary], [saveResults], [main]: reports.

    Asynchronous methods are written in a state-and-exception monad over a
    [World] that holds the calculator object, the heap cell of the result
    object, a counter of interactions with the environment and the trace of
    the observable effects (timer suspensions, API requests, file writes).
    The environment (wall clock and the three REST endpoints) is an
    arbitrary but fixed oracle [Env].  Console output is not part of the
    model, and neither is the file system: the two reports are written
    when [saveResults] gets to them.

    Numbers.  Counters, line counts and clock readings are integers
    ([Z]); as doubles they are exact below [2^53].  The arithmetic of
    [rateLimitCheck] that leaves the integers is double arithmetic: every
    division, product and difference is rounded to the nearest double
    ([Double.round]: 53 significant bits, ties to even), and a division
    by zero gives an infinity or [NaN] ([js_div]).  Doubles are written
    as the rationals they are ([Q]). *)

From Stdlib Require Import ZArith QArith Qround Qabs String Ascii List Bool Lia Lqa.
From Stdlib Require Import Permutation Sorted DecimalString.
From stdpp Require Import base option list relations strings.

Local Open Scope string_scope.
Local Open Scope Z_scope.

(** ** Regular expressions of the file classifier *)

Module Pattern.

(** The exclusion rules only use literals, alternation and sequencing,
    with an optional [^] in front and an optional [$] at the end. *)
Inductive regex : Type :=
| Lit (s : string)
| Alt (r1 r2 : regex)
| Seq (r1 r2 : regex).

Record t : Type := mk
  { anchorStart : bool;
    body : regex;
    anchorEnd : bool }.

Fixpoint oneOf (x : string) (xs : list string) : regex :=
  match xs with
  | [] => Lit x
  | y :: ys => Alt (Lit x) (oneOf y ys)
  end.

(** [/re/], [/^re/] and [/re$/]. *)
Definition anywhere (r : regex) : t := mk false r false.
Definition atStart (r : regex) : t := mk true r false.
Definition atEnd (r : regex) : t := mk false r true.

(** [stripPrefix p s] removes the literal [p] from the front of [s]. *)
Fixpoint stripPrefix (p s : string) : option string :=
  match p with
  | EmptyString => Some s
  | String a p' =>
      match s with
      | EmptyString => None
      | String b s' => if Ascii.eqb a b then stripPrefix p' s' else None
      end
  end.

(** A backtracking matcher: every way of matching [r] at the front of
    [s], given by what is left of [s]. *)
Fixpoint residuals (r : regex) (s : string) : list string :=
  match r with
  | Lit p =>
      match stripPrefix p s with
      | Some rest => [rest]
      | None => []
      end
  | Alt r1 r2 => (residuals r1 s ++ residuals r2 s)%list
  | Seq r1 r2 => flat_map (residuals r2) (residuals r1 s)
  end.

Definition endOk (p : t) (rest : string) : bool :=
  if anchorEnd p then String.eqb rest "" else true.

Definition matchesAt (p : t) (s : string) : bool :=
  existsb (endOk p) (residuals (body p) s).

Fixpoint searchFrom (p : t) (s : string) : bool :=
  matchesAt p s ||
  match s with
  | EmptyString => false
  | String _ s' => searchFrom p s'
  end.

(** [RegExp.prototype.test] for a pattern without flags. *)
Definition test (p : t) (s : string) : bool :=
  if anchorStart p then matchesAt p s else searchFrom p s.

(** The language of a regular expression, and what it means for a
    pattern to match somewhere in a subject string. *)
Inductive Matches : regex -> string -> Prop :=
| MLit s : Matches (Lit s) s
| MAltL r1 r2 w : Matches r1 w -> Matches (Alt r1 r2) w
| MAltR r1 r2 w : Matches r2 w -> Matches (Alt r1 r2) w
| MSeq r1 r2 w1 w2 :
    Matches r1 w1 -> Matches r2 w2 -> Matches (Seq r1 r2) (w1 ++ w2).

Definition Accepts (p : t) (s : string) : Prop :=
  exists pre w post,
    s = pre ++ w ++ post /\
    Matches (body p) w /\
    (anchorStart p = true -> pre = "") /\
    (anchorEnd p = true -> post = "").

End Pattern.

(** The [excludePatterns] array of [shouldIncludeFile], rule by rule. *)
Definition excludePatterns : list Pattern.t :=
  let lit := Pattern.Lit in
  let seq := Pattern.Seq in
  [ (* Lock files *)
    Pattern.atEnd (lit "package-lock.json");
    Pattern.atEnd (lit "yarn.lock");
    Pattern.atEnd (lit "pnpm-lock.yaml");
    Pattern.atEnd (lit "composer.lock");
    Pattern.atEnd (lit "Gemfile.lock");
    Pattern.atEnd (lit "poetry.lock");
    Pattern.atEnd (lit "Pipfile.lock");
    (* Minified files *)
    Pattern.atEnd (seq (lit ".min.") (Pattern.oneOf "js" ["css"]));
    Pattern.atEnd (seq (lit ".bundle.") (Pattern.oneOf "js" ["css"]));
    (* Source maps *)
    Pattern.atEnd (lit ".map");
    (* Build/dist directories *)
    Pattern.atStart
      (seq (Pattern.oneOf "dist" ["build"; "out"; "target"; "bin"; "obj"])
           (lit "/"));
    Pattern.anywhere (lit "node_modules/");
    Pattern.anywhere (lit "vendor/");
    Pattern.anywhere (lit "__pycache__/");
    Pattern.anywhere (lit ".pytest_cache/");
    (* Generated files *)
    Pattern.anywhere (lit ".generated.");
    Pattern.anywhere (lit ".auto.");
    Pattern.atStart (lit "generated/");
    (* Documentation builds *)
    Pattern.atStart (lit "docs/_build/");
    Pattern.atStart (lit "site/");
    (* IDE files *)
    Pattern.anywhere (lit ".vscode/");
    Pattern.anywhere (lit ".idea/");
    (* Large data files that shouldn't count as code *)
    Pattern.atEnd
      (seq (lit ".")
           (Pattern.oneOf "jpg"
              ["jpeg"; "png"; "gif"; "svg"; "ico"; "pdf"; "zip"; "tar"; "gz";
               "rar"; "7z"; "exe"; "dmg"]));
    Pattern.atEnd
      (seq (lit ".")
           (Pattern.oneOf "mp4" ["avi"; "mov"; "wmv"; "mp3"; "wav"; "ogg"]));
    (* Database files *)
    Pattern.atEnd (seq (lit ".") (Pattern.oneOf "db" ["sqlite"; "sqlite3"]));
    (* Log files *)
    Pattern.atEnd (seq (lit ".") (Pattern.oneOf "log" ["logs"]));
    Pattern.atStart (lit "logs/") ].

Definition shouldIncludeFile (filename : string) : bool :=
  negb (existsb (fun pattern => Pattern.test pattern filename) excludePatterns).


(** ** Data model *)

Record Owner : Type := { login : string }.

(** A repository as the listing endpoint returns it.  [owner] is read
    through [repo.owner.login]; a listing entry without it makes that
    access raise a [TypeError]. *)
Record Repository : Type :=
  { id : Z;
    name : string;
    full_name : string;
    owner : option Owner;
    size : Z }.

Record Commit : Type := { sha : string }.

(** One entry of [response.data.files]; a missing count is [undefined]. *)
Module File.
Record t : Type :=
  { filename : string;
    additions : option Z;
    deletions : option Z }.
End File.

(** [response.data.stats] of the get-commit endpoint. *)
Module Stats.
Record t : Type :=
  { additions : option Z;
    deletions : option Z;
    total : option Z }.
End Stats.

(** [response.data] of the get-commit endpoint; both members may be
    absent, and an entry of [files] may be [null]. *)
Record CommitData : Type :=
  { stats : option Stats.t;
    files : option (list (option File.t)) }.

(** What [getCommitStatsWithRetry] returns. *)
Module CommitStats.
Record t : Type :=
  { additions : Z;
    deletions : Z;
    total : Z;
    files : list (option File.t);
    truncated : bool }.
Definition zero : t :=
  {| additions := 0; deletions := 0; total := 0; files := []; truncated := false |}.
End CommitStats.

(** The [stats] member of what [processRepository] returns; the two
    early returns leave [truncatedCommits] out. *)
Module RepoStats.
Record t : Type :=
  { additions : Z;
    deletions : Z;
    commits : Z;
    netLines : Z;
    truncatedCommits : option Z }.
Definition zero : t :=
  {| additions := 0; deletions := 0; commits := 0; netLines := 0;
     truncatedCommits := None |}.
End RepoStats.

(** What [processRepository] returns. *)
Module RepoResult.
Record t : Type :=
  { success : bool;
    error : option string;
    stats : RepoStats.t }.
End RepoResult.

(** One element of [results.repoStats]. *)
Module RepoEntry.
Record t : Type :=
  { name : string;
    additions : Z;
    deletions : Z;
    netLines : Z;
    commits : Z;
    sizeKB : Z;
    truncatedCommits : Z }.
End RepoEntry.

Record FileTypeStat : Type := { ext_additions : Z }.

Record RuntimeStats : Type :=
  { totalApiCalls : Z;
    rt_truncatedCommits : Z;
    skippedCommits : Z }.

Record ProcessingStatus : Type :=
  { successful : Z;
    failed : Z;
    failedRepos : list string }.

Inductive AnalysisMode : Type := ModeAll | ModeSingle.

(** The [results] object of [calculateLOCForYear].  [fileTypeStats] is a
    JavaScript object used as a map, kept in insertion order (the order
    of [Object.entries]). *)
Record Results : Type :=
  { totalAdditions : Z;
    totalDeletions : Z;
    netLines : Z;
    totalCommits : Z;
    repoStats : list RepoEntry.t;
    fileTypeStats : list (string * FileTypeStat);
    warnings : list string;
    processedAt : Z;
    runtimeStats : RuntimeStats;
    processingStatus : ProcessingStatus;
    analysisMode : AnalysisMode }.

(** The two [Date] objects the program works with, once they are known
    to be valid dates. *)
Inductive Date : Type :=
| StartOfYear (year : Z)
| EndOfYear (year : Z).

(** An exception value: [error.status] and [error.message]. *)
Record Error : Type :=
  { status : option Z;
    message : string }.

(** ** Environment, world and effects *)

Record ListCommitsParams : Type :=
  { p_owner : string;
    p_repo : string;
    p_author : string;
    p_since : Date;
    p_until : Date;
    p_per_page : Z;
    p_page : Z }.

(** The outside world: the [n]-th interaction of the program with it is
    answered by the oracle at index [n]. *)
Record Env : Type :=
  { Date_now : nat -> Z;
    listForAuthenticatedUser : nat -> Z -> Z -> Error + list Repository;
    listCommits : nat -> ListCommitsParams -> Error + list Commit;
    getCommit : nat -> string -> string -> string -> Error + CommitData }.

Inductive Event : Type :=
| Sleep (ms : Q)
| ReqListRepos (per_page page : Z)
| ReqListCommits (params : ListCommitsParams)
| ReqGetCommit (owner repo ref : string)
| WriteJson (document : Results)
| WriteText (text : string).

(** The mutable members of the calculator object. *)
Record Calculator : Type :=
  { username : string;
    year : Z;
    requestCount : Z;
    startTime : Z;
    lastWaitLog : option Z }.

(** [this.maxRequestsPerHour]: assigned by the constructor, never
    written again. *)
Definition maxRequestsPerHour : Z := 4800.

Abbreviation ref := nat.

Record World : Type :=
  { this : Calculator;
    heap : list Results;
    tick : nat;
    trace : list Event }.

(** How a computation ends: with a value, with a raised exception, or
    [Stuck] when the model itself cannot go on (loop fuel used up, or a
    reference that is not in the heap). *)
Inductive Outcome (A : Type) : Type :=
| Ret (a : A)
| Throw (e : Error)
| Stuck.
Arguments Ret {A} a.
Arguments Throw {A} e.
Arguments Stuck {A}.

Definition M (A : Type) : Type := World -> Outcome A * World.

Definition ret {A} (a : A) : M A := fun w => (Ret a, w).

Definition bind {A B} (m : M A) (k : A -> M B) : M B :=
  fun w =>
    match m w with
    | (Ret a, w') => k a w'
    | (Throw e, w') => (Throw e, w')
    | (Stuck, w') => (Stuck, w')
    end.

Definition throw {A} (e : Error) : M A := fun w => (Throw e, w).

Definition stuck {A} : M A := fun w => (Stuck, w).

(** [try { body } catch (error) { handler(error) }]. *)
Definition tryCatch {A} (body : M A) (handler : Error -> M A) : M A :=
  fun w =>
    match body w with
    | (Throw e, w') => handler e w'
    | r => r
    end.

Declare Scope js_scope.
Delimit Scope js_scope with js.
Notation "x <- m ;; k" := (bind m (fun x => k))
  (at level 100, m at next level, right associativity) : js_scope.
Notation "m ;;; k" := (bind m (fun _ => k))
  (at level 100, right associativity) : js_scope.
Local Open Scope js_scope.

Definition TypeError (msg : string) : Error :=
  {| status := None; message := msg |}.

Definition getThis : M Calculator := fun w => (Ret (this w), w).

Definition setThis (c : Calculator) : M unit :=
  fun w => (Ret tt, {| this := c; heap := heap w; tick := tick w; trace := trace w |}).

Definition emit (e : Event) : M unit :=
  fun w => (Ret tt, {| this := this w; heap := heap w; tick := tick w;
                       trace := (trace w ++ [e])%list |}).

(** One interaction with the environment: the oracle is asked at the
    current index, which then advances. *)
Definition interact {A} (ask : nat -> A) : M A :=
  fun w => (Ret (ask (tick w)),
            {| this := this w; heap := heap w; tick := S (tick w); trace := trace w |}).

Definition alloc (r : Results) : M ref :=
  fun w => (Ret (length (heap w)),
            {| this := this w; heap := (heap w ++ [r])%list; tick := tick w; trace := trace w |}).

Definition load (l : ref) : M Results :=
  fun w => match heap w !! l with
           | Some r => (Ret r, w)
           | None => (Stuck, w)
           end.

Definition store (l : ref) (r : Results) : M unit :=
  fun w => match heap w !! l with
           | Some _ => (Ret tt, {| this := this w; heap := <[l := r]> (heap w);
                                   tick := tick w; trace := trace w |})
           | None => (Stuck, w)
           end.

(** [await new Promise(resolve => setTimeout(resolve, ms))]. *)
Definition sleep (ms : Q) : M unit := emit (Sleep ms).

(** An [await] of a REST call: a rejected promise raises. *)
Definition await {A} (response : Error + A) : M A :=
  match response with
  | inl e => throw e
  | inr a => ret a
  end.

(** ** JavaScript numbers *)

Module Double.

(** [2^e], for an exponent of either sign. *)
Definition pow2 (e : Z) : Q :=
  if 0 <=? e then inject_Z (2 ^ e) else / inject_Z (2 ^ (- e)).

(** The binade of a rational other than zero: the exponent [e] with
    [2^e <= |q| < 2^(e+1)]. *)
Definition binade (q : Q) : Z :=
  let e := Z.log2 (Z.abs (Qnum q)) - Z.log2 (Zpos (Qden q)) in
  if Qle_bool (pow2 e) (Qabs q) then e else e - 1.

(** The integer nearest to [q]; half-way, the even one. *)
Definition nearestEven (q : Q) : Z :=
  let f := Qfloor q in
  match (q - inject_Z f ?= 1 # 2)%Q with
  | Lt => f
  | Gt => f + 1
  | Eq => if Z.even f then f else f + 1
  end.

(** The double nearest to [q]: the multiple of the unit in the last
    place of its binade, [2^(e-52)], that is nearest to it, ties to
    even.  Overflow and gradual underflow need magnitudes beyond
    [2^1023] or below [2^-1022], which the throttle never computes from
    clock readings and counters, and are left out. *)
Definition round (q : Q) : Q :=
  if Qeq_bool q 0 then 0%Q
  else
    let ulp := pow2 (binade q - 52) in
    Qred (inject_Z (nearestEven (q / ulp)) * ulp).

(** [2^-53], the relative error of one rounding. *)
Definition eps : Q := 1 # 9007199254740992.

End Double.

(** The result of the one division that can have a zero divisor. *)
Inductive jsnum : Type :=
| Finite (q : Q)
| PosInfinity
| NegInfinity
| NaN.

Definition Qlt_bool (a b : Q) : bool := negb (Qle_bool b a).

(** [a / b].  The sign of a zero is not kept: the one divisor that can
    be zero is a difference of clock readings over a positive constant,
    which is [+0] when it is zero. *)
Definition js_div (a b : Q) : jsnum :=
  if Qeq_bool b 0 then
    if Qeq_bool a 0 then NaN
    else if Qlt_bool 0 a then PosInfinity else NegInfinity
  else Finite (Double.round (a / b)).

(** [a * b] and [a - b]. *)
Definition js_mul (a b : Q) : Q := Double.round (a * b).
Definition js_sub (a b : Q) : Q := Double.round (a - b).

(** [x > y] for a finite [y]. *)
Definition js_gt (x : jsnum) (y : Q) : bool :=
  match x with
  | Finite q => Qlt_bool y q
  | PosInfinity => true
  | NegInfinity | NaN => false
  end.

(** [x || 0] for a number that may be [undefined]. *)
Definition orZero (x : option Z) : Z := default 0 x.

(** [!x] for a number that may be [undefined]. *)
Definition falsy (x : option Z) : bool :=
  match x with
  | None => true
  | Some v => v =? 0
  end.

(** ** The throttle *)

Definition set_requestCount (c : Calculator) (n : Z) : Calculator :=
  {| username := username c; year := year c; requestCount := n;
     startTime := startTime c; lastWaitLog := lastWaitLog c |}.

Definition set_lastWaitLog (c : Calculator) (t : Z) : Calculator :=
  {| username := username c; year := year c; requestCount := requestCount c;
     startTime := startTime c; lastWaitLog := Some t |}.

(** [(Date.now() - this.startTime) / (1000 * 60 * 60)]: the divisor is
    the constant [3600000]. *)
Definition elapsedHoursOf (startTime now : Z) : Q :=
  Double.round (inject_Z (now - startTime) / 3600000).

(** [requestCount / elapsedHours > maxRequestsPerHour] *)
Definition rateExceeded (count startTime now : Z) : bool :=
  let elapsedHours := elapsedHoursOf startTime now in
  let requestsPerHour := js_div (inject_Z count) elapsedHours in
  js_gt requestsPerHour (inject_Z maxRequestsPerHour).

(** [(requestCount / maxRequestsPerHour) * 60 * 60 * 1000
     - (Date.now() - this.startTime)], operation by operation. *)
Definition waitTimeOf (count startTime now : Z) : Q :=
  let hours := Double.round (inject_Z count / inject_Z maxRequestsPerHour) in
  let budget := js_mul (js_mul (js_mul hours 60) 60) 1000 in
  js_sub budget (inject_Z (now - startTime)).

Definition baseDelayOf (count : Z) : Z :=
  if 100 <? count then 150 else 100.

Section Methods.

Variable env : Env.

Definition now : M Z := interact (Date_now env).

Definition rateLimitCheck : M unit :=
  c <- getThis ;;
  setThis (set_requestCount c (requestCount c + 1)) ;;;
  c <- getThis ;;
  t1 <- now ;;
  (if rateExceeded (requestCount c) (startTime c) t1 then
     t2 <- now ;;
     let waitTime := waitTimeOf (requestCount c) (startTime c) t2 in
     if Qlt_bool 0 waitTime then
       t3 <- now ;;
       (if falsy (lastWaitLog c) || (5000 <=? t3 - default 0 (lastWaitLog c)) then
          _timeString <- now ;;
          setThis (set_lastWaitLog c t3)
        else ret tt) ;;;
       sleep waitTime
     else ret tt
   else ret tt) ;;;
  c <- getThis ;;
  sleep (inject_Z (baseDelayOf (requestCount c))).

(** ** The repository resolver *)

(** A REST call is a request, answered by the environment, followed by
    the [await] of its answer. *)
Definition request_listForAuthenticatedUser (per_page page : Z)
  : M (Error + list Repository) :=
  emit (ReqListRepos per_page page) ;;;
  interact (fun n => listForAuthenticatedUser env n per_page page).

Definition call_listForAuthenticatedUser (per_page page : Z) : M (list Repository) :=
  response <- request_listForAuthenticatedUser per_page page ;;
  await response.

(** The [while (true)] loop of [getAllRepositories]; an iteration either
    ends the loop with the list to return or goes on with the next page. *)
Fixpoint getAllRepositories_loop (fuel : nat) (repos : list Repository) (page : Z)
  : M (list Repository) :=
  match fuel with
  | O => stuck
  | S fuel' =>
      rateLimitCheck ;;;
      next <- tryCatch
                (data <- call_listForAuthenticatedUser 100 page ;;
                 if Z.of_nat (length data) =? 0 then ret (inl repos)
                 else
                   let repos := (repos ++ data)%list in
                   let page := page + 1 in
                   if 1000 <? page then ret (inl repos)
                   else ret (inr (repos, page)))
                (fun error => ret (inl repos)) ;;
      match next with
      | inl repos => ret repos
      | inr (repos, page) => getAllRepositories_loop fuel' repos page
      end
  end.

Definition getAllRepositories : M (list Repository) :=
  getAllRepositories_loop 1000 [] 1.

Definition getRepositoryByName (repoName : string) : M (option Repository) :=
  repos <- getAllRepositories ;;
  c <- getThis ;;
  ret (find (fun repo =>
               String.eqb (name repo) repoName
               || String.eqb (full_name repo) repoName
               || String.eqb (full_name repo) (username c +:+ "/" +:+ repoName))
            repos).

(** ** The commit fetcher *)

Definition maxCommitsPerRepo : Z := 5000.

Definition request_listCommits (params : ListCommitsParams)
  : M (Error + list Commit) :=
  emit (ReqListCommits params) ;;;
  interact (fun n => listCommits env n params).

Definition call_listCommits (params : ListCommitsParams) : M (list Commit) :=
  response <- request_listCommits params ;;
  await response.

(** The [while (totalFetched < maxCommitsPerRepo)] loop. *)
Fixpoint getCommitsForRepo_loop (fuel : nat) (owner repo : string) (since until : Date)
    (commits : list Commit) (page totalFetched : Z) : M (list Commit) :=
  if totalFetched <? maxCommitsPerRepo then
    match fuel with
    | O => stuck
    | S fuel' =>
        rateLimitCheck ;;;
        c <- getThis ;;
        data <- call_listCommits
                  {| p_owner := owner; p_repo := repo; p_author := username c;
                     p_since := since; p_until := until;
                     p_per_page := 100; p_page := page |} ;;
        if Z.of_nat (length data) =? 0 then ret commits
        else getCommitsForRepo_loop fuel' owner repo since until
               (commits ++ data)%list (page + 1) (totalFetched + Z.of_nat (length data))
    end
  else ret commits.

Definition getCommitsForRepo (owner repo : string) (since until : Date)
  : M (list Commit) :=
  tryCatch
    (getCommitsForRepo_loop (Z.to_nat maxCommitsPerRepo) owner repo since until [] 1 0)
    (fun error => ret []).

(** ** The commit stat fetcher *)

Definition request_getCommit (owner repo sha : string) : M (Error + CommitData) :=
  emit (ReqGetCommit owner repo sha) ;;;
  interact (fun n => getCommit env n owner repo sha).

Definition call_getCommit (owner repo sha : string) : M CommitData :=
  response <- request_getCommit owner repo sha ;;
  await response.

(** The object built from a successful response. *)
Definition statsOfResponse (data : CommitData) : CommitStats.t :=
  let stats :=
    default {| Stats.additions := Some 0; Stats.deletions := Some 0;
               Stats.total := Some 0 |} (stats data) in
  let files := default [] (files data) in
  {| CommitStats.additions := orZero (Stats.additions stats);
     CommitStats.deletions := orZero (Stats.deletions stats);
     CommitStats.total := orZero (Stats.total stats);
     CommitStats.files := files;
     CommitStats.truncated :=
       (300 <=? Z.of_nat (length files))
       || match Stats.total stats with
          | Some total => 50000 <? total
          | None => false
          end |}.

Definition isStatus (error : Error) (code : Z) : bool :=
  match status error with
  | Some s => s =? code
  | None => false
  end.

(** The [for (attempt = 1; attempt <= maxRetries; attempt++)] loop; an
    iteration either returns or falls through to the next attempt.  A
    loop that ends without returning yields [undefined] ([None]). *)
Fixpoint getCommitStatsWithRetry_loop (fuel : nat) (owner repo sha : string)
    (maxRetries attempt : Z) : M (option CommitStats.t) :=
  if attempt <=? maxRetries then
    match fuel with
    | O => stuck
    | S fuel' =>
        returned <- tryCatch
                      (rateLimitCheck ;;;
                       data <- call_getCommit owner repo sha ;;
                       ret (Some (statsOfResponse data)))
                      (fun error =>
                         if isStatus error 409 || isStatus error 404 then
                           ret (Some CommitStats.zero)
                         else if attempt =? maxRetries then
                           ret (Some CommitStats.zero)
                         else
                           sleep (inject_Z (2000 * attempt)) ;;;
                           ret None) ;;
        match returned with
        | Some result => ret (Some result)
        | None => getCommitStatsWithRetry_loop fuel' owner repo sha maxRetries (attempt + 1)
        end
    end
  else ret None.

Definition getCommitStatsWithRetry (owner repo sha : string) (maxRetries : Z)
  : M (option CommitStats.t) :=
  getCommitStatsWithRetry_loop (Z.to_nat maxRetries) owner repo sha maxRetries 1.

(** The default value of the [maxRetries] parameter. *)
Definition defaultMaxRetries : Z := 3.

(** ** The repository processor *)

(** [repo.owner.login] *)
Definition ownerLogin (repo : Repository) : M string :=
  match owner repo with
  | Some o => ret (login o)
  | None => throw (TypeError "Cannot read properties of undefined (reading 'login')")
  end.

(** The [for (const file of stats.files)] loop. *)
Fixpoint sumIncludedFiles (files : list (option File.t))
    (filteredAdditions filteredDeletions : Z) : M (Z * Z) :=
  match files with
  | [] => ret (filteredAdditions, filteredDeletions)
  | None :: _ =>
      throw (TypeError "Cannot read properties of null (reading 'filename')")
  | Some file :: rest =>
      if shouldIncludeFile (File.filename file) then
        let additions := orZero (File.additions file) in
        let deletions := orZero (File.deletions file) in
        sumIncludedFiles rest (filteredAdditions + additions)
                         (filteredDeletions + deletions)
      else sumIncludedFiles rest filteredAdditions filteredDeletions
  end.

(** The local counters of [processRepository]. *)
Record Sums : Type :=
  { repoAdditions : Z;
    repoDeletions : Z;
    repoCommits : Z;
    truncatedCommits : Z }.

(** What one commit contributes, from its stats. *)
Definition filteredStats (stats : CommitStats.t) : M (Z * Z) :=
  if 0 <? Z.of_nat (length (CommitStats.files stats)) then
    sumIncludedFiles (CommitStats.files stats) 0 0
  else if 0 <? CommitStats.total stats then
    ret (CommitStats.additions stats, CommitStats.deletions stats)
  else ret (0, 0).

(** The [for (const commit of commits)] loop. *)
Fixpoint processCommits (repo : Repository) (commits : list Commit) (sums : Sums)
  : M Sums :=
  match commits with
  | [] => ret sums
  | commit :: rest =>
      owner <- ownerLogin repo ;;
      stats <- getCommitStatsWithRetry owner (name repo) (sha commit) defaultMaxRetries ;;
      match stats with
      | None =>
          throw (TypeError "Cannot read properties of undefined (reading 'truncated')")
      | Some stats =>
          let truncatedCommits :=
            if CommitStats.truncated stats then truncatedCommits sums + 1
            else truncatedCommits sums in
          filtered <- filteredStats stats ;;
          processCommits repo rest
            {| repoAdditions := repoAdditions sums + fst filtered;
               repoDeletions := repoDeletions sums + snd filtered;
               repoCommits := repoCommits sums + 1;
               truncatedCommits := truncatedCommits |}
      end
  end.

(** The body of the [try] block of [processRepository]. *)
Definition processRepository_body (repo : Repository) (since until : Date)
  : M RepoResult.t :=
  owner <- ownerLogin repo ;;
  commits <- getCommitsForRepo owner (name repo) since until ;;
  if Z.of_nat (length commits) =? 0 then
    ret {| RepoResult.success := true; RepoResult.error := None;
           RepoResult.stats := RepoStats.zero |}
  else
    sums <- processCommits repo commits
              {| repoAdditions := 0; repoDeletions := 0; repoCommits := 0;
                 truncatedCommits := 0 |} ;;
    let netLines := repoAdditions sums - repoDeletions sums in
    ret {| RepoResult.success := true; RepoResult.error := None;
           RepoResult.stats :=
             {| RepoStats.additions := repoAdditions sums;
                RepoStats.deletions := repoDeletions sums;
                RepoStats.commits := repoCommits sums;
                RepoStats.netLines := netLines;
                RepoStats.truncatedCommits := Some (truncatedCommits sums) |} |}.

Definition failure (error : Error) : RepoResult.t :=
  {| RepoResult.success := false;
     RepoResult.error := Some (message error);
     RepoResult.stats := RepoStats.zero |}.

Definition processRepository (repo : Repository) (since until : Date)
  : M RepoResult.t :=
  tryCatch (processRepository_body repo since until)
           (fun error => ret (failure error)).

(** ** The run orchestrator *)

Definition initialResults (processedAt : Z) (analysisMode : AnalysisMode) : Results :=
  {| totalAdditions := 0;
     totalDeletions := 0;
     netLines := 0;
     totalCommits := 0;
     repoStats := [];
     fileTypeStats := [];
     warnings := [];
     processedAt := processedAt;
     runtimeStats :=
       {| totalApiCalls := 0; rt_truncatedCommits := 0; skippedCommits := 0 |};
     processingStatus := {| successful := 0; failed := 0; failedRepos := [] |};
     analysisMode := analysisMode |}.

(** The [if (result.success)] branch of the loop body. *)
Definition recordSuccess (repo : Repository) (result : RepoResult.t) (r : Results)
  : Results :=
  let stats := RepoResult.stats result in
  {| totalAdditions := totalAdditions r + RepoStats.additions stats;
     totalDeletions := totalDeletions r + RepoStats.deletions stats;
     netLines := netLines r;
     totalCommits := totalCommits r + RepoStats.commits stats;
     repoStats :=
       (repoStats r ++
        [ {| RepoEntry.name := full_name repo;
             RepoEntry.additions := RepoStats.additions stats;
             RepoEntry.deletions := RepoStats.deletions stats;
             RepoEntry.netLines := RepoStats.netLines stats;
             RepoEntry.commits := RepoStats.commits stats;
             RepoEntry.sizeKB := size repo;
             RepoEntry.truncatedCommits :=
               orZero (RepoStats.truncatedCommits stats) |} ])%list;
     fileTypeStats := fileTypeStats r;
     warnings := warnings r;
     processedAt := processedAt r;
     runtimeStats :=
       {| totalApiCalls := totalApiCalls (runtimeStats r);
          rt_truncatedCommits :=
            rt_truncatedCommits (runtimeStats r)
            + orZero (RepoStats.truncatedCommits stats);
          skippedCommits := skippedCommits (runtimeStats r) |};
     processingStatus :=
       {| successful := successful (processingStatus r) + 1;
          failed := failed (processingStatus r);
          failedRepos := failedRepos (processingStatus r) |};
     analysisMode := analysisMode r |}.

(** The [else] branch of the loop body. *)
Definition recordFailure (repo : Repository) (r : Results) : Results :=
  {| totalAdditions := totalAdditions r;
     totalDeletions := totalDeletions r;
     netLines := netLines r;
     totalCommits := totalCommits r;
     repoStats := repoStats r;
     fileTypeStats := fileTypeStats r;
     warnings := warnings r;
     processedAt := processedAt r;
     runtimeStats := runtimeStats r;
     processingStatus :=
       {| successful := successful (processingStatus r);
          failed := failed (processingStatus r) + 1;
          failedRepos := (failedRepos (processingStatus r) ++ [full_name repo])%list |};
     analysisMode := analysisMode r |}.

(** The two assignments after the loop. *)
Definition finish (requestCount : Z) (r : Results) : Results :=
  {| totalAdditions := totalAdditions r;
     totalDeletions := totalDeletions r;
     netLines := totalAdditions r - totalDeletions r;
     totalCommits := totalCommits r;
     repoStats := repoStats r;
     fileTypeStats := fileTypeStats r;
     warnings := warnings r;
     processedAt := processedAt r;
     runtimeStats :=
       {| totalApiCalls := requestCount;
          rt_truncatedCommits := rt_truncatedCommits (runtimeStats r);
          skippedCommits := skippedCommits (runtimeStats r) |};
     processingStatus := processingStatus r;
     analysisMode := analysisMode r |}.

(** One iteration of [for (let i = 0; i < repos.length; i++)]. *)
Definition processOne (results : ref) (repo : Repository) (since until : Date)
  : M unit :=
  result <- processRepository repo since until ;;
  r <- load results ;;
  if RepoResult.success result then store results (recordSuccess repo result r)
  else store results (recordFailure repo r).

Fixpoint processAll (results : ref) (repos : list Repository) (since until : Date)
  : M unit :=
  match repos with
  | [] => ret tt
  | repo :: rest =>
      processOne results repo since until ;;;
      processAll results rest since until
  end.

(** [if (targetRepo)] *)
Definition truthy (targetRepo : option string) : option string :=
  match targetRepo with
  | Some s => if String.eqb s "" then None else Some s
  | None => None
  end.

(** The repositories a run selects, with its analysis mode. *)
Definition selectRepositories (targetRepo : option string)
  : M (list Repository * AnalysisMode) :=
  match truthy targetRepo with
  | Some target =>
      repo <- getRepositoryByName target ;;
      match repo with
      | None =>
          throw {| status := None;
                   message := "Repository '" +:+ target +:+ "' not found" |}
      | Some repo => ret ([repo], ModeSingle)
      end
  | None =>
      repos <- getAllRepositories ;;
      ret (repos, ModeAll)
  end.

(** [new Date(`${this.year}-01-01T00:00:00Z`)] and
    [new Date(`${this.year}-12-31T23:59:59Z`)].  In the date-time format
    a year has four digits, or a sign and six digits: the number is
    written like this when it lies between 1000 and 9999, or is negative
    with six digits (and then the first of January is a date from the
    year -271820 on).  With any other year the string is not a date and
    the object is an Invalid Date, here [None]. *)
Definition validYear (year : Z) : bool :=
  ((1000 <=? year) && (year <=? 9999))
  || ((-271820 <=? year) && (year <=? -100000)).

Definition startOfYear (year : Z) : option Date :=
  if validYear year then Some (StartOfYear year) else None.

Definition endOfYear (year : Z) : option Date :=
  if validYear year then Some (EndOfYear year) else None.

Definition RangeError (msg : string) : Error :=
  {| status := None; message := msg |}.

(** [date.toISOString()] in the line that logs the date range, the first
    use of the two dates: it raises on an Invalid Date, so that the dates
    are valid from there on. *)
Definition Date_toISOString (date : option Date) : M Date :=
  match date with
  | Some date => ret date
  | None => throw (RangeError "Invalid time value")
  end.

Definition calculateLOCForYear (targetRepo : option string) : M ref :=
  c <- getThis ;;
  since <- Date_toISOString (startOfYear (year c)) ;;
  until <- Date_toISOString (endOfYear (year c)) ;;
  selected <- selectRepositories targetRepo ;;
  processedAt <- now ;;
  results <- alloc (initialResults processedAt (snd selected)) ;;
  processAll results (fst selected) since until ;;;
  r <- load results ;;
  c <- getThis ;;
  store results (finish (requestCount c) r) ;;;
  ret results.

(** ** Reports *)

(** [Array.prototype.sort] with a comparator: a stable sort that puts [a]
    before [b] when [compare a b <= 0]. *)
Fixpoint Array_insert {A} (compare : A -> A -> Z) (a : A) (sorted : list A) : list A :=
  match sorted with
  | [] => [a]
  | b :: rest =>
      if compare a b <=? 0 then a :: b :: rest
      else b :: Array_insert compare a rest
  end.

Fixpoint Array_sort {A} (compare : A -> A -> Z) (array : list A) : list A :=
  match array with
  | [] => []
  | a :: rest => Array_insert compare a (Array_sort compare rest)
  end.

(** [(a, b) => b.additions - a.additions] on repository entries and on
    the entries of [fileTypeStats]. *)
Definition byAdditionsDesc (a b : RepoEntry.t) : Z :=
  RepoEntry.additions b - RepoEntry.additions a.

Definition byExtAdditionsDesc (a b : string * FileTypeStat) : Z :=
  ext_additions (snd b) - ext_additions (snd a).

(** [Object.entries(results.fileTypeStats).sort(...).slice(0, 10)] *)
Definition topFileTypes (r : Results) : list (string * FileTypeStat) :=
  take 10 (Array_sort byExtAdditionsDesc (fileTypeStats r)).

Definition set_repoStats (r : Results) (entries : list RepoEntry.t) : Results :=
  {| totalAdditions := totalAdditions r;
     totalDeletions := totalDeletions r;
     netLines := netLines r;
     totalCommits := totalCommits r;
     repoStats := entries;
     fileTypeStats := fileTypeStats r;
     warnings := warnings r;
     processedAt := processedAt r;
     runtimeStats := runtimeStats r;
     processingStatus := processingStatus r;
     analysisMode := analysisMode r |}.

(** [results.repoStats.sort(...)]: the array member of the shared result
    object is reordered where it is. *)
Definition sortRepoStatsInPlace (results : ref) : M (list RepoEntry.t) :=
  r <- load results ;;
  let sorted := Array_sort byAdditionsDesc (repoStats r) in
  store results (set_repoStats r sorted) ;;;
  ret sorted.

Definition nl : string := String (ascii_of_nat 10) "".

Fixpoint repeat_string (s : string) (n : nat) : string :=
  match n with
  | O => ""
  | S n' => s +:+ repeat_string s n'
  end.

Definition Z_to_string (z : Z) : string :=
  DecimalString.NilZero.string_of_int (Z.to_int z).

(** [array.forEach((x, index) => { summary += line })] as the text added. *)
Fixpoint forEachText {A} (line : A -> Z -> string) (array : list A) (index : Z)
  : string :=
  match array with
  | [] => ""
  | x :: rest => line x index +:+ forEachText line rest (index + 1)
  end.

Definition modeText (mode : AnalysisMode) : string :=
  match mode with
  | ModeSingle => "Single Repository"
  | ModeAll => "All Repositories"
  end.

(** Number and date formatting depend on the host locale. *)
Variable toLocaleString : Z -> string.
Variable toISOString : Z -> string.

Definition repoLine (repo : RepoEntry.t) (index : Z) : string :=
  Z_to_string (index + 1) +:+ ". " +:+ RepoEntry.name repo +:+ ": +"
  +:+ toLocaleString (RepoEntry.additions repo) +:+ " lines ("
  +:+ Z_to_string (RepoEntry.commits repo) +:+ " commits)" +:+ nl.

Definition fileTypeLine (entry : string * FileTypeStat) (index : Z) : string :=
  Z_to_string (index + 1) +:+ ". ." +:+ fst entry +:+ ": +"
  +:+ toLocaleString (ext_additions (snd entry)) +:+ " lines" +:+ nl.

(** The text up to the two top-10 sections. *)
Definition summaryHead (c : Calculator) (r : Results) : string :=
  "GitHub Lines of Code Analysis for " +:+ username c +:+ " ("
  +:+ Z_to_string (year c) +:+ ")" +:+ nl
  +:+ repeat_string "=" 60 +:+ nl +:+ nl
  +:+ "Analysis Date: " +:+ toISOString (processedAt r) +:+ nl
  +:+ "Analysis Mode: " +:+ modeText (analysisMode r) +:+ nl
  +:+ "Total API Calls Made: "
  +:+ toLocaleString (totalApiCalls (runtimeStats r)) +:+ nl +:+ nl
  +:+ "OVERALL STATISTICS:" +:+ nl
  +:+ "- Total Lines Added: " +:+ toLocaleString (totalAdditions r) +:+ nl
  +:+ "- Total Lines Deleted: " +:+ toLocaleString (totalDeletions r) +:+ nl
  +:+ "- Net Lines of Code: " +:+ toLocaleString (netLines r) +:+ nl
  +:+ "- Total Commits: " +:+ toLocaleString (totalCommits r) +:+ nl
  +:+ "- Repositories Analyzed: "
  +:+ Z_to_string (Z.of_nat (length (repoStats r))) +:+ nl +:+ nl
  +:+ "PROCESSING STATUS:" +:+ nl
  +:+ "- Successfully processed: "
  +:+ Z_to_string (successful (processingStatus r)) +:+ " repositories" +:+ nl
  +:+ "- Failed to process: "
  +:+ Z_to_string (failed (processingStatus r)) +:+ " repositories" +:+ nl +:+ nl
  +:+ (if 0 <? failed (processingStatus r) then
         "FAILED REPOSITORIES:" +:+ nl
         +:+ forEachText (fun repo _ => "- " +:+ repo +:+ nl)
               (failedRepos (processingStatus r)) 0
         +:+ nl
       else "")
  +:+ (if 0 <? rt_truncatedCommits (runtimeStats r) then
         "WARNINGS:" +:+ nl
         +:+ "- " +:+ Z_to_string (rt_truncatedCommits (runtimeStats r))
         +:+ " commits had truncated data due to size" +:+ nl +:+ nl
       else "").

(** The text that [topFileTypes.forEach] adds. *)
Definition fileTypesSection (r : Results) : string :=
  forEachText fileTypeLine (topFileTypes r) 0.

Definition generateTextSummary (results : ref) : M string :=
  c <- getThis ;;
  r <- load results ;;
  let summary := summaryHead c r in
  let summary := summary +:+ "TOP 10 REPOSITORIES BY LINES ADDED:" +:+ nl in
  sorted <- sortRepoStatsInPlace results ;;
  let topRepos := take 10 sorted in
  let summary := summary +:+ forEachText repoLine topRepos 0 in
  let summary := summary +:+ nl +:+ "TOP 10 FILE TYPES BY LINES ADDED:" +:+ nl in
  r <- load results ;;
  let summary := summary +:+ fileTypesSection r in
  ret summary.

(** Of [printSummary] only the effect on the result object is kept: the
    lines it prints go to the console. *)
Definition printSummary (results : ref) : M unit :=
  sorted <- sortRepoStatsInPlace results ;;
  let topRepos := take 10 sorted in
  r <- load results ;;
  let topTypes := topFileTypes r in
  ret tt.

(** [saveResults]: the directory is created, then the JSON document and
    the text summary are written, in this order.  The file system is not
    an input of the model, and the two writes are taken to succeed (a
    write that is rejected would raise from here into the handler of
    [main]). *)
Definition saveResults (results : ref) : M unit :=
  _timestamp <- now ;;
  r <- load results ;;
  emit (WriteJson r) ;;;
  summary <- generateTextSummary results ;;
  emit (WriteText summary).

(** [new GitHubLOCCalculator(token, username, year)] *)
Definition construct (username : string) (year : Z) : M unit :=
  startTime <- now ;;
  setThis {| username := username; year := year; requestCount := 0;
             startTime := startTime; lastWaitLog := None |}.

(** [main], from the two credentials, the analysis year and the command
    line arguments, to the exit code of the process.  The year is given
    as [parseInt] reads it, [None] when the variable is unset or empty;
    a text that [parseInt] does not read as a number gives no date, like
    a year that has not four digits. *)
Definition main (GITHUB_TOKEN GITHUB_USERNAME : option string)
    (ANALYSIS_YEAR : option Z) (args : list string) : M Z :=
  let targetRepo := truthy (head args) in
  match truthy GITHUB_TOKEN, truthy GITHUB_USERNAME with
  | Some token, Some username =>
      tryCatch
        (_started <- now ;;
         construct username (default 2025 ANALYSIS_YEAR) ;;;
         results <- calculateLOCForYear targetRepo ;;
         printSummary results ;;;
         saveResults results ;;;
         _finished <- now ;;
         ret 0)
        (fun error => ret 1)
  | _, _ => ret 1
  end.

End Methods.

Arguments getCommitsForRepo : simpl never.
Arguments getAllRepositories : simpl never.
Arguments Double.round : simpl never.
Arguments elapsedHoursOf : simpl never.
Arguments rateExceeded : simpl never.
Arguments waitTimeOf : simpl never.
Arguments Qlt_bool : simpl never.

(** ** Vocabulary of the statements *)

Section Vocabulary.

Variable env : Env.

(** Calling the throttle [n] times in a row. *)
Fixpoint throttleTimes (n : nat) : M unit :=
  match n with
  | O => ret tt
  | S n' => rateLimitCheck env ;;; throttleTimes n'
  end.

(** One page fetch of the commit listing, as the loop of
    [getCommitsForRepo] performs it, with the answer kept as a value. *)
Definition fetchPage (owner repo : string) (since until : Date) (page : Z)
  : M (Error + list Commit) :=
  rateLimitCheck env ;;;
  c <- getThis ;;
  request_listCommits env
    {| p_owner := owner; p_repo := repo; p_author := username c;
       p_since := since; p_until := until; p_per_page := 100; p_page := page |}.

(** The variables of the pagination loop between two iterations. *)
Record Paging : Type :=
  { collected : list Commit;
    nextPage : Z;
    totalFetched : Z;
    world : World }.

Definition pagingStart (w : World) : Paging :=
  {| collected := []; nextPage := 1; totalFetched := 0; world := w |}.

(** One iteration that goes on: below the cap, the page is fetched and
    is not empty. *)
Inductive PageStep (owner repo : string) (since until : Date)
  : Paging -> Paging -> Prop :=
| page_step st data w' :
    totalFetched st < maxCommitsPerRepo ->
    fetchPage owner repo since until (nextPage st) (world st) = (Ret (inr data), w') ->
    data <> [] ->
    PageStep owner repo since until st
      {| collected := (collected st ++ data)%list;
         nextPage := nextPage st + 1;
         totalFetched := totalFetched st + Z.of_nat (length data);
         world := w' |}.

(** The states the pagination goes through from world [w]. *)
Definition Paged (owner repo : string) (since until : Date) (w : World)
  : Paging -> Prop :=
  rtc (PageStep owner repo since until) (pagingStart w).

(** The three ways the pagination ends in state [st]: the cap is
    reached, the next page is empty, or the next page fetch fails; [w']
    is the world right after that last fetch. *)
Definition CapReached (st : Paging) : Prop :=
  maxCommitsPerRepo <= totalFetched st.

Definition EmptyPage (owner repo : string) (since until : Date)
    (st : Paging) (w' : World) : Prop :=
  totalFetched st < maxCommitsPerRepo /\
  fetchPage owner repo since until (nextPage st) (world st) = (Ret (inr []), w').

Definition PageFails (owner repo : string) (since until : Date)
    (st : Paging) (e : Error) (w' : World) : Prop :=
  totalFetched st < maxCommitsPerRepo /\
  fetchPage owner repo since until (nextPage st) (world st) = (Ret (inl e), w').

(** The pagination loop resumed in state [st] with [fuel] left. *)
Definition getCommitsForRepo_at (owner repo : string) (since until : Date)
    (fuel : nat) (st : Paging) : Outcome (list Commit) * World :=
  getCommitsForRepo_loop env fuel owner repo since until
    (collected st) (nextPage st) (totalFetched st) (world st).

(** The listing endpoint serves a fixed sequence [all] of commits of the
    repository in pages: page [page] holds the [per_page] commits from
    position [per_page * (page - 1)] on.  A request may still fail. *)
Definition pageOf {A} (all : list A) (per_page page : Z) : list A :=
  take (Z.to_nat per_page) (drop (Z.to_nat (per_page * (page - 1))) all).

Definition Paginates (owner repo : string) (all : list Commit) : Prop :=
  forall n params data,
    p_owner params = owner -> p_repo params = repo ->
    listCommits env n params = inr data ->
    data = pageOf all (p_per_page params) (p_page params).

(** On a paginated listing the loop has collected the first
    [100 * (page - 1)] commits when it asks for page [page], and all the
    pages before were full unless the listing is exhausted. *)
Definition PagingInv (all : list Commit) (st : Paging) : Prop :=
  collected st = take (Z.to_nat (100 * (nextPage st - 1))) all /\
  totalFetched st = Z.of_nat (length (collected st)) /\
  1 <= nextPage st /\
  totalFetched st <= maxCommitsPerRepo /\
  (totalFetched st = 100 * (nextPage st - 1) \/
   Z.of_nat (length all) < 100 * (nextPage st - 1)).

(** One attempt of [getCommitStatsWithRetry], with the answer kept as a
    value. *)
Definition attemptOnce (owner repo sha : string) : M (Error + CommitData) :=
  rateLimitCheck env ;;;
  request_getCommit env owner repo sha.

Definition notFoundOrConflict (error : Error) : bool :=
  isStatus error 404 || isStatus error 409.

(** The suspension between attempt [attempt] and the next one:
    [attempt * 2] seconds. *)
Definition backoff (attempt : Z) : M unit :=
  sleep (inject_Z (attempt * 2 * 1000)).

(** The retry policy in the words of the specification: at most
    [attemptsLeft] attempts; a success returns the stats of the answer;
    not-found or conflict returns zero stats at once; any other failure
    backs off and tries again, and returns zero stats after the last
    attempt. *)
Fixpoint fetchStats_policy (attemptsLeft : nat) (owner repo sha : string)
    (attempt : Z) : M CommitStats.t :=
  match attemptsLeft with
  | O => ret CommitStats.zero
  | S remaining =>
      answer <- attemptOnce owner repo sha ;;
      match answer with
      | inr data => ret (statsOfResponse data)
      | inl error =>
          if notFoundOrConflict error then ret CommitStats.zero
          else
            match remaining with
            | O => ret CommitStats.zero
            | S _ => backoff attempt ;;; fetchStats_policy remaining owner repo sha (attempt + 1)
            end
      end
  end.

(** How the orchestrator folds the outcome of one repository into the
    result object. *)
Definition record (r : Results) (outcome : Repository * RepoResult.t) : Results :=
  if RepoResult.success (snd outcome) then recordSuccess (fst outcome) (snd outcome) r
  else recordFailure (fst outcome) r.

(** The first two steps of the [try] block of [main]: the start time is
    logged and the calculator is constructed. *)
Definition startRun (username : string) (year : Z) : M unit :=
  _started <- now env ;;
  construct env username year.

End Vocabulary.

(** The result object once its [repoStats] array has been sorted. *)
Definition sortedResults (r : Results) : Results :=
  set_repoStats r (Array_sort byAdditionsDesc (repoStats r)).

(** The text of the summary, from the calculator and the (sorted) result
    object. *)
Definition summaryOf (toLocaleString toISOString : Z -> string)
    (c : Calculator) (r : Results) : string :=
  (((summaryHead toLocaleString toISOString c r
       +:+ "TOP 10 REPOSITORIES BY LINES ADDED:" +:+ nl)
    +:+ forEachText (repoLine toLocaleString)
          (take 10 (repoStats (sortedResults r))) 0)
   +:+ nl +:+ "TOP 10 FILE TYPES BY LINES ADDED:" +:+ nl)
  +:+ fileTypesSection toLocaleString (sortedResults r).

(** Descending order of additions. *)
Definition additionsDesc (a b : RepoEntry.t) : Prop :=
  RepoEntry.additions b <= RepoEntry.additions a.

(** The world with the cell [l] of its heap replaced. *)
Definition withCell (w : World) (l : ref) (r : Results) : World :=
  {| this := this w; heap := <[l := r]> (heap w); tick := tick w; trace := trace w |}.

(** The world after a suspension of [ms] milliseconds. *)
Definition suspended (ms : Q) (w : World) : World :=
  {| this := this w; heap := heap w; tick := tick w;
     trace := (trace w ++ [Sleep ms])%list |}.

(** The events a computation added to the trace. *)
Definition Emitted (w w' : World) (events : list Event) : Prop :=
  trace w' = (trace w ++ events)%list.

(** A computation that never gets stuck and leaves the heap alone, and
    one that moreover always returns. *)
Definition Safe {A} (m : M A) : Prop :=
  forall w, exists o w', m w = (o, w') /\ o <> Stuck /\ heap w' = heap w.

Definition Total {A} (m : M A) : Prop :=
  forall w, exists a w', m w = (Ret a, w') /\ heap w' = heap w.

(** The repositories of [outcomes] that were processed with success, and
    those that failed. *)
Definition succeeded (outcomes : list (Repository * RepoResult.t))
  : list (Repository * RepoResult.t) :=
  List.filter (fun o => RepoResult.success (snd o)) outcomes.

Definition failedOnes (outcomes : list (Repository * RepoResult.t))
  : list (Repository * RepoResult.t) :=
  List.filter (fun o => negb (RepoResult.success (snd o))) outcomes.

Definition sumZ (l : list Z) : Z := fold_right Z.add 0 l.

(** The names in [results.repoStats], and the full names of the
    repositories of [outcomes]. *)
Definition entryNames (r : Results) : list string :=
  map RepoEntry.name (repoStats r).

Definition namesOf (outcomes : list (Repository * RepoResult.t)) : list string :=
  map (fun o => full_name (fst o)) outcomes.

(** ** A concrete environment for the examples *)

Module Example.

Definition repoA : Repository :=
  {| id := 1; name := "a"; full_name := "u/a"; owner := Some {| login := "u" |};
     size := 1024 |}.

Definition repoB : Repository :=
  {| id := 2; name := "b"; full_name := "u/b"; owner := Some {| login := "u" |};
     size := 2048 |}.

Definition file (path : string) (additions deletions : Z) : option File.t :=
  Some {| File.filename := path; File.additions := Some additions;
          File.deletions := Some deletions |}.

Definition commitData (total : Z) (files : list (option File.t)) : CommitData :=
  {| stats := Some {| Stats.additions := Some total; Stats.deletions := Some 0;
                      Stats.total := Some total |};
     files := Some files |}.

Definition serverError : Error := {| status := Some 500; message := "Server Error" |}.
Definition notFound : Error := {| status := Some 404; message := "Not Found" |}.

Definition commitsOf (repo : string) : list Commit :=
  [ {| sha := "c-" +:+ repo |} ].

(** Repository [a] has one commit that adds 5 lines, repository [b] one
    commit that adds 9; the clock advances by one second per reading. *)
Definition env : Env :=
  {| Date_now := fun n => 1000 * Z.of_nat n;
     listForAuthenticatedUser := fun _ per_page page =>
       inr (pageOf [repoA; repoB] per_page page);
     listCommits := fun _ params =>
       inr (pageOf (commitsOf (p_repo params)) (p_per_page params) (p_page params));
     getCommit := fun _ _ repo _ =>
       if String.eqb repo "a" then inr (commitData 5 [file "src/a.js" 5 0])
       else inr (commitData 9 [file "src/b.js" 9 0]) |}.

(** The same, but only the first page of a commit listing is served:
    every later page fetch fails. *)
Definition envFailingPage : Env :=
  {| Date_now := Date_now env;
     listForAuthenticatedUser := listForAuthenticatedUser env;
     listCommits := fun _ params =>
       if p_page params =? 1 then inr (commitsOf (p_repo params))
       else inl serverError;
     getCommit := getCommit env |}.

(** The same, but every repository has two commits, and the answer for
    the second one has a [null] entry in its file list. *)
Definition envBrokenCommit : Env :=
  {| Date_now := Date_now env;
     listForAuthenticatedUser := listForAuthenticatedUser env;
     listCommits := fun _ params =>
       inr (pageOf [ {| sha := "c1" |}; {| sha := "c2" |} ]
                   (p_per_page params) (p_page params));
     getCommit := fun _ _ _ sha =>
       if String.eqb sha "c1" then inr (commitData 5 [file "src/a.js" 5 0])
       else inr (commitData 1 [None]) |}.

(** The same, but the get-commit endpoint always answers with a server
    error. *)
Definition envServerDown : Env :=
  {| Date_now := Date_now env;
     listForAuthenticatedUser := listForAuthenticatedUser env;
     listCommits := listCommits env;
     getCommit := fun _ _ _ _ => inl serverError |}.

Definition calculator : Calculator :=
  {| username := "u"; year := 2025; requestCount := 0; startTime := 0;
     lastWaitLog := None |}.

Definition world0 : World :=
  {| this := calculator; heap := []; tick := 0; trace := [] |}.

(** A world in the middle of a run: some time has passed, and the
    result object is in the heap. *)
Definition world1 : World :=
  {| this := calculator; heap := [initialResults 0 ModeAll]; tick := 5;
     trace := [] |}.

Definition since : Date := StartOfYear 2025.
Definition until : Date := EndOfYear 2025.

(** The pagination of the commits of [a] against [envFailingPage]: the
    state after the first page, and the world after the failed fetch of
    the second. *)
Definition afterFirstPage : Paging :=
  {| collected := commitsOf "a"; nextPage := 2; totalFetched := 1;
     world := snd (fetchPage envFailingPage "u" "a" since until 1 world1) |}.

Definition afterFailedPage : World :=
  snd (fetchPage envFailingPage "u" "a" since until 2 (world afterFirstPage)).

(** The world in which the processing of [a] against [envBrokenCommit]
    raises its exception, after the first commit has been counted. *)
Definition afterException : World :=
  snd (processRepository_body envBrokenCommit repoA since until world1).

Definition nullFileError : Error :=
  TypeError "Cannot read properties of null (reading 'filename')".

End Example.

(** ** More vocabulary: requests, reports and the rest of the code *)

Definition isRequest (e : Event) : bool :=
  match e with
  | ReqListRepos _ _ | ReqListCommits _ | ReqGetCommit _ _ _ => true
  | Sleep _ | WriteJson _ | WriteText _ => false
  end.

Definition isWrite (e : Event) : bool :=
  match e with
  | WriteJson _ | WriteText _ => true
  | Sleep _ | ReqListRepos _ _ | ReqListCommits _ | ReqGetCommit _ _ _ => false
  end.

(** The number of API requests among some events. *)
Definition requestsIn (events : list Event) : Z :=
  Z.of_nat (length (List.filter isRequest events)).

(** The identity of the calculator: what no method but the constructor
    writes. *)
Definition sameAccount (c c' : Calculator) : Prop :=
  username c' = username c /\ year c' = year c /\ startTime c' = startTime c.

(** A computation that writes no report and keeps the call counter in
    step with the requests it issues, however it ends. *)
Definition Accounted {A} (m : M A) : Prop :=
  forall w o w',
    m w = (o, w') ->
    exists events,
      Emitted w w' events /\
      Forall (fun e => isWrite e = false) events /\
      requestCount (this w') = requestCount (this w) + requestsIn events /\
      sameAccount (this w) (this w').

Section MoreVocabulary.

Variable env : Env.

(** One page fetch of the repository listing, as the loop of
    [getAllRepositories] performs it, with the answer kept as a value. *)
Definition fetchRepoPage (page : Z) : M (Error + list Repository) :=
  rateLimitCheck env ;;;
  request_listForAuthenticatedUser env 100 page.

(** The repository listing is served in pages of a fixed sequence [all],
    and no request fails. *)
Definition ServesRepos (all : list Repository) : Prop :=
  forall n per_page page,
    listForAuthenticatedUser env n per_page page = inr (pageOf all per_page page).

(** The same for the first [pages] pages only; the fetch of the page
    after them fails. *)
Definition ServesReposUntil (all : list Repository) (pages : Z) : Prop :=
  (forall n per_page page,
      page <= pages ->
      listForAuthenticatedUser env n per_page page = inr (pageOf all per_page page)) /\
  (forall n per_page, exists e,
      listForAuthenticatedUser env n per_page (pages + 1) = inl e).

End MoreVocabulary.

(** The predicate of [getRepositoryByName]. *)
Definition matchesName (username repoName : string) (repo : Repository) : bool :=
  String.eqb (name repo) repoName
  || String.eqb (full_name repo) repoName
  || String.eqb (full_name repo) (username +:+ "/" +:+ repoName).

(** Whether the character [c] occurs in [s]. *)
Fixpoint hasChar (c : ascii) (s : string) : bool :=
  match s with
  | EmptyString => false
  | String a s' => Ascii.eqb a c || hasChar c s'
  end.

(** The repositories of an account, as its own listing shows them: the
    full name is the account, a slash and the name, and a name has no
    slash. *)
Definition OwnRepositories (username : string) (repos : list Repository) : Prop :=
  forall repo, In repo repos ->
    full_name repo = username +:+ "/" +:+ name repo /\
    hasChar "/" (name repo) = false.

(** The file records that the classifier lets through. *)
Definition includedFiles (files : list File.t) : list File.t :=
  List.filter (fun file => shouldIncludeFile (File.filename file)) files.

Definition additionsOf (files : list File.t) : Z :=
  sumZ (map (fun file => orZero (File.additions file)) files).

Definition deletionsOf (files : list File.t) : Z :=
  sumZ (map (fun file => orZero (File.deletions file)) files).

(** The result of [processRepository] for a repository without commits
    in the date range. *)
Definition emptySuccess : RepoResult.t :=
  {| RepoResult.success := true; RepoResult.error := None;
     RepoResult.stats := RepoStats.zero |}.

(** The finite language of a regular expression, word by word. *)
Fixpoint wordsOf (r : Pattern.regex) : list string :=
  match r with
  | Pattern.Lit s => [s]
  | Pattern.Alt r1 r2 => (wordsOf r1 ++ wordsOf r2)%list
  | Pattern.Seq r1 r2 =>
      flat_map (fun w1 => map (String.append w1) (wordsOf r2)) (wordsOf r1)
  end.

(** The [excludePatterns] array of the classifier that the test suite
    defines for itself, in [MockGitHubLOCCalculator]. *)
Definition mockExcludePatterns : list Pattern.t :=
  let lit := Pattern.Lit in
  let seq := Pattern.Seq in
  [ Pattern.atEnd (lit "package-lock.json");
    Pattern.atEnd (lit "yarn.lock");
    Pattern.atEnd (lit "composer.lock");
    Pattern.atStart
      (seq (Pattern.oneOf "dist" ["build"; "out"; "target"; "bin"; "obj"])
           (lit "/"));
    Pattern.anywhere (lit "node_modules/");
    Pattern.anywhere (lit "vendor/");
    Pattern.anywhere (lit "__pycache__/");
    Pattern.anywhere (lit ".pytest_cache/");
    Pattern.atEnd
      (seq (lit ".")
           (Pattern.oneOf "jpg"
              ["jpeg"; "png"; "gif"; "svg"; "ico"; "pdf"; "zip"; "tar"; "gz";
               "rar"; "7z"; "exe"; "dmg"]));
    Pattern.atEnd
      (seq (lit ".")
           (Pattern.oneOf "mp4" ["avi"; "mov"; "wmv"; "mp3"; "wav"; "ogg"]));
    Pattern.atEnd (seq (lit ".") (Pattern.oneOf "db" ["sqlite"; "sqlite3"]));
    Pattern.atEnd (seq (lit ".") (Pattern.oneOf "log" ["logs"]));
    Pattern.atStart (lit "logs/") ].

Definition mockShouldIncludeFile (filename : string) : bool :=
  negb (existsb (fun pattern => Pattern.test pattern filename) mockExcludePatterns).

(** An outcome that [processRepository] produced for its repository. *)
Definition Produced (env : Env) (since until : Date)
    (outcome : Repository * RepoResult.t) : Prop :=
  exists w w',
    processRepository env (fst outcome) since until w = (Ret (snd outcome), w').

(** An entry of [repoStats] that adds up. *)
Definition entryConsistent (e : RepoEntry.t) : Prop :=
  RepoEntry.netLines e = RepoEntry.additions e - RepoEntry.deletions e /\
  0 <= RepoEntry.truncatedCommits e <= RepoEntry.commits e.

(** A result object whose totals and counters are those of its lists. *)
Definition Tallied (r : Results) : Prop :=
  totalAdditions r = sumZ (map RepoEntry.additions (repoStats r)) /\
  totalDeletions r = sumZ (map RepoEntry.deletions (repoStats r)) /\
  totalCommits r = sumZ (map RepoEntry.commits (repoStats r)) /\
  rt_truncatedCommits (runtimeStats r)
  = sumZ (map RepoEntry.truncatedCommits (repoStats r)) /\
  successful (processingStatus r) = Z.of_nat (length (repoStats r)) /\
  failed (processingStatus r) = Z.of_nat (length (failedRepos (processingStatus r))) /\
  Forall entryConsistent (repoStats r).

(** The entries of [repoStats] with [additions] additions. *)
Definition withAdditions (additions : Z) (entries : list RepoEntry.t)
  : list RepoEntry.t :=
  List.filter (fun e => RepoEntry.additions e =? additions) entries.

(** The error of [calculateLOCForYear] for a target that is not listed. *)
Definition notFoundError (target : string) : Error :=
  {| status := None; message := "Repository '" +:+ target +:+ "' not found" |}.

(** ** Further sample data *)

Module Sample.

(** The environment of the examples, but the repository listing serves
    its first page only: the fetch of every later page fails. *)
Definition envListingFails : Env :=
  {| Date_now := Date_now Example.env;
     listForAuthenticatedUser := fun _ per_page page =>
       if page <=? 1 then inr (pageOf [Example.repoA; Example.repoB] per_page page)
       else inl Example.serverError;
     listCommits := listCommits Example.env;
     getCommit := getCommit Example.env |}.

(** The world after a run over all repositories, and after [main]. *)
Definition afterRun : World :=
  snd (calculateLOCForYear Example.env None Example.world1).

Definition afterMain : World :=
  snd (main Example.env Z_to_string Z_to_string (Some "t") (Some "u") None []
            Example.world0).

(** The worlds after the lookup of a repository by name. *)
Definition afterLookup (repoName : string) : World :=
  snd (getRepositoryByName Example.env repoName Example.world1).

(** A commit with a source file and a build product. *)
Definition twoFiles : list File.t :=
  [ {| File.filename := "src/a.js"; File.additions := Some 5;
       File.deletions := Some 1 |};
    {| File.filename := "dist/a.js"; File.additions := Some 100;
       File.deletions := None |} ].

Definition commitStats : CommitStats.t :=
  {| CommitStats.additions := 105; CommitStats.deletions := 1;
     CommitStats.total := 106; CommitStats.files := map Some twoFiles;
     CommitStats.truncated := false |}.

(** An endpoint that answers every request for commits with 99 of them,
    and one that serves a listing of 6000 commits in pages. *)
Definition envShortPages : Env :=
  {| Date_now := Date_now Example.env;
     listForAuthenticatedUser := listForAuthenticatedUser Example.env;
     listCommits := fun _ _ => inr (replicate 99 {| sha := "c" |});
     getCommit := getCommit Example.env |}.

Definition manyCommits : list Commit := replicate (Z.to_nat 6000) {| sha := "c" |}.

Definition envManyCommits : Env :=
  {| Date_now := Date_now Example.env;
     listForAuthenticatedUser := listForAuthenticatedUser Example.env;
     listCommits := fun _ params =>
       inr (pageOf manyCommits (p_per_page params) (p_page params));
     getCommit := getCommit Example.env |}.

(** The get-commit endpoint answers with status 404, and with a server
    error until its interaction with the program has index 6. *)
Definition envCommitGone : Env :=
  {| Date_now := Date_now Example.env;
     listForAuthenticatedUser := listForAuthenticatedUser Example.env;
     listCommits := listCommits Example.env;
     getCommit := fun _ _ _ _ => inl Example.notFound |}.

Definition largeCommit : CommitData :=
  Example.commitData 10 (replicate 300 (Example.file "src/a.js" 1 0)).

Definition envFlaky : Env :=
  {| Date_now := Date_now Example.env;
     listForAuthenticatedUser := listForAuthenticatedUser Example.env;
     listCommits := listCommits Example.env;
     getCommit := fun n _ _ _ =>
       if (n <=? 6)%nat then inl Example.serverError else inr largeCommit |}.

(** A calculator that has made six calls, at the very instant it was
    started, and one whose year is not a year of four digits. *)
Definition busyWorld : World :=
  {| this := {| username := "u"; year := 2025; requestCount := 6;
                startTime := 5000; lastWaitLog := None |};
     heap := []; tick := 5; trace := [] |}.

Definition farWorld : World :=
  {| this := {| username := "u"; year := 12025; requestCount := 0;
                startTime := 0; lastWaitLog := None |};
     heap := []; tick := 5; trace := [] |}.

End Sample.

(** * The file classifier *)

Module PatternFacts.
Import Pattern.

Lemma append_nil_l (s : string) : "" ++ s = s.
Proof. reflexivity. Qed.

Lemma append_cons (a : ascii) (s1 s2 : string) :
  String a s1 ++ s2 = String a (s1 ++ s2).
Proof. reflexivity. Qed.

Lemma append_nil_r (s : string) : s ++ "" = s.
Proof.
  induction s as [|a s IH]; [reflexivity | now rewrite append_cons, IH].
Qed.

Lemma append_assoc (s1 s2 s3 : string) : (s1 ++ s2) ++ s3 = s1 ++ (s2 ++ s3).
Proof.
  induction s1 as [|a s1 IH]; [reflexivity | now rewrite !append_cons, IH].
Qed.

Lemma stripPrefix_Some (p s rest : string) :
  stripPrefix p s = Some rest <-> s = p ++ rest.
Proof.
  revert s. induction p as [|a p IH]; intros s; simpl.
  - rewrite append_nil_l. split; congruence.
  - rewrite append_cons. destruct s as [|b s].
    + split; discriminate.
    + destruct (Ascii.eqb_spec a b) as [->|Hab].
      * rewrite IH. split; congruence.
      * split; [discriminate | intros [=]; congruence].
Qed.

(** The matcher computes exactly the ways of splitting off a word of the
    language. *)
Lemma residuals_spec (r : regex) (s rest : string) :
  In rest (residuals r s) <-> exists w, Matches r w /\ s = w ++ rest.
Proof.
  revert s rest. induction r as [p | r1 IH1 r2 IH2 | r1 IH1 r2 IH2]; intros s rest; simpl.
  - destruct (stripPrefix p s) as [rest'|] eqn:E.
    + apply stripPrefix_Some in E. split.
      * intros [<-|[]]. exists p. split; [constructor | assumption].
      * intros (w & Hm & ->). inversion Hm; subst. left.
        apply (inj (String.app _)) in E. congruence.
    + split; [intros [] |].
      intros (w & Hm & ->). inversion Hm; subst.
      assert (stripPrefix w (w ++ rest) = Some rest) as E'
        by (apply stripPrefix_Some; reflexivity).
      congruence.
  - rewrite in_app_iff, IH1, IH2. split.
    + intros [(w & Hm & ->) | (w & Hm & ->)]; exists w; split; auto using Matches.
    + intros (w & Hm & ->). inversion Hm; subst; [left | right]; eauto.
  - rewrite in_flat_map. split.
    + intros (mid & H1 & H2). apply IH1 in H1 as (w1 & Hm1 & ->).
      apply IH2 in H2 as (w2 & Hm2 & ->).
      exists (w1 ++ w2). split; [now constructor | now rewrite append_assoc].
    + intros (w & Hm & ->). inversion Hm; subst.
      exists (w2 ++ rest). split.
      * apply IH1. eexists; split; [eassumption | now rewrite append_assoc].
      * apply IH2. eauto.
Qed.

Lemma endOk_true (p : t) (rest : string) :
  endOk p rest = true <-> (anchorEnd p = true -> rest = "").
Proof.
  unfold endOk. destruct (anchorEnd p).
  - rewrite String.eqb_eq. intuition.
  - intuition discriminate.
Qed.

Lemma matchesAt_true (p : t) (s : string) :
  matchesAt p s = true <->
  exists w post, s = w ++ post /\ Matches (body p) w /\
                 (anchorEnd p = true -> post = "").
Proof.
  unfold matchesAt. rewrite existsb_exists. split.
  - intros (rest & Hin & Hend). apply residuals_spec in Hin as (w & Hm & ->).
    pose proof (proj1 (endOk_true _ _) Hend). eauto.
  - intros (w & post & -> & Hm & Hend). exists post. split.
    + apply residuals_spec. eauto.
    + now apply endOk_true.
Qed.

Lemma searchFrom_true (p : t) (s : string) :
  searchFrom p s = true <->
  exists pre w post, s = pre ++ w ++ post /\ Matches (body p) w /\
                     (anchorEnd p = true -> post = "").
Proof.
  induction s as [|a s IH]; simpl; rewrite orb_true_iff, matchesAt_true.
  - split.
    + intros [(w & post & E & Hm & Hend) | [=]]. exists "", w, post. auto.
    + intros (pre & w & post & E & Hm & Hend). left.
      destruct pre as [|b pre]; [| rewrite append_cons in E; discriminate].
      rewrite append_nil_l in E. eauto.
  - rewrite IH. split.
    + intros [(w & post & E & Hm & Hend) | (pre & w & post & -> & Hm & Hend)].
      * exists "", w, post. auto.
      * exists (String a pre), w, post. auto.
    + intros (pre & w & post & E & Hm & Hend). destruct pre as [|b pre].
      * left. rewrite append_nil_l in E. eauto.
      * right. rewrite append_cons in E. injection E as -> ->.
        exists pre, w, post. auto.
Qed.

(** [test] decides [Accepts]. *)
Lemma test_true (p : t) (s : string) : test p s = true <-> Accepts p s.
Proof.
  unfold test, Accepts. destruct (anchorStart p) eqn:Hstart.
  - rewrite matchesAt_true. split.
    + intros (w & post & -> & Hm & Hend). exists "", w, post. auto.
    + intros (pre & w & post & -> & Hm & Hpre & Hend).
      rewrite (Hpre eq_refl), append_nil_l. eauto.
  - rewrite searchFrom_true. split.
    + intros (pre & w & post & -> & Hm & Hend).
      exists pre, w, post. intuition discriminate.
    + intros (pre & w & post & -> & Hm & _ & Hend). exists pre, w, post. auto.
Qed.

End PatternFacts.

(** C5. [shouldIncludeFile p] is [false] exactly when one of the exclusion
    rules matches [p] (the pattern accepts a part of the path, at the
    start or at the end where the rule is anchored), and [true]
    otherwise; of the six sample paths the four generated ones are
    excluded and the two source files are included. *)
Theorem shouldIncludeFile_iff_no_rule_matches :
  (forall p : string,
      shouldIncludeFile p = false <->
      exists rule, In rule excludePatterns /\ Pattern.Accepts rule p) /\
  (forall p : string,
      shouldIncludeFile p = true <->
      forall rule, In rule excludePatterns -> ~ Pattern.Accepts rule p) /\
  shouldIncludeFile "package-lock.json" = false /\
  shouldIncludeFile "dist/x.js" = false /\
  shouldIncludeFile "node_modules/a/b.js" = false /\
  shouldIncludeFile "video.mp4" = false /\
  shouldIncludeFile "src/index.js" = true /\
  shouldIncludeFile "README.md" = true.
Proof.
  assert (forall p : string,
             shouldIncludeFile p = false <->
             exists rule, In rule excludePatterns /\ Pattern.Accepts rule p) as Hiff.
  { intros p. unfold shouldIncludeFile.
    rewrite negb_false_iff, existsb_exists.
    split; intros (rule & Hin & Hacc); exists rule; split; auto;
      now apply PatternFacts.test_true. }
  split; [exact Hiff |]. split.
  - intros p. split.
    + intros Hinc rule Hin Hacc.
      assert (shouldIncludeFile p = false) as Hexc by (apply Hiff; eauto).
      congruence.
    + intros Hnone. destruct (shouldIncludeFile p) eqn:E; [reflexivity |].
      apply Hiff in E as (rule & Hin & Hacc). now destruct (Hnone rule Hin).
  - repeat split; vm_compute; reflexivity.
Qed.
(** * Doubles *)

Module DoubleFacts.

Import Double.
Local Open Scope Q_scope.

Lemma pow2_pos (e : Z) : 0 < pow2 e.
Proof.
  unfold pow2. destruct (0 <=? e)%Z eqn:E.
  - apply Z.leb_le in E. change 0 with (inject_Z 0). rewrite <- Zlt_Qlt.
    now apply Z.pow_pos_nonneg.
  - apply Z.leb_gt in E. apply Qinv_lt_0_compat.
    change 0 with (inject_Z 0). rewrite <- Zlt_Qlt.
    apply Z.pow_pos_nonneg; lia.
Qed.

Lemma pow2_nonneg_exp (e : Z) : (0 <= e)%Z -> pow2 e = inject_Z (2 ^ e).
Proof. intros H. unfold pow2. apply Z.leb_le in H. now rewrite H. Qed.

Lemma pow2_succ (e : Z) : pow2 (e + 1) == 2 * pow2 e.
Proof.
  unfold pow2.
  destruct (0 <=? e)%Z eqn:E; destruct (0 <=? e + 1)%Z eqn:E1;
    try apply Z.leb_le in E; try apply Z.leb_gt in E;
    try apply Z.leb_le in E1; try apply Z.leb_gt in E1; try lia.
  - rewrite Z.pow_add_r by lia. rewrite inject_Z_mult. change (inject_Z (2 ^ 1)) with 2. ring.
  - assert (e = -1)%Z as -> by lia. reflexivity.
  - replace (- e)%Z with (- (e + 1) + 1)%Z by lia.
    rewrite Z.pow_add_r by lia. rewrite inject_Z_mult. change (inject_Z (2 ^ 1)) with 2.
    assert (0 < inject_Z (2 ^ (- (e + 1)))) as Hpos.
    { change 0 with (inject_Z 0). rewrite <- Zlt_Qlt. apply Z.pow_pos_nonneg; lia. }
    field. intros H. rewrite H in Hpos. now apply Qlt_irrefl in Hpos.
Qed.

Lemma pow2_add (e k : Z) : (0 <= k)%Z -> pow2 (e + k) == pow2 e * inject_Z (2 ^ k).
Proof.
  intros Hk. revert e. pattern k. apply natlike_ind; [| | exact Hk]; clear k Hk.
  - intros e. rewrite Z.add_0_r. change (inject_Z (2 ^ 0)) with 1. ring.
  - intros k Hk IH e. replace (e + Z.succ k)%Z with ((e + k) + 1)%Z by lia.
    rewrite pow2_succ, IH, Z.pow_succ_r by lia. rewrite inject_Z_mult.
    change (inject_Z 2) with 2. ring.
Qed.

Lemma binade_le (q : Q) : ~ q == 0 -> pow2 (binade q) <= Qabs q.
Proof.
  intros Hq. unfold binade.
  set (n := Z.abs (Qnum q)). set (d := Zpos (Qden q)).
  set (e := (Z.log2 n - Z.log2 d)%Z).
  destruct (Qle_bool (pow2 e) (Qabs q)) eqn:E; [now apply Qle_bool_iff |].
  assert (0 < n)%Z as Hn.
  { unfold n. destruct q as [qn qd]. unfold Qeq in Hq. simpl in *. lia. }
  assert (0 < d)%Z as Hd by (unfold d; lia).
  pose proof (Z.log2_spec n Hn) as [Hn1 Hn2].
  pose proof (Z.log2_spec d Hd) as [Hd1 Hd2].
  pose proof (Z.log2_nonneg n) as Ha. pose proof (Z.log2_nonneg d) as Hb.
  set (a := Z.log2 n) in *. set (b := Z.log2 d) in *.
  assert (Qabs q == inject_Z n / inject_Z d) as ->.
  { destruct q as [qn qd]. unfold Qabs, n, d. simpl. unfold Qeq, Qdiv, Qmult, Qinv, inject_Z.
    simpl. lia. }
  assert (0 < inject_Z d) as Hdq by (change 0 with (inject_Z 0); now rewrite <- Zlt_Qlt).
  apply Qle_shift_div_l; [exact Hdq |].
  unfold pow2. destruct (0 <=? e - 1)%Z eqn:E1.
  - apply Z.leb_le in E1. rewrite <- inject_Z_mult, <- Zle_Qle.
    transitivity (2 ^ (e - 1) * 2 ^ Z.succ b)%Z.
    + apply Z.mul_le_mono_nonneg_l; [apply Z.pow_nonneg; lia | lia].
    + rewrite <- Z.pow_add_r by lia. replace (e - 1 + Z.succ b)%Z with a by (unfold e; lia).
      exact Hn1.
  - apply Z.leb_gt in E1.
    assert (0 < inject_Z (2 ^ (- (e - 1)))) as Hpos.
    { change 0 with (inject_Z 0). rewrite <- Zlt_Qlt. apply Z.pow_pos_nonneg; lia. }
    setoid_replace (/ inject_Z (2 ^ (- (e - 1))) * inject_Z d)
      with (inject_Z d / inject_Z (2 ^ (- (e - 1)))) using relation Qeq
      by (field; intros H; rewrite H in Hpos; now apply Qlt_irrefl in Hpos).
    apply Qle_shift_div_r; [exact Hpos |].
    rewrite <- inject_Z_mult, <- Zle_Qle.
    transitivity (2 ^ Z.succ b)%Z; [lia |].
    replace (Z.succ b) with (a + - (e - 1))%Z by (unfold e; lia).
    rewrite Z.pow_add_r by lia.
    apply Z.mul_le_mono_nonneg_r; [apply Z.pow_nonneg; lia | exact Hn1].
Qed.

Lemma nearestEven_bounds (q : Q) :
  q - (1 # 2) <= inject_Z (nearestEven q) <= q + (1 # 2).
Proof.
  unfold nearestEven.
  pose proof (Qfloor_le q) as Hlo. pose proof (Qlt_floor q) as Hhi.
  rewrite inject_Z_plus in Hhi. change (inject_Z 1) with 1 in Hhi.
  set (f := Qfloor q) in *.
  destruct (q - inject_Z f ?= 1 # 2) eqn:E.
  - apply Qeq_alt in E. destruct (Z.even f).
    + split; lra.
    + rewrite inject_Z_plus. change (inject_Z 1) with 1. split; lra.
  - apply Qlt_alt in E. split; lra.
  - apply Qgt_alt in E. rewrite inject_Z_plus. change (inject_Z 1) with 1.
    split; lra.
Qed.

(** The relative error of a rounding is at most [2^-53]. *)
Lemma round_error (q : Q) :
  q - Qabs q * eps <= round q <= q + Qabs q * eps.
Proof.
  unfold round. destruct (Qeq_bool q 0) eqn:E.
  - apply Qeq_bool_iff in E. rewrite E. split; vm_compute; discriminate.
  - assert (~ q == 0) as Hq by (intros H; apply Qeq_bool_iff in H; congruence).
    cbv zeta. rewrite Qred_correct.
    set (b := binade q).
    pose proof (binade_le q Hq) as Hb. fold b in Hb.
    pose proof (pow2_pos (b - 52)) as Hulp.
    pose proof (pow2_add (b - 52) 52 ltac:(lia)) as Hsplit.
    replace (b - 52 + 52)%Z with b in Hsplit by lia.
    set (ulp := pow2 (b - 52)) in *.
    pose proof (nearestEven_bounds (q / ulp)) as [Hlo Hhi].
    set (m := inject_Z (nearestEven (q / ulp))) in *.
    assert (q / ulp * ulp == q) as Hq' by (field; lra).
    assert ((q / ulp - (1 # 2)) * ulp <= m * ulp) as H1
        by (apply Qmult_le_compat_r; lra).
    assert (m * ulp <= (q / ulp + (1 # 2)) * ulp) as H2
        by (apply Qmult_le_compat_r; lra).
    change (inject_Z (2 ^ 52)) with 4503599627370496 in Hsplit.
    unfold eps.
    setoid_replace ((q / ulp - (1 # 2)) * ulp) with (q - (1 # 2) * ulp) using relation Qeq in H1
      by (rewrite <- Hq' at 2; ring).
    setoid_replace ((q / ulp + (1 # 2)) * ulp) with (q + (1 # 2) * ulp) using relation Qeq in H2
      by (rewrite <- Hq' at 2; ring).
    split; lra.
Qed.

Lemma round_nonneg (q : Q) :
  0 <= q -> q * (1 - eps) <= round q <= q * (1 + eps).
Proof.
  intros H. pose proof (round_error q) as [H1 H2].
  rewrite (Qabs_pos q H) in H1, H2. split; lra.
Qed.

Lemma round_nonpos (q : Q) :
  q <= 0 -> q * (1 + eps) <= round q <= q * (1 - eps).
Proof.
  intros H. pose proof (round_error q) as [H1 H2].
  rewrite (Qabs_neg q H) in H1, H2. split; lra.
Qed.

(** Integers below [2^53] are doubles: rounding leaves them alone. *)
Lemma nearestEven_integer (q : Q) (k : Z) : q == inject_Z k -> nearestEven q = k.
Proof.
  intros Hq. unfold nearestEven.
  assert (Qfloor q = k) as -> by (rewrite Hq; apply Qfloor_Z).
  assert ((q - inject_Z k ?= 1 # 2) = Lt) as ->; [| reflexivity].
  apply Qlt_alt. rewrite Hq.
  setoid_replace (inject_Z k - inject_Z k) with 0 using relation Qeq by ring.
  reflexivity.
Qed.

Lemma round_integer (n : Z) :
  (Z.abs n < 2 ^ 53)%Z -> round (inject_Z n) == inject_Z n.
Proof.
  intros Hn. unfold round. destruct (Qeq_bool (inject_Z n) 0) eqn:E.
  - apply Qeq_bool_iff in E. now rewrite E.
  - assert (~ inject_Z n == 0) as Hq by (intros H; apply Qeq_bool_iff in H; congruence).
    cbv zeta. rewrite Qred_correct.
    set (b := binade (inject_Z n)).
    pose proof (binade_le (inject_Z n) Hq) as Hb. fold b in Hb.
    assert (Qabs (inject_Z n) == inject_Z (Z.abs n)) as Habs by reflexivity.
    rewrite Habs in Hb.
    assert (b < 53)%Z as Hb53.
    { destruct (Z_lt_le_dec b 53) as [H | H]; [exact H | exfalso].
      rewrite pow2_nonneg_exp in Hb by lia. rewrite <- Zle_Qle in Hb.
      pose proof (Z.pow_le_mono_r 2 53 b ltac:(lia) H). lia. }
    pose proof (pow2_add (b - 52) (52 - b) ltac:(lia)) as Hone.
    replace (b - 52 + (52 - b))%Z with 0%Z in Hone by lia.
    change (pow2 0) with 1 in Hone.
    pose proof (pow2_pos (b - 52)) as Hulp.
    set (ulp := pow2 (b - 52)) in *.
    assert (inject_Z n / ulp == inject_Z (n * 2 ^ (52 - b))) as Hk.
    { rewrite inject_Z_mult. field_simplify_eq; [| lra].
      rewrite (Qmult_comm (inject_Z n)), <- Qmult_assoc, (Qmult_comm (inject_Z n)),
        Qmult_assoc, <- Hone. ring. }
    rewrite (nearestEven_integer _ _ Hk), inject_Z_mult.
    rewrite <- Qmult_assoc, (Qmult_comm _ ulp), <- Hone. ring.
Qed.

End DoubleFacts.


(** * The monad *)

Lemma bind_Ret {A B} (m : M A) (k : A -> M B) (w w' : World) (a : A) :
  m w = (Ret a, w') -> bind m k w = k a w'.
Proof. unfold bind. now intros ->. Qed.

Lemma bind_Throw {A B} (m : M A) (k : A -> M B) (w w' : World) (e : Error) :
  m w = (Throw e, w') -> bind m k w = (Throw e, w').
Proof. unfold bind. now intros ->. Qed.

Lemma tryCatch_Ret {A} (m : M A) (h : Error -> M A) (w w' : World) (a : A) :
  m w = (Ret a, w') -> tryCatch m h w = (Ret a, w').
Proof. unfold tryCatch. now intros ->. Qed.

Lemma tryCatch_Throw {A} (m : M A) (h : Error -> M A) (w w' : World) (e : Error) :
  m w = (Throw e, w') -> tryCatch m h w = h e w'.
Proof. unfold tryCatch. now intros ->. Qed.

Lemma Emitted_refl (w : World) : Emitted w w [].
Proof. unfold Emitted. now rewrite app_nil_r. Qed.

Lemma Emitted_trans (w1 w2 w3 : World) (ev1 ev2 : list Event) :
  Emitted w1 w2 ev1 -> Emitted w2 w3 ev2 -> Emitted w1 w3 (ev1 ++ ev2)%list.
Proof. unfold Emitted. intros H1 H2. now rewrite H2, H1, app_assoc. Qed.

(** * The throttle *)

Lemma Qlt_bool_true (a b : Q) : Qlt_bool a b = true <-> (a < b)%Q.
Proof.
  unfold Qlt_bool. rewrite negb_true_iff. split.
  - intros H. apply Qnot_le_lt. intros Hle. apply Qle_bool_iff in Hle. congruence.
  - intros H. destruct (Qle_bool b a) eqn:E; [|reflexivity].
    apply Qle_bool_iff in E. now apply Qlt_not_le in H.
Qed.

Lemma Qlt_bool_false (a b : Q) : Qlt_bool a b = false <-> ~ (a < b)%Q.
Proof.
  rewrite <- Qlt_bool_true. destruct (Qlt_bool a b); intuition congruence.
Qed.

(** ** The two computations of the throttle, in doubles *)

Section RateArithmetic.

Import Double.
Local Open Scope Q_scope.

Variables (count start now0 : Z).

Local Abbreviation elapsed := (now0 - start)%Z.
Local Abbreviation budget := (750 * count)%Z.

(** No time elapsed at all: the rate is [Infinity]. *)
Lemma rateExceeded_at_start :
  (0 < count)%Z -> elapsed = 0%Z -> rateExceeded count start now0 = true.
Proof.
  intros Hpos Hzero. unfold rateExceeded, elapsedHoursOf, js_div. rewrite Hzero.
  replace (Qeq_bool (round (inject_Z 0 / 3600000)) 0) with true by reflexivity.
  assert (Qeq_bool (inject_Z count) 0 = false) as ->.
  { apply not_true_is_false. intros E. apply Qeq_bool_iff in E.
    unfold Qeq, inject_Z in E. simpl in E. lia. }
  assert (Qlt_bool 0 (inject_Z count) = true) as ->; [| reflexivity].
  apply Qlt_bool_true. unfold Qlt, inject_Z. simpl. lia.
Qed.

(** The elapsed hours, up to their rounding. *)
Lemma elapsedHoursOf_pos :
  (0 < elapsed)%Z ->
  inject_Z elapsed * (1 # 3600000) * (1 - eps) <= elapsedHoursOf start now0
  <= inject_Z elapsed * (1 # 3600000) * (1 + eps).
Proof.
  intros Hpos. unfold elapsedHoursOf.
  change (inject_Z elapsed * (1 # 3600000)) with (inject_Z elapsed / 3600000).
  apply DoubleFacts.round_nonneg.
  assert (0 < inject_Z elapsed) by (change 0 with (inject_Z 0); now rewrite <- Zlt_Qlt).
  apply Qle_shift_div_l; lra.
Qed.

Lemma elapsedHoursOf_neg :
  (elapsed < 0)%Z ->
  inject_Z elapsed * (1 # 3600000) * (1 + eps) <= elapsedHoursOf start now0
  <= inject_Z elapsed * (1 # 3600000) * (1 - eps).
Proof.
  intros Hneg. unfold elapsedHoursOf.
  change (inject_Z elapsed * (1 # 3600000)) with (inject_Z elapsed / 3600000).
  apply DoubleFacts.round_nonpos.
  assert (inject_Z elapsed < 0) by (change 0 with (inject_Z 0); now rewrite <- Zlt_Qlt).
  apply Qle_shift_div_r; lra.
Qed.

(** More than one call per 750 ms so far: the rate is over the ceiling. *)
Lemma rateExceeded_over :
  (0 < count)%Z -> (0 <= elapsed <= budget - 1)%Z -> (elapsed <= 2 ^ 48)%Z ->
  rateExceeded count start now0 = true.
Proof.
  intros Hcount [Hlo Hhi] Hmax.
  destruct (Z.eq_dec elapsed 0%Z) as [Hzero | Hnz];
    [now apply rateExceeded_at_start |].
  assert (0 < elapsed)%Z as Hpos by lia.
  pose proof (elapsedHoursOf_pos Hpos) as [Hh1 Hh2].
  unfold rateExceeded, js_div.
  set (h := elapsedHoursOf start now0) in *.
  assert (1 <= inject_Z elapsed) as Hd1
      by (change 1 with (inject_Z 1); rewrite <- Zle_Qle; lia).
  assert (inject_Z elapsed <= 281474976710656) as Hd2
      by (change 281474976710656 with (inject_Z (2 ^ 48)); now rewrite <- Zle_Qle).
  assert (inject_Z elapsed + 1 <= 750 * inject_Z count) as Hc.
  { change 750 with (inject_Z 750). change 1 with (inject_Z 1).
    rewrite <- inject_Z_mult, <- inject_Z_plus, <- Zle_Qle. lia. }
  unfold eps in *.
  assert (0 < h) as Hh by lra.
  assert (Qeq_bool h 0 = false) as ->.
  { apply not_true_is_false. intros E. apply Qeq_bool_iff in E. lra. }
  unfold js_gt. apply Qlt_bool_true.
  assert (0 <= inject_Z count / h) as Hx by (apply Qle_shift_div_l; lra).
  pose proof (DoubleFacts.round_nonneg _ Hx) as [Hr _].
  eapply Qlt_le_trans; [| exact Hr].
  unfold eps.
  setoid_replace (inject_Z count / h * (1 - (1 # 9007199254740992)))
    with (inject_Z count * (1 - (1 # 9007199254740992)) / h) using relation Qeq
      by (field; lra).
  apply Qlt_shift_div_l; [exact Hh |].
  change (inject_Z maxRequestsPerHour) with 4800. lra.
Qed.

(** Fewer than one call per 750 ms so far: the rate is not over. *)
Lemma rateExceeded_under :
  (0 < count)%Z -> (budget + 1 <= elapsed <= 2 ^ 48)%Z ->
  rateExceeded count start now0 = false.
Proof.
  intros Hcount [Hlo Hmax].
  assert (0 < elapsed)%Z as Hpos by lia.
  pose proof (elapsedHoursOf_pos Hpos) as [Hh1 Hh2].
  unfold rateExceeded, js_div.
  set (h := elapsedHoursOf start now0) in *.
  assert (1 <= inject_Z elapsed) as Hd1
      by (change 1 with (inject_Z 1); rewrite <- Zle_Qle; lia).
  assert (inject_Z elapsed <= 281474976710656) as Hd2
      by (change 281474976710656 with (inject_Z (2 ^ 48)); now rewrite <- Zle_Qle).
  assert (750 * inject_Z count + 1 <= inject_Z elapsed) as Hc.
  { change 750 with (inject_Z 750). change 1 with (inject_Z 1).
    rewrite <- inject_Z_mult, <- inject_Z_plus, <- Zle_Qle. lia. }
  assert (0 < inject_Z count) as Hcq
      by (change 0 with (inject_Z 0); now rewrite <- Zlt_Qlt).
  unfold eps in *.
  assert (0 < h) as Hh by lra.
  assert (Qeq_bool h 0 = false) as ->.
  { apply not_true_is_false. intros E. apply Qeq_bool_iff in E. lra. }
  unfold js_gt. apply Qlt_bool_false. apply Qle_not_lt.
  assert (0 <= inject_Z count / h) as Hx by (apply Qle_shift_div_l; lra).
  pose proof (DoubleFacts.round_nonneg _ Hx) as [_ Hr].
  eapply Qle_trans; [exact Hr |].
  unfold eps.
  setoid_replace (inject_Z count / h * (1 + (1 # 9007199254740992)))
    with (inject_Z count * (1 + (1 # 9007199254740992)) / h) using relation Qeq
      by (field; lra).
  apply Qle_shift_div_r; [exact Hh |].
  change (inject_Z maxRequestsPerHour) with 4800. lra.
Qed.

(** A clock that reads less than the start time: the rate is negative. *)
Lemma rateExceeded_backwards :
  (0 < count)%Z -> (elapsed < 0)%Z -> rateExceeded count start now0 = false.
Proof.
  intros Hcount Hneg.
  pose proof (elapsedHoursOf_neg Hneg) as [Hh1 Hh2].
  unfold rateExceeded, js_div.
  set (h := elapsedHoursOf start now0) in *.
  assert (inject_Z elapsed <= -1) as Hd1
      by (change (-1) with (inject_Z (-1)); rewrite <- Zle_Qle; lia).
  assert (0 < inject_Z count) as Hcq
      by (change 0 with (inject_Z 0); now rewrite <- Zlt_Qlt).
  unfold eps in *.
  assert (h < 0) as Hh by lra.
  assert (Qeq_bool h 0 = false) as ->.
  { apply not_true_is_false. intros E. apply Qeq_bool_iff in E. lra. }
  unfold js_gt. apply Qlt_bool_false. apply Qle_not_lt.
  assert (inject_Z count / h <= 0) as Hx.
  { setoid_replace (inject_Z count / h) with (- (inject_Z count / - h)) using relation Qeq
      by (field; lra).
    assert (0 <= inject_Z count / - h) by (apply Qle_shift_div_l; lra). lra. }
  pose proof (DoubleFacts.round_nonpos _ Hx) as [_ Hr].
  change (inject_Z maxRequestsPerHour) with 4800. unfold eps in *. lra.
Qed.

(** The wait is the time left of the budget of 750 ms per call, up to
    the five roundings of its computation. *)
Lemma waitTimeOf_accuracy :
  (0 < count <= 2 ^ 32)%Z -> (- 2 ^ 48 <= elapsed <= 2 ^ 48)%Z ->
  inject_Z (budget - elapsed) - (1 # 16) <= waitTimeOf count start now0
  <= inject_Z (budget - elapsed) + (1 # 16).
Proof.
  intros [Hc1 Hc2] [Hd1 Hd2].
  assert (0 < inject_Z count) as Hcq
      by (change 0 with (inject_Z 0); now rewrite <- Zlt_Qlt).
  assert (inject_Z count <= 4294967296) as Hcq'
      by (change 4294967296 with (inject_Z (2 ^ 32)); now rewrite <- Zle_Qle).
  assert (-281474976710656 <= inject_Z elapsed) as Hdq
      by (change (-281474976710656) with (inject_Z (- 2 ^ 48)); now rewrite <- Zle_Qle).
  assert (inject_Z elapsed <= 281474976710656) as Hdq'
      by (change 281474976710656 with (inject_Z (2 ^ 48)); now rewrite <- Zle_Qle).
  assert (inject_Z (budget - elapsed) == 750 * inject_Z count - inject_Z elapsed) as ->.
  { unfold Zminus. rewrite inject_Z_plus, inject_Z_opp, inject_Z_mult. reflexivity. }
  unfold waitTimeOf, js_sub, js_mul. change (inject_Z maxRequestsPerHour) with 4800.
  change (inject_Z count / 4800) with (inject_Z count * (1 # 4800)).
  set (p1 := round (inject_Z count * (1 # 4800))).
  assert (inject_Z count * (1 # 4800) * (1 - eps) <= p1
          <= inject_Z count * (1 # 4800) * (1 + eps))
    as [H1 H1'] by (apply DoubleFacts.round_nonneg; lra).
  unfold eps in *.
  set (p2 := round (p1 * 60)).
  assert (p1 * 60 * (1 - eps) <= p2 <= p1 * 60 * (1 + eps)) as [H2 H2']
      by (apply DoubleFacts.round_nonneg; lra).
  unfold eps in *.
  set (p3 := round (p2 * 60)).
  assert (p2 * 60 * (1 - eps) <= p3 <= p2 * 60 * (1 + eps)) as [H3 H3']
      by (apply DoubleFacts.round_nonneg; lra).
  unfold eps in *.
  set (p4 := round (p3 * 1000)).
  assert (p3 * 1000 * (1 - eps) <= p4 <= p3 * 1000 * (1 + eps)) as [H4 H4']
      by (apply DoubleFacts.round_nonneg; lra).
  unfold eps in *.
  destruct (Qlt_le_dec (p4 - inject_Z elapsed) 0) as [Hneg | Hnn].
  - pose proof (DoubleFacts.round_nonpos (p4 - inject_Z elapsed) ltac:(lra)) as [H5 H5'].
    unfold eps in *. split; lra.
  - pose proof (DoubleFacts.round_nonneg (p4 - inject_Z elapsed) Hnn) as [H5 H5'].
    unfold eps in *. split; lra.
Qed.

End RateArithmetic.

Lemma rateLimitCheck_spec (env : Env) (w : World) :
  let count := requestCount (this w) + 1 in
  let start := startTime (this w) in
  let baseline := Sleep (inject_Z (baseDelayOf count)) in
  exists w',
    rateLimitCheck env w = (Ret tt, w') /\
    heap w' = heap w /\
    username (this w') = username (this w) /\
    requestCount (this w') = count /\
    startTime (this w') = start /\
    (tick w < tick w')%nat /\
    (rateExceeded count start (Date_now env (tick w)) = false ->
     tick w' = S (tick w) /\ Emitted w w' [baseline]) /\
    (rateExceeded count start (Date_now env (tick w)) = true ->
     let waitTime := waitTimeOf count start (Date_now env (S (tick w))) in
     ((0 < waitTime)%Q -> Emitted w w' [Sleep waitTime; baseline]) /\
     (~ (0 < waitTime)%Q -> Emitted w w' [baseline])).
Proof.
  intros count start baseline.
  unfold rateLimitCheck, bind, getThis, setThis, now, interact, sleep, emit, ret.
  cbn. fold count start.
  destruct (rateExceeded count start (Date_now env (tick w))) eqn:Hrate; cbn.
  - destruct (Qlt_bool 0 (waitTimeOf count start (Date_now env (S (tick w)))))
      eqn:Hwait; cbn.
    + apply Qlt_bool_true in Hwait.
      destruct (falsy (lastWaitLog (this w))
                || (5000 <=? Date_now env (S (S (tick w)))
                             - default 0 (lastWaitLog (this w)))); cbn;
        (eexists; split; [reflexivity |]; cbn; unfold Emitted; cbn;
         repeat split; try lia; try discriminate; intros;
         try contradiction; now rewrite <- app_assoc).
    + apply Qlt_bool_false in Hwait.
      eexists; split; [reflexivity |]; cbn; unfold Emitted; cbn.
      repeat split; try lia; try discriminate; intros; try contradiction;
        reflexivity.
  - eexists; split; [reflexivity |]; cbn; unfold Emitted; cbn.
    repeat split; try lia; discriminate.
Qed.

(** The throttle always returns and leaves the heap alone. *)
Lemma rateLimitCheck_total (env : Env) (w : World) :
  exists w', rateLimitCheck env w = (Ret tt, w') /\ heap w' = heap w.
Proof.
  destruct (rateLimitCheck_spec env w) as (w' & H & Hh & _). eauto.
Qed.

Lemma throttleTimes_below_ceiling (env : Env) (n : nat) (w : World) :
  (forall i, (i < n)%nat ->
     rateExceeded (requestCount (this w) + Z.of_nat i + 1) (startTime (this w))
                  (Date_now env (tick w + i)) = false) ->
  exists w',
    throttleTimes env n w = (Ret tt, w') /\
    Emitted w w'
      (map (fun i => Sleep (inject_Z
                       (baseDelayOf (requestCount (this w) + Z.of_nat i + 1))))
           (seq 0 n)).
Proof.
  revert w. induction n as [|n IH]; intros w Hbelow.
  - exists w. split; [reflexivity | apply Emitted_refl].
  - destruct (rateLimitCheck_spec env w)
      as (w1 & Hrun & _ & _ & Hcount & Hstart & _ & Hlow & _).
    destruct Hlow as [Htick Hem].
    { specialize (Hbelow 0%nat ltac:(lia)).
      now rewrite Z.add_0_r, Nat.add_0_r in Hbelow. }
    destruct (IH w1) as (w' & Hrun' & Hem').
    { intros i Hi. specialize (Hbelow (S i) ltac:(lia)).
      rewrite Hcount, Hstart, Htick.
      replace (S (tick w) + i)%nat with (tick w + S i)%nat by lia.
      rewrite <- Hbelow. f_equal. lia. }
    exists w'. split.
    + simpl. now rewrite (bind_Ret _ _ _ _ _ Hrun).
    + simpl. rewrite Z.add_0_r.
      change (?x :: ?l) with ([x] ++ l)%list.
      eapply Emitted_trans; [exact Hem |].
      rewrite <- seq_shift, map_map.
      erewrite map_ext; [exact Hem' |].
      intros i. simpl. rewrite Hcount. do 3 f_equal. lia.
Qed.

(** Calls made at times when fewer than one call per 750 ms has been
    made stay below the ceiling. *)
Lemma throttleTimes_paced (env : Env) (n : nat) (w : World) :
  0 <= requestCount (this w) ->
  (forall i, (i < n)%nat ->
     let elapsed := Date_now env (tick w + i) - startTime (this w) in
     elapsed < 0 \/
     750 * (requestCount (this w) + Z.of_nat i + 1) + 1 <= elapsed <= 2 ^ 48) ->
  forall i, (i < n)%nat ->
    rateExceeded (requestCount (this w) + Z.of_nat i + 1) (startTime (this w))
                 (Date_now env (tick w + i)) = false.
Proof.
  intros Hcount Hpaced i Hi. destruct (Hpaced i Hi) as [Hneg | Hover].
  - apply rateExceeded_backwards; lia.
  - apply rateExceeded_under; lia.
Qed.

(** C7. Every call of the throttle increments the call counter and
    returns.  If the sustained rate [count / elapsedHours], computed in
    doubles, exceeds the ceiling of 4800 per hour, the caller is
    suspended for [count / 4800] hours minus the time elapsed, computed
    in doubles from a second reading of the clock, when that is
    positive.  The rate exceeds the ceiling whenever more than one call
    per 750 ms has been made (also when no time has elapsed at all, the
    rate being [Infinity]), and the suspension is then the time left of
    750 ms per call, up to the rounding of its computation; the rate
    does not exceed it when the clock is at least 1 ms past 750 ms per
    call.  A baseline delay is applied on every call, 100 ms, or 150 ms
    once the counter exceeds 100; calling the throttle [n] times while
    the rate stays at or below the ceiling suspends for the baseline
    delays only.  In the sample call, the seventh, made at the instant
    of the start with the clock read again one second later, the
    suspension is [4250 + 2^-40] ms and then 100 ms; and with the clock
    at exactly 750 ms per call the rate of 79 calls comes out above the
    ceiling. *)
Theorem rateLimitCheck_throttles :
  (forall (env : Env) (w : World),
      let count := requestCount (this w) + 1 in
      let start := startTime (this w) in
      let baseline := Sleep (if 100 <? count then 150 else 100) in
      let elapsed1 := Date_now env (tick w) - start in
      let elapsed2 := Date_now env (S (tick w)) - start in
      let waitTime := waitTimeOf count start (Date_now env (S (tick w))) in
      exists w',
        rateLimitCheck env w = (Ret tt, w') /\
        requestCount (this w') = count /\
        (rateExceeded count start (Date_now env (tick w)) = false ->
         Emitted w w' [baseline]) /\
        (rateExceeded count start (Date_now env (tick w)) = true ->
         ((0 < waitTime)%Q -> Emitted w w' [Sleep waitTime; baseline]) /\
         (~ (0 < waitTime)%Q -> Emitted w w' [baseline])) /\
        (0 < count <= 2 ^ 32 ->
         0 <= elapsed1 <= 750 * count - 1 ->
         0 <= elapsed2 <= 750 * count - 1 ->
         Emitted w w' [Sleep waitTime; baseline] /\
         (inject_Z (750 * count - elapsed2) - (1 # 16) <= waitTime
          <= inject_Z (750 * count - elapsed2) + (1 # 16))%Q) /\
        (0 < count <= 2 ^ 32 ->
         750 * count + 1 <= elapsed2 <= 2 ^ 48 ->
         Emitted w w' [baseline]) /\
        (0 < count ->
         elapsed1 < 0 \/ 750 * count + 1 <= elapsed1 <= 2 ^ 48 ->
         Emitted w w' [baseline])) /\
  (forall (env : Env) (n : nat) (w : World),
      (forall i, (i < n)%nat ->
         rateExceeded (requestCount (this w) + Z.of_nat i + 1) (startTime (this w))
                      (Date_now env (tick w + i)) = false) ->
      exists w',
        throttleTimes env n w = (Ret tt, w') /\
        Emitted w w'
          (map (fun i => Sleep (if 100 <? requestCount (this w) + Z.of_nat i + 1
                                then 150 else 100))
               (seq 0 n))) /\
  (forall (env : Env) (n : nat) (w : World),
      0 <= requestCount (this w) ->
      (forall i, (i < n)%nat ->
         let elapsed := Date_now env (tick w + i) - startTime (this w) in
         elapsed < 0 \/
         750 * (requestCount (this w) + Z.of_nat i + 1) + 1 <= elapsed <= 2 ^ 48) ->
      exists w',
        throttleTimes env n w = (Ret tt, w') /\
        Emitted w w'
          (map (fun i => Sleep (if 100 <? requestCount (this w) + Z.of_nat i + 1
                                then 150 else 100))
               (seq 0 n))) /\
  (exists w',
      rateLimitCheck Example.env Sample.busyWorld = (Ret tt, w') /\
      Emitted Sample.busyWorld w'
        [Sleep (4250 + (1 # 1099511627776)); Sleep 100]) /\
  rateExceeded 79 0 (750 * 79) = true.
Proof.
  assert (forall (env : Env) (n : nat) (w : World),
      (forall i, (i < n)%nat ->
         rateExceeded (requestCount (this w) + Z.of_nat i + 1) (startTime (this w))
                      (Date_now env (tick w + i)) = false) ->
      exists w',
        throttleTimes env n w = (Ret tt, w') /\
        Emitted w w'
          (map (fun i => Sleep (if 100 <? requestCount (this w) + Z.of_nat i + 1
                                then 150 else 100))
               (seq 0 n))) as Hbelow.
  { intros env n w Hbelow.
    destruct (throttleTimes_below_ceiling env n w Hbelow) as (w' & Hrun & Hem).
    exists w'. split; [exact Hrun |].
    erewrite map_ext; [exact Hem |].
    intros i. simpl. unfold baseDelayOf.
    now destruct (100 <? requestCount (this w) + Z.of_nat i + 1). }
  split; [| split; [| split; [| split]]].
  - intros env w count start baseline elapsed1 elapsed2 waitTime.
    destruct (rateLimitCheck_spec env w)
      as (w' & Hrun & _ & _ & Hcount & _ & _ & Hlow & Hhigh).
    assert (Sleep (inject_Z (baseDelayOf count)) = baseline) as Hbase.
    { unfold baseline, baseDelayOf. now destruct (100 <? count). }
    fold count start in Hlow, Hhigh. rewrite Hbase in Hlow, Hhigh.
    fold waitTime in Hhigh.
    exists w'. split; [exact Hrun |]. split; [exact Hcount |].
    split; [intros H; now apply Hlow |].
    split; [exact Hhigh |].
    split; [| split].
    + intros Hc He1 He2.
      assert (inject_Z (750 * count - elapsed2) - (1 # 16) <= waitTime
              <= inject_Z (750 * count - elapsed2) + (1 # 16))%Q as Hacc
          by (apply waitTimeOf_accuracy; lia).
      split; [| exact Hacc].
      apply Hhigh; [apply rateExceeded_over; lia |].
      assert (1 <= inject_Z (750 * count - elapsed2))%Q
        by (change 1%Q with (inject_Z 1); rewrite <- Zle_Qle; lia).
      lra.
    + intros Hc He2.
      destruct (rateExceeded count start (Date_now env (tick w))) eqn:Hrate;
        [| now apply Hlow].
      apply Hhigh; [reflexivity |].
      assert (inject_Z (750 * count - elapsed2) - (1 # 16) <= waitTime
              <= inject_Z (750 * count - elapsed2) + (1 # 16))%Q as Hacc
          by (apply waitTimeOf_accuracy; lia).
      assert (inject_Z (750 * count - elapsed2) <= -1)%Q
        by (change (-1)%Q with (inject_Z (-1)); rewrite <- Zle_Qle; lia).
      lra.
    + intros Hc [Hneg | Hover]; apply Hlow.
      * now apply rateExceeded_backwards.
      * now apply rateExceeded_under.
  - exact Hbelow.
  - intros env n w Hcount Hpaced. apply Hbelow.
    now apply throttleTimes_paced.
  - eexists. split; vm_compute; reflexivity.
  - vm_compute. reflexivity.
Qed.

(** * The commit fetcher *)

Section CommitFetcher.

Variable env : Env.
Variables (owner repo : string) (since until : Date).

Local Abbreviation loop := (getCommitsForRepo_loop env).
Local Abbreviation fetch := (fetchPage env owner repo since until).
Local Abbreviation Step := (PageStep env owner repo since until).
Local Abbreviation loopAt := (getCommitsForRepo_at env owner repo since until).

(** A page fetch always answers, with what the endpoint said to a
    request for that page of 100. *)
Lemma fetchPage_spec (page : Z) (w : World) :
  exists n params w',
    fetch page w = (Ret (listCommits env n params), w') /\
    heap w' = heap w /\
    p_owner params = owner /\ p_repo params = repo /\
    p_per_page params = 100 /\ p_page params = page.
Proof.
  unfold fetchPage.
  destruct (rateLimitCheck_total env w) as (w1 & Hrun & Hheap).
  rewrite (bind_Ret _ _ _ _ _ Hrun).
  unfold bind, getThis, request_listCommits, emit, interact. simpl.
  eexists _, _, _. split; [reflexivity |]. simpl. auto.
Qed.

(** One iteration of the loop, in terms of the page fetch. *)
Lemma loop_unfold (fuel : nat) (commits : list Commit) (page total : Z) (w : World) :
  total < maxCommitsPerRepo ->
  loop (S fuel) owner repo since until commits page total w =
  match fetch page w with
  | (Ret (inr data), w') =>
      if Z.of_nat (length data) =? 0 then (Ret commits, w')
      else loop fuel owner repo since until (commits ++ data)%list (page + 1)
             (total + Z.of_nat (length data)) w'
  | (Ret (inl e), w') => (Throw e, w')
  | (Throw e, w') => (Throw e, w')
  | (Stuck, w') => (Stuck, w')
  end.
Proof.
  intros Hlt. apply Z.ltb_lt in Hlt. simpl. rewrite Hlt.
  unfold fetchPage.
  destruct (rateLimitCheck_total env w) as (w1 & Hrun & _).
  rewrite !(bind_Ret _ _ _ _ _ Hrun).
  unfold bind at 1 3. unfold getThis.
  unfold call_listCommits, bind at 1. unfold bind at 1.
  destruct (request_listCommits env _ w1) as [[[e|data]| |] w2];
    try reflexivity.
  simpl. now destruct (Z.of_nat (length data) =? 0).
Qed.

Lemma loop_stop (fuel : nat) (commits : list Commit) (page total : Z) (w : World) :
  maxCommitsPerRepo <= total ->
  loop fuel owner repo since until commits page total w = (Ret commits, w).
Proof.
  intros Hge. apply Z.ltb_ge in Hge. destruct fuel; simpl; now rewrite Hge.
Qed.

Lemma loop_step (fuel : nat) (st st' : Paging) :
  Step st st' -> loopAt (S fuel) st = loopAt fuel st'.
Proof.
  intros [st0 data w' Hlt Hfetch Hne]. unfold loopAt.
  rewrite loop_unfold by exact Hlt. rewrite Hfetch. simpl.
  destruct data as [|c data]; [contradiction |].
  replace (Z.of_nat (length (c :: data)) =? 0) with false; [reflexivity |].
  symmetry. apply Z.eqb_neq. simpl length. lia.
Qed.

Lemma step_grows (st st' : Paging) :
  Step st st' -> totalFetched st < maxCommitsPerRepo /\ totalFetched st < totalFetched st'.
Proof.
  intros [st0 data w' Hlt Hfetch Hne]. simpl. split; [exact Hlt |].
  destruct data; [contradiction | simpl length; lia].
Qed.

(** The fuel the loop starts with is never used up: after the steps that
    lead to [st] what remains still covers the distance to the cap. *)
Lemma loop_follows (fuel : nat) (st st' : Paging) :
  rtc Step st st' ->
  maxCommitsPerRepo <= Z.of_nat fuel + totalFetched st ->
  exists fuel',
    maxCommitsPerRepo <= Z.of_nat fuel' + totalFetched st' /\
    loopAt fuel st = loopAt fuel' st'.
Proof.
  intros Hrtc. revert fuel.
  induction Hrtc as [st | st mid st' Hstep Hrtc IH]; intros fuel Hfuel.
  - exists fuel. split; [exact Hfuel | reflexivity].
  - destruct (step_grows _ _ Hstep) as [Hlt Hgrow].
    destruct fuel as [|fuel]; [simpl in Hfuel; lia |].
    destruct (IH fuel) as (fuel' & Hfuel' & Heq); [lia |].
    exists fuel'. split; [exact Hfuel' |].
    rewrite <- Heq. now apply loop_step.
Qed.

(** How the loop ends, from any of its states. *)
Lemma loop_ends (fuel : nat) (st : Paging) :
  maxCommitsPerRepo <= Z.of_nat fuel + totalFetched st ->
  exists st',
    rtc Step st st' /\
    ((CapReached st' /\ loopAt fuel st = (Ret (collected st'), world st')) \/
     (exists w', EmptyPage env owner repo since until st' w' /\
                 loopAt fuel st = (Ret (collected st'), w')) \/
     (exists e w', PageFails env owner repo since until st' e w' /\
                   loopAt fuel st = (Throw e, w'))).
Proof.
  revert st. induction fuel as [|fuel IH]; intros st Hfuel.
  - exists st. split; [constructor |]. left. split.
    + unfold CapReached. simpl in Hfuel. lia.
    + apply loop_stop. simpl in Hfuel. lia.
  - destruct (Z.lt_ge_cases (totalFetched st) maxCommitsPerRepo) as [Hlt | Hge].
    + destruct (fetchPage_spec (nextPage st) (world st))
        as (n & params & w' & Hfetch & _).
      destruct (listCommits env n params) as [e | data] eqn:Hresp.
      * exists st. split; [constructor |]. right; right. exists e, w'.
        split; [split; assumption |].
        unfold loopAt. rewrite loop_unfold by exact Hlt. now rewrite Hfetch.
      * destruct data as [|c data].
        -- exists st. split; [constructor |]. right; left. exists w'.
           split; [split; assumption |].
           unfold loopAt. rewrite loop_unfold by exact Hlt. now rewrite Hfetch.
        -- set (st1 := {| collected := (collected st ++ c :: data)%list;
                          nextPage := nextPage st + 1;
                          totalFetched := totalFetched st
                                          + Z.of_nat (length (c :: data));
                          world := w' |}).
           assert (Step st st1) as Hstep
               by (apply page_step; [assumption | assumption | discriminate]).
           destruct (IH st1) as (st' & Hrtc & Hend).
           { unfold st1. simpl totalFetched. simpl length. lia. }
           exists st'. split; [eapply rtc_l; eassumption |].
           rewrite (loop_step _ _ _ Hstep). exact Hend.
    + exists st. split; [constructor |]. left. split; [exact Hge |].
      now apply loop_stop.
Qed.

Lemma step_same_heap (st st' : Paging) :
  rtc Step st st' -> heap (world st') = heap (world st).
Proof.
  induction 1 as [st | st mid st' Hstep Hrtc IH]; [reflexivity |].
  rewrite IH. destruct Hstep as [st0 data w' Hlt Hfetch Hne]. simpl.
  destruct (fetchPage_spec (nextPage st0) (world st0))
    as (n & params & w1 & Hfetch' & Hheap & _).
  congruence.
Qed.

(** [getCommitsForRepo] always returns: what was collected when the cap
    is reached or a page comes back empty, and the empty list when a
    page fetch fails. *)
Lemma getCommitsForRepo_ends (w : World) :
  exists st,
    Paged env owner repo since until w st /\
    ((CapReached st /\
      getCommitsForRepo env owner repo since until w = (Ret (collected st), world st)) \/
     (exists w', EmptyPage env owner repo since until st w' /\
                 getCommitsForRepo env owner repo since until w
                 = (Ret (collected st), w')) \/
     (exists e w', PageFails env owner repo since until st e w' /\
                   getCommitsForRepo env owner repo since until w = (Ret [], w'))).
Proof.
  destruct (loop_ends (Z.to_nat maxCommitsPerRepo) (pagingStart w))
    as (st & Hrtc & Hend);
    [unfold pagingStart, maxCommitsPerRepo; cbn [totalFetched]; lia |].
  exists st. split; [exact Hrtc |].
  unfold getCommitsForRepo. unfold getCommitsForRepo_at, pagingStart in Hend.
  cbn [collected nextPage totalFetched world] in Hend.
  destruct Hend as [[Hcap Hrun] | [(w' & Hempty & Hrun) | (e & w' & Hfail & Hrun)]].
  - left. split; [exact Hcap |]. now apply tryCatch_Ret.
  - right; left. exists w'. split; [exact Hempty |]. now apply tryCatch_Ret.
  - right; right. exists e, w'. split; [exact Hfail |].
    now rewrite (tryCatch_Throw _ _ _ _ _ Hrun).
Qed.

Lemma fetchPage_same_heap (page : Z) (w w' : World) (answer : Error + list Commit) :
  fetch page w = (Ret answer, w') -> heap w' = heap w.
Proof.
  intros H. destruct (fetchPage_spec page w) as (n & params & w1 & H1 & Hheap & _).
  congruence.
Qed.

Lemma getCommitsForRepo_total (w : World) :
  exists commits w',
    getCommitsForRepo env owner repo since until w = (Ret commits, w') /\
    heap w' = heap w.
Proof.
  destruct (getCommitsForRepo_ends w) as (st & Hrtc & Hend).
  pose proof (step_same_heap _ _ Hrtc) as Hheap. simpl in Hheap.
  destruct Hend as [[_ Hrun] | [(w' & [_ Hf] & Hrun) | (e & w' & [_ Hf] & Hrun)]].
  - eauto.
  - exists (collected st), w'. split; [exact Hrun |].
    rewrite (fetchPage_same_heap _ _ _ _ Hf). exact Hheap.
  - exists [], w'. split; [exact Hrun |].
    rewrite (fetchPage_same_heap _ _ _ _ Hf). exact Hheap.
Qed.

(** The state determines how the loop goes on, so the run is unique. *)
Lemma getCommitsForRepo_from (w : World) (st : Paging) :
  Paged env owner repo since until w st ->
  exists fuel,
    maxCommitsPerRepo <= Z.of_nat fuel + totalFetched st /\
    getCommitsForRepo env owner repo since until w
    = tryCatch (fun _ => loopAt fuel st) (fun _ => ret []) w.
Proof.
  intros Hrtc.
  destruct (loop_follows (Z.to_nat maxCommitsPerRepo) _ _ Hrtc)
    as (fuel & Hfuel & Heq);
    [unfold pagingStart, maxCommitsPerRepo; cbn [totalFetched]; lia |].
  exists fuel. split; [exact Hfuel |].
  unfold getCommitsForRepo, tryCatch.
  unfold getCommitsForRepo_at at 1 in Heq. unfold pagingStart in Heq.
  cbn [collected nextPage totalFetched world] in Heq.
  now rewrite Heq.
Qed.

End CommitFetcher.

Section PaginatedListing.

Variable env : Env.
Variables (owner repo : string) (since until : Date).
Variable all : list Commit.
Hypothesis Hpages : Paginates env owner repo all.

Local Abbreviation Step := (PageStep env owner repo since until).

Lemma fetchPage_paginates (page : Z) (w w' : World) (data : list Commit) :
  fetchPage env owner repo since until page w = (Ret (inr data), w') ->
  data = pageOf all 100 page.
Proof.
  intros Hfetch.
  destruct (fetchPage_spec env owner repo since until page w)
    as (n & params & w1 & Hfetch' & _ & Ho & Hr & Hpp & Hp).
  rewrite Hfetch in Hfetch'. injection Hfetch' as Hresp _.
  symmetry in Hresp. rewrite (Hpages n params data Ho Hr Hresp).
  now rewrite Hpp, Hp.
Qed.

Lemma paging_invariant (w : World) (st : Paging) :
  Paged env owner repo since until w st -> PagingInv all st.
Proof.
  unfold Paged. intros Hrtc.
  eapply (rtc_ind_r (fun st => PagingInv all st)); [| | exact Hrtc]; clear st Hrtc.
  - unfold PagingInv, pagingStart, maxCommitsPerRepo. simpl.
    repeat split; lia.
  - intros st0 st' _ Hstep IH.
    destruct IH as (Hcoll & Htot & Hpage & _ & Hfull).
    destruct Hstep as [st data w' Hlt Hfetch Hne].
    apply fetchPage_paginates in Hfetch. unfold pageOf in Hfetch.
    set (k := Z.to_nat (100 * (nextPage st - 1))) in *.
    change (Z.to_nat 100) with 100%nat in Hfetch.
    assert (k < length all)%nat as Hk.
    { destruct (Nat.lt_ge_cases k (length all)) as [?|Hge]; [assumption |].
      rewrite (drop_ge _ _ Hge), take_nil in Hfetch. contradiction. }
    assert (totalFetched st = 100 * (nextPage st - 1)) as Htot'
        by (destruct Hfull; [assumption | lia]).
    assert (length data <= 100)%nat as Hlen
        by (rewrite Hfetch, length_take; lia).
    unfold PagingInv, maxCommitsPerRepo in *. simpl.
    replace (Z.to_nat (100 * (nextPage st + 1 - 1))) with (k + 100)%nat by lia.
    repeat split.
    + rewrite Hcoll, Hfetch. apply take_take_drop.
    + rewrite length_app. lia.
    + lia.
    + lia.
    + destruct (Nat.eq_dec (length data) 100%nat) as [E|NE]; [left; lia | right].
      rewrite Hfetch, length_take, length_drop in NE. lia.
Qed.

Lemma paginated_cap (w : World) (st : Paging) :
  Paged env owner repo since until w st -> CapReached st ->
  collected st = take 5000 all.
Proof.
  intros Hp Hcap. destruct (paging_invariant _ _ Hp) as (Hcoll & Htot & Hpage & Hle & Hfull).
  unfold CapReached, maxCommitsPerRepo in *.
  assert (totalFetched st = 5000) as E by lia.
  destruct Hfull as [Hfull | Hshort].
  - rewrite Hcoll. f_equal. lia.
  - rewrite Hcoll, !take_ge; [reflexivity | |]; try lia.
    rewrite Hcoll, take_ge in Htot; lia.
Qed.

Lemma paginated_empty (w w' : World) (st : Paging) :
  Paged env owner repo since until w st ->
  EmptyPage env owner repo since until st w' ->
  collected st = take 5000 all.
Proof.
  intros Hp [Hlt Hfetch].
  destruct (paging_invariant _ _ Hp) as (Hcoll & Htot & Hpage & Hle & Hfull).
  apply fetchPage_paginates in Hfetch. unfold pageOf in Hfetch.
  symmetry in Hfetch. apply take_nil_inv in Hfetch as [Hz | Hdrop];
    [discriminate |].
  apply drop_nil_inv in Hdrop.
  rewrite Hcoll, take_ge in Htot by exact Hdrop.
  unfold maxCommitsPerRepo in *.
  rewrite Hcoll, !take_ge; [reflexivity | lia | exact Hdrop].
Qed.

End PaginatedListing.

(** Without any assumption on how the endpoint fills its pages, the
    cap is only tested between two pages: what is returned stays below
    the cap plus the size of one page. *)
Lemma getCommitsForRepo_below_cap_plus_page (env : Env) (owner repo : string)
    (since until : Date) (pageSize : nat) (w w' : World) (commits : list Commit) :
  (forall n params data,
      listCommits env n params = inr data -> (length data <= pageSize)%nat) ->
  getCommitsForRepo env owner repo since until w = (Ret commits, w') ->
  (length commits < 5000 + pageSize)%nat.
Proof.
  intros Hsize Hrun.
  assert (forall st, Paged env owner repo since until w st ->
                     totalFetched st = Z.of_nat (length (collected st)) /\
                     totalFetched st < 5000 + Z.of_nat pageSize) as Hinv.
  { intros st Hp. unfold Paged in Hp.
    eapply (rtc_ind_r (fun st => totalFetched st = Z.of_nat (length (collected st)) /\
                                 totalFetched st < 5000 + Z.of_nat pageSize));
      [| | exact Hp]; clear st Hp.
    - unfold pagingStart. cbn [totalFetched collected length]. lia.
    - intros st0 st' _ Hstep [Htot Hlt].
      destruct Hstep as [st data w1 Hcap Hfetch Hne]. simpl.
      destruct (fetchPage_spec env owner repo since until (nextPage st) (world st))
        as (n & params & w2 & Hfetch' & _).
      rewrite Hfetch in Hfetch'. injection Hfetch' as Hresp _. symmetry in Hresp.
      pose proof (Hsize n params data Hresp) as Hlen.
      unfold maxCommitsPerRepo in Hcap. rewrite length_app. lia. }
  destruct (getCommitsForRepo_ends env owner repo since until w)
    as (st & Hp & [[_ Hrun'] | [(w1 & _ & Hrun') | (e & w1 & _ & Hrun')]]);
    rewrite Hrun in Hrun'; injection Hrun' as -> _.
  - destruct (Hinv st Hp). lia.
  - destruct (Hinv st Hp). lia.
  - cbn [length]. lia.
Qed.



Lemma page_failure_discards (env : Env) (owner repo : string) (since until : Date)
    (w : World) (st : Paging) (e : Error) (w' : World) :
  Paged env owner repo since until w st ->
  PageFails env owner repo since until st e w' ->
  getCommitsForRepo env owner repo since until w = (Ret [], w').
Proof.
  intros Hp [Hlt Hfetch].
  destruct (getCommitsForRepo_from _ _ _ _ _ _ _ Hp) as (fuel & Hfuel & ->).
  destruct fuel as [|fuel]; [simpl in Hfuel; lia |].
  unfold tryCatch, getCommitsForRepo_at. rewrite loop_unfold by exact Hlt.
  now rewrite Hfetch.
Qed.

(** C1, as amended.  For every owner, repository and date range, when
    the fetch of some page fails after any number of pages that
    succeeded, [getCommitsForRepo] abandons the pagination there and
    returns the empty list: the commits of the earlier pages are
    dropped, and the error does not reach the caller. *)
Theorem getCommitsForRepo_page_failure_returns_nothing :
  forall (env : Env) (owner repo : string) (since until : Date)
         (w : World) (st : Paging) (e : Error) (w' : World),
    Paged env owner repo since until w st ->
    PageFails env owner repo since until st e w' ->
    getCommitsForRepo env owner repo since until w = (Ret [], w').
Proof. exact page_failure_discards. Qed.

(** C1, as stated, fails: with a first page of one commit and a second
    page whose fetch fails, the commit of the first page is not
    returned. *)
Lemma getCommitsForRepo_drops_collected_commits :
  ~ (forall (env : Env) (owner repo : string) (since until : Date)
            (w : World) (st : Paging) (e : Error) (w' : World),
        Paged env owner repo since until w st ->
        PageFails env owner repo since until st e w' ->
        fst (getCommitsForRepo env owner repo since until w)
        = Ret (collected st)).
Proof.
  intros Hstated.
  specialize (Hstated Example.envFailingPage "u" "a" Example.since Example.until
                Example.world1 Example.afterFirstPage Example.serverError
                Example.afterFailedPage).
  assert (fst (getCommitsForRepo Example.envFailingPage "u" "a" Example.since
                 Example.until Example.world1) = Ret []) as Hrun
      by (vm_compute; reflexivity).
  rewrite Hrun in Hstated.
  assert (collected Example.afterFirstPage = [ {| sha := "c-a" |} ]) as Hone
      by reflexivity.
  rewrite Hone in Hstated.
  assert (@Ret (list Commit) [] = Ret [ {| sha := "c-a" |} ] -> False) as Hne
      by discriminate.
  apply Hne, Hstated.
  - unfold Paged. eapply rtc_l; [| apply rtc_refl].
    apply (page_step Example.envFailingPage "u" "a" Example.since Example.until
             (pagingStart Example.world1) (Example.commitsOf "a")
             (world Example.afterFirstPage)).
    + reflexivity.
    + vm_compute. reflexivity.
    + discriminate.
  - split; [reflexivity | vm_compute; reflexivity].
Qed.

(** * The commit stat fetcher *)

Section StatFetcher.

Variable env : Env.
Variables (owner repo sha : string).

Local Abbreviation attempt1 := (attemptOnce env owner repo sha).
Local Abbreviation retryLoop := (getCommitStatsWithRetry_loop env).

Lemma attemptOnce_total (w : World) :
  exists answer w', attempt1 w = (Ret answer, w') /\ heap w' = heap w.
Proof.
  unfold attemptOnce.
  destruct (rateLimitCheck_total env w) as (w1 & Hrun & Hheap).
  rewrite (bind_Ret _ _ _ _ _ Hrun).
  unfold request_getCommit, bind, emit, interact. simpl.
  eexists _, _. split; [reflexivity | exact Hheap].
Qed.

Lemma backoff_run (attempt : Z) (w : World) :
  backoff attempt w = (Ret tt, suspended (inject_Z (attempt * 2 * 1000)) w).
Proof. reflexivity. Qed.

(** One iteration of the retry loop, in terms of the attempt. *)
Lemma retryLoop_unfold (fuel : nat) (maxRetries attempt : Z) (w : World) :
  attempt <= maxRetries ->
  retryLoop (S fuel) owner repo sha maxRetries attempt w =
  match attempt1 w with
  | (Ret (inr data), w') => (Ret (Some (statsOfResponse data)), w')
  | (Ret (inl error), w') =>
      if notFoundOrConflict error then (Ret (Some CommitStats.zero), w')
      else if attempt =? maxRetries then (Ret (Some CommitStats.zero), w')
      else retryLoop fuel owner repo sha maxRetries (attempt + 1)
                     (snd (backoff attempt w'))
  | (Throw e, w') => (Throw e, w')
  | (Stuck, w') => (Stuck, w')
  end.
Proof.
  intros Hle. apply Z.leb_le in Hle. simpl. rewrite Hle.
  destruct (attemptOnce_total w) as (answer & w1 & Hatt & _). rewrite Hatt.
  unfold attemptOnce in Hatt.
  destruct (rateLimitCheck_total env w) as (w0 & Hrun & _).
  rewrite (bind_Ret _ _ _ _ _ Hrun) in Hatt.
  unfold bind at 1. unfold tryCatch.
  rewrite (bind_Ret _ _ _ _ _ Hrun).
  unfold call_getCommit. unfold bind at 1. unfold bind at 1. rewrite Hatt.
  destruct answer as [error | data]; simpl.
  - unfold notFoundOrConflict. rewrite (orb_comm (isStatus error 404)).
    destruct (isStatus error 409 || isStatus error 404); [reflexivity |].
    destruct (attempt =? maxRetries); [reflexivity |].
    unfold bind, backoff, sleep, emit. simpl.
    replace (attempt * 2 * 1000) with (2000 * attempt) by lia. reflexivity.
  - reflexivity.
Qed.

(** The loop carries out the retry policy. *)
Lemma retryLoop_policy (n fuel : nat) (maxRetries attempt : Z) (w : World) :
  (1 <= n)%nat -> (n <= fuel)%nat ->
  Z.of_nat n = maxRetries - attempt + 1 ->
  retryLoop fuel owner repo sha maxRetries attempt w =
  match fetchStats_policy env n owner repo sha attempt w with
  | (Ret stats, w') => (Ret (Some stats), w')
  | (Throw e, w') => (Throw e, w')
  | (Stuck, w') => (Stuck, w')
  end.
Proof.
  revert fuel attempt w. induction n as [|n IH]; intros fuel attempt w Hn Hfuel Hleft;
    [lia |].
  destruct fuel as [|fuel]; [lia |].
  rewrite retryLoop_unfold by lia.
  simpl fetchStats_policy. unfold bind at 1.
  destruct (attemptOnce_total w) as (answer & w1 & Hatt & _). rewrite Hatt.
  destruct answer as [error | data]; [| reflexivity].
  destruct (notFoundOrConflict error); [reflexivity |].
  destruct n as [|n].
  - replace (attempt =? maxRetries) with true; [reflexivity |].
    symmetry. apply Z.eqb_eq. lia.
  - replace (attempt =? maxRetries) with false
      by (symmetry; apply Z.eqb_neq; lia).
    rewrite (bind_Ret _ _ _ _ _ (backoff_run attempt w1)), backoff_run.
    cbn [snd]. apply IH; lia.
Qed.

Lemma fetchStats_policy_total (n : nat) (attempt : Z) (w : World) :
  exists stats w',
    fetchStats_policy env n owner repo sha attempt w = (Ret stats, w') /\
    heap w' = heap w.
Proof.
  revert attempt w. induction n as [|n IH]; intros attempt w; simpl.
  - exists CommitStats.zero, w. split; reflexivity.
  - destruct (attemptOnce_total w) as (answer & w1 & Hatt & Hheap).
    rewrite (bind_Ret _ _ _ _ _ Hatt).
    destruct answer as [error | data]; [| eexists _, _; split; [reflexivity | assumption]].
    destruct (notFoundOrConflict error);
      [eexists _, _; split; [reflexivity | assumption] |].
    destruct n as [|n]; [eexists _, _; split; [reflexivity | assumption] |].
    rewrite (bind_Ret _ _ _ _ _ (backoff_run attempt w1)).
    destruct (IH (attempt + 1) (suspended (inject_Z (attempt * 2 * 1000)) w1))
      as (stats & w' & Hrun & Hheap').
    exists stats, w'. split; [exact Hrun |]. rewrite Hheap'. exact Hheap.
Qed.

(** With the default of three attempts the fetcher always returns stats. *)
Lemma getCommitStatsWithRetry_policy (w : World) :
  exists stats w',
    getCommitStatsWithRetry env owner repo sha defaultMaxRetries w
    = (Ret (Some stats), w') /\
    fetchStats_policy env 3 owner repo sha 1 w = (Ret stats, w') /\
    heap w' = heap w.
Proof.
  destruct (fetchStats_policy_total 3 1 w) as (stats & w' & Hpol & Hheap).
  exists stats, w'. split; [| split; assumption].
  unfold getCommitStatsWithRetry, defaultMaxRetries.
  rewrite (retryLoop_policy 3) by (simpl; lia). now rewrite Hpol.
Qed.

End StatFetcher.

Lemma statsOfResponse_truncated (data : CommitData) :
  CommitStats.truncated (statsOfResponse data)
  = (300 <=? Z.of_nat (length (default [] (files data))))
    || (50000 <? orZero (stats data ≫= Stats.total)).
Proof.
  unfold statsOfResponse. simpl. f_equal.
  destruct (stats data) as [s|]; simpl; [| reflexivity].
  destruct (Stats.total s); reflexivity.
Qed.

(** Whatever the policy returns carries a truncation flag computed from
    its own file list and total. *)
Lemma fetchStats_policy_truncated (env : Env) (owner repo sha : string)
    (n : nat) (attempt : Z) (w w' : World) (result : CommitStats.t) :
  fetchStats_policy env n owner repo sha attempt w = (Ret result, w') ->
  CommitStats.truncated result
  = (300 <=? Z.of_nat (length (CommitStats.files result)))
    || (50000 <? CommitStats.total result).
Proof.
  revert attempt w. induction n as [|n IH]; intros attempt w; simpl.
  - intros [= <- _]. reflexivity.
  - destruct (attemptOnce_total env owner repo sha w) as (answer & w1 & Hatt & _).
    rewrite (bind_Ret _ _ _ _ _ Hatt).
    destruct answer as [error | data].
    + destruct (notFoundOrConflict error); [intros [= <- _]; reflexivity |].
      destruct n as [|n]; [intros [= <- _]; reflexivity |].
      rewrite (bind_Ret _ _ _ _ _ (backoff_run attempt w1)). apply IH.
    + intros [= <- _]. rewrite statsOfResponse_truncated.
      unfold statsOfResponse. simpl. do 2 f_equal.
      destruct (stats data) as [s|]; reflexivity.
Qed.

(** The errors that end the retries at once are those with status 404
    or 409. *)
Lemma notFoundOrConflict_status (error : Error) :
  notFoundOrConflict error = true <->
  status error = Some 404 \/ status error = Some 409.
Proof.
  unfold notFoundOrConflict, isStatus. destruct (status error) as [s |]; simpl.
  - rewrite orb_true_iff, !Z.eqb_eq. split.
    + intros [-> | ->]; auto.
    + intros [[= ->] | [= ->]]; auto.
  - split; [discriminate | intros [H | H]; discriminate].
Qed.

Lemma notFoundOrConflict_other (error : Error) :
  status error <> Some 404 -> status error <> Some 409 ->
  notFoundOrConflict error = false.
Proof.
  intros H1 H2. apply not_true_is_false. rewrite notFoundOrConflict_status.
  tauto.
Qed.

(** C2. For every owner, repository and commit, [getCommitStatsWithRetry]
    with its three attempts returns stats and never raises.  It follows
    the retry policy: an answer with status 404 or 409 gives zero stats
    with [truncated = false] at once, with no further attempt; any other
    failure is followed by a suspension of [attempt * 2] seconds and a
    new attempt, up to three attempts; after the third failure the
    result is zero stats with [truncated = false]. *)
Theorem getCommitStatsWithRetry_never_raises :
  forall (env : Env) (owner repo sha : string) (w : World),
    exists stats w',
      getCommitStatsWithRetry env owner repo sha 3 w = (Ret (Some stats), w') /\
      fetchStats_policy env 3 owner repo sha 1 w = (Ret stats, w') /\
      (forall e1 w1,
          attemptOnce env owner repo sha w = (Ret (inl e1), w1) ->
          (status e1 = Some 404 \/ status e1 = Some 409 ->
           stats = CommitStats.zero /\ w' = w1) /\
          (status e1 <> Some 404 -> status e1 <> Some 409 ->
           forall e2 w2,
             attemptOnce env owner repo sha (suspended 2000 w1)
             = (Ret (inl e2), w2) ->
             (status e2 = Some 404 \/ status e2 = Some 409 ->
              stats = CommitStats.zero /\ w' = w2) /\
             (status e2 <> Some 404 -> status e2 <> Some 409 ->
              forall e3 w3,
                attemptOnce env owner repo sha (suspended 4000 w2)
                = (Ret (inl e3), w3) ->
                stats = CommitStats.zero /\ w' = w3))) /\
      CommitStats.zero
      = {| CommitStats.additions := 0; CommitStats.deletions := 0;
           CommitStats.total := 0; CommitStats.files := [];
           CommitStats.truncated := false |}.
Proof.
  intros env owner repo sha w.
  destruct (getCommitStatsWithRetry_policy env owner repo sha w)
    as (stats & w' & Hrun & Hpol & _).
  exists stats, w'. split; [exact Hrun |]. split; [exact Hpol |].
  split; [| reflexivity].
  intros e1 w1 Hatt1. simpl in Hpol.
  rewrite (bind_Ret _ _ _ _ _ Hatt1) in Hpol.
  split.
  { intros Hgone. apply notFoundOrConflict_status in Hgone. rewrite Hgone in Hpol.
    injection Hpol as <- <-. auto. }
  intros H404 H409. rewrite (notFoundOrConflict_other _ H404 H409) in Hpol.
  rewrite (bind_Ret _ _ _ _ _ (backoff_run 1 w1)) in Hpol.
  intros e2 w2 Hatt2.
  change (inject_Z (1 * 2 * 1000)) with 2000%Q in Hpol.
  rewrite (bind_Ret _ _ _ _ _ Hatt2) in Hpol.
  split.
  { intros Hgone. apply notFoundOrConflict_status in Hgone. rewrite Hgone in Hpol.
    injection Hpol as <- <-. auto. }
  clear H404 H409. intros H404 H409.
  rewrite (notFoundOrConflict_other _ H404 H409) in Hpol.
  rewrite (bind_Ret _ _ _ _ _ (backoff_run (1 + 1) w2)) in Hpol.
  intros e3 w3 Hatt3.
  change (inject_Z ((1 + 1) * 2 * 1000)) with 4000%Q in Hpol.
  rewrite (bind_Ret _ _ _ _ _ Hatt3) in Hpol.
  destruct (notFoundOrConflict e3); injection Hpol as <- <-; auto.
Qed.

(** The result of the fetcher when attempt 1, 2 or 3 is the first to be
    answered with success. *)
Lemma getCommitStatsWithRetry_answered (env : Env) (owner repo sha : string)
    (w : World) :
  (forall data w1,
      attemptOnce env owner repo sha w = (Ret (inr data), w1) ->
      getCommitStatsWithRetry env owner repo sha 3 w
      = (Ret (Some (statsOfResponse data)), w1)) /\
  (forall e1 w1 data w2,
      attemptOnce env owner repo sha w = (Ret (inl e1), w1) ->
      status e1 <> Some 404 -> status e1 <> Some 409 ->
      attemptOnce env owner repo sha (suspended 2000 w1) = (Ret (inr data), w2) ->
      getCommitStatsWithRetry env owner repo sha 3 w
      = (Ret (Some (statsOfResponse data)), w2)) /\
  (forall e1 w1 e2 w2 data w3,
      attemptOnce env owner repo sha w = (Ret (inl e1), w1) ->
      status e1 <> Some 404 -> status e1 <> Some 409 ->
      attemptOnce env owner repo sha (suspended 2000 w1) = (Ret (inl e2), w2) ->
      status e2 <> Some 404 -> status e2 <> Some 409 ->
      attemptOnce env owner repo sha (suspended 4000 w2) = (Ret (inr data), w3) ->
      getCommitStatsWithRetry env owner repo sha 3 w
      = (Ret (Some (statsOfResponse data)), w3)).
Proof.
  destruct (getCommitStatsWithRetry_policy env owner repo sha w)
    as (stats & w' & Hrun & Hpol & _).
  change defaultMaxRetries with 3 in Hrun. rewrite Hrun. simpl in Hpol.
  split; [| split].
  - intros data w1 Hatt1.
    rewrite (bind_Ret _ _ _ _ _ Hatt1) in Hpol. now injection Hpol as <- <-.
  - intros e1 w1 data w2 Hatt1 H404 H409 Hatt2.
    rewrite (bind_Ret _ _ _ _ _ Hatt1) in Hpol.
    rewrite (notFoundOrConflict_other _ H404 H409) in Hpol.
    rewrite (bind_Ret _ _ _ _ _ (backoff_run 1 w1)) in Hpol.
    change (inject_Z (1 * 2 * 1000)) with 2000%Q in Hpol.
    rewrite (bind_Ret _ _ _ _ _ Hatt2) in Hpol. now injection Hpol as <- <-.
  - intros e1 w1 e2 w2 data w3 Hatt1 H404 H409 Hatt2 H404' H409' Hatt3.
    rewrite (bind_Ret _ _ _ _ _ Hatt1) in Hpol.
    rewrite (notFoundOrConflict_other _ H404 H409) in Hpol.
    rewrite (bind_Ret _ _ _ _ _ (backoff_run 1 w1)) in Hpol.
    change (inject_Z (1 * 2 * 1000)) with 2000%Q in Hpol.
    rewrite (bind_Ret _ _ _ _ _ Hatt2) in Hpol.
    rewrite (notFoundOrConflict_other _ H404' H409') in Hpol.
    rewrite (bind_Ret _ _ _ _ _ (backoff_run (1 + 1) w2)) in Hpol.
    change (inject_Z ((1 + 1) * 2 * 1000)) with 4000%Q in Hpol.
    rewrite (bind_Ret _ _ _ _ _ Hatt3) in Hpol. now injection Hpol as <- <-.
Qed.

(** C3. For every successful answer of the get-commit endpoint, whether
    it answers the first attempt or a later one, what
    [getCommitStatsWithRetry] returns is built from this answer, and its
    truncation flag is [files.length >= 300 || total > 50000] of the
    answer (a missing file list is empty, a missing total compares
    false): an answer with 300 file records, or with a total of 60000
    changes, is flagged, and an answer with 10 file records and a total
    of 40 is not. *)
Theorem getCommitStatsWithRetry_truncated :
  (forall (env : Env) (owner repo sha : string) (w : World),
      (forall data w1,
          attemptOnce env owner repo sha w = (Ret (inr data), w1) ->
          getCommitStatsWithRetry env owner repo sha 3 w
          = (Ret (Some (statsOfResponse data)), w1)) /\
      (forall e1 w1 data w2,
          attemptOnce env owner repo sha w = (Ret (inl e1), w1) ->
          status e1 <> Some 404 -> status e1 <> Some 409 ->
          attemptOnce env owner repo sha (suspended 2000 w1) = (Ret (inr data), w2) ->
          getCommitStatsWithRetry env owner repo sha 3 w
          = (Ret (Some (statsOfResponse data)), w2)) /\
      (forall e1 w1 e2 w2 data w3,
          attemptOnce env owner repo sha w = (Ret (inl e1), w1) ->
          status e1 <> Some 404 -> status e1 <> Some 409 ->
          attemptOnce env owner repo sha (suspended 2000 w1) = (Ret (inl e2), w2) ->
          status e2 <> Some 404 -> status e2 <> Some 409 ->
          attemptOnce env owner repo sha (suspended 4000 w2) = (Ret (inr data), w3) ->
          getCommitStatsWithRetry env owner repo sha 3 w
          = (Ret (Some (statsOfResponse data)), w3))) /\
  (forall data : CommitData,
      CommitStats.files (statsOfResponse data) = default [] (files data) /\
      CommitStats.total (statsOfResponse data) = orZero (stats data ≫= Stats.total) /\
      CommitStats.truncated (statsOfResponse data)
      = (300 <=? Z.of_nat (length (default [] (files data))))
        || (50000 <? orZero (stats data ≫= Stats.total))) /\
  (forall (env : Env) (owner repo sha : string) (w : World),
      exists result w',
        getCommitStatsWithRetry env owner repo sha 3 w = (Ret (Some result), w') /\
        CommitStats.truncated result
        = (300 <=? Z.of_nat (length (CommitStats.files result)))
          || (50000 <? CommitStats.total result)) /\
  (forall total : Z,
      CommitStats.truncated
        (statsOfResponse
           (Example.commitData total (replicate 300 (Example.file "src/a.js" 1 0))))
      = true) /\
  (forall files : list (option File.t),
      CommitStats.truncated (statsOfResponse (Example.commitData 60000 files))
      = true) /\
  CommitStats.truncated
    (statsOfResponse
       (Example.commitData 40 (replicate 10 (Example.file "src/a.js" 4 0))))
  = false.
Proof.
  split; [| split; [| split; [| split; [| split]]]].
  - intros env owner repo sha w. apply getCommitStatsWithRetry_answered.
  - intros data. split; [reflexivity |]. split.
    + unfold statsOfResponse. simpl.
      destruct (stats data) as [s|]; reflexivity.
    + apply statsOfResponse_truncated.
  - intros env owner repo sha w.
    destruct (getCommitStatsWithRetry_policy env owner repo sha w)
      as (result & w' & Hrun & Hpol & _).
    exists result, w'. split; [exact Hrun |].
    eapply fetchStats_policy_truncated. exact Hpol.
  - intros total. rewrite statsOfResponse_truncated. reflexivity.
  - intros files. rewrite statsOfResponse_truncated. simpl.
    apply orb_true_r.
  - reflexivity.
Qed.

(** * The repository processor *)

Lemma Total_Safe {A} (m : M A) : Total m -> Safe m.
Proof.
  intros H w. destruct (H w) as (a & w' & Hrun & Hheap).
  exists (Ret a), w'. repeat split; [assumption | discriminate | assumption].
Qed.

Lemma Safe_ret {A} (a : A) : Safe (ret a).
Proof. intros w. exists (Ret a), w. repeat split. discriminate. Qed.

Lemma Total_ret {A} (a : A) : Total (ret a).
Proof. intros w. exists a, w. split; reflexivity. Qed.

Lemma Safe_throw {A} (e : Error) : Safe (@throw A e).
Proof. intros w. exists (Throw e), w. repeat split. discriminate. Qed.

Lemma Safe_bind {A B} (m : M A) (k : A -> M B) :
  Safe m -> (forall a, Safe (k a)) -> Safe (bind m k).
Proof.
  intros Hm Hk w. destruct (Hm w) as (o & w1 & Hrun & Hns & Hheap).
  unfold bind. rewrite Hrun. destruct o as [a | e |].
  - destruct (Hk a w1) as (o' & w' & Hrun' & Hns' & Hheap').
    exists o', w'. repeat split; [assumption | assumption | congruence].
  - exists (Throw e), w1. repeat split; [discriminate | assumption].
  - contradiction.
Qed.

Lemma Total_bind {A B} (m : M A) (k : A -> M B) :
  Total m -> (forall a, Total (k a)) -> Total (bind m k).
Proof.
  intros Hm Hk w. destruct (Hm w) as (a & w1 & Hrun & Hheap).
  destruct (Hk a w1) as (b & w' & Hrun' & Hheap').
  exists b, w'. split; [| congruence]. now rewrite (bind_Ret _ _ _ _ _ Hrun).
Qed.

Lemma Total_tryCatch {A} (m : M A) (h : Error -> M A) :
  Safe m -> (forall e, Total (h e)) -> Total (tryCatch m h).
Proof.
  intros Hm Hh w. destruct (Hm w) as (o & w1 & Hrun & Hns & Hheap).
  unfold tryCatch. rewrite Hrun. destruct o as [a | e |].
  - exists a, w1. split; [reflexivity | assumption].
  - destruct (Hh e w1) as (a & w' & Hrun' & Hheap').
    exists a, w'. split; [assumption | congruence].
  - contradiction.
Qed.

Lemma Total_getThis : Total getThis.
Proof. intros w. exists (this w), w. split; reflexivity. Qed.

Lemma Total_rateLimitCheck (env : Env) : Total (rateLimitCheck env).
Proof.
  intros w. destruct (rateLimitCheck_total env w) as (w' & Hrun & Hheap).
  exists tt, w'. split; assumption.
Qed.

Lemma Total_now (env : Env) : Total (now env).
Proof. intros w. eexists _, _. split; reflexivity. Qed.

Lemma Total_getCommitsForRepo (env : Env) (owner repo : string) (since until : Date) :
  Total (getCommitsForRepo env owner repo since until).
Proof. intros w. apply getCommitsForRepo_total. Qed.

Lemma Total_getCommitStatsWithRetry (env : Env) (owner repo sha : string) :
  forall w, exists stats w',
    getCommitStatsWithRetry env owner repo sha defaultMaxRetries w
    = (Ret (Some stats), w') /\ heap w' = heap w.
Proof.
  intros w.
  destruct (getCommitStatsWithRetry_policy env owner repo sha w)
    as (stats & w' & Hrun & _ & Hheap).
  eauto.
Qed.

Lemma Safe_ownerLogin (repo : Repository) : Safe (ownerLogin repo).
Proof.
  unfold ownerLogin. destruct (owner repo); [apply Safe_ret | apply Safe_throw].
Qed.

Lemma Safe_sumIncludedFiles (files : list (option File.t)) (a d : Z) :
  Safe (sumIncludedFiles files a d).
Proof.
  revert a d. induction files as [|[file|] files IH]; intros a d; simpl.
  - apply Safe_ret.
  - destruct (shouldIncludeFile (File.filename file)); apply IH.
  - apply Safe_throw.
Qed.

Lemma Safe_filteredStats (stats : CommitStats.t) : Safe (filteredStats stats).
Proof.
  unfold filteredStats.
  destruct (0 <? Z.of_nat (length (CommitStats.files stats)));
    [apply Safe_sumIncludedFiles |].
  destruct (0 <? CommitStats.total stats); apply Safe_ret.
Qed.

Lemma Safe_processCommits (env : Env) (repo : Repository) (commits : list Commit)
    (sums : Sums) :
  Safe (processCommits env repo commits sums).
Proof.
  revert sums. induction commits as [|commit rest IH]; intros sums; simpl.
  - apply Safe_ret.
  - apply Safe_bind; [apply Safe_ownerLogin |]. intros login0 w.
    destruct (Total_getCommitStatsWithRetry env login0 (name repo) (sha commit) w)
      as (stats & w1 & Hrun & Hheap).
    rewrite (bind_Ret _ _ _ _ _ Hrun).
    match goal with
    | |- context [bind (filteredStats stats) ?k w1] =>
        destruct (Safe_bind (filteredStats stats) k (Safe_filteredStats stats)
                    (fun filtered => IH _) w1) as (o & w' & Hrun' & Hns & Hheap')
    end.
    exists o, w'. repeat split; [exact Hrun' | exact Hns | congruence].
Qed.

Lemma Safe_processRepository_body (env : Env) (repo : Repository) (since until : Date) :
  Safe (processRepository_body env repo since until).
Proof.
  unfold processRepository_body.
  apply Safe_bind; [apply Safe_ownerLogin |]. intros login0.
  apply Safe_bind; [apply Total_Safe, Total_getCommitsForRepo |]. intros commits.
  destruct (Z.of_nat (length commits) =? 0); [apply Safe_ret |].
  apply Safe_bind; [apply Safe_processCommits |]. intros sums. apply Safe_ret.
Qed.

(** [processRepository] always returns a result. *)
Lemma Total_processRepository (env : Env) (repo : Repository) (since until : Date) :
  Total (processRepository env repo since until).
Proof.
  apply Total_tryCatch; [apply Safe_processRepository_body |].
  intros e. apply Total_ret.
Qed.

(** A result that reports success comes from a body that returned it. *)
Lemma processRepository_cases (env : Env) (repo : Repository) (since until : Date)
    (w : World) :
  (exists result w',
      processRepository_body env repo since until w = (Ret result, w') /\
      processRepository env repo since until w = (Ret result, w') /\
      heap w' = heap w) \/
  (exists e w',
      processRepository_body env repo since until w = (Throw e, w') /\
      processRepository env repo since until w = (Ret (failure e), w') /\
      heap w' = heap w).
Proof.
  destruct (Safe_processRepository_body env repo since until w)
    as (o & w' & Hrun & Hns & Hheap).
  unfold processRepository, tryCatch. rewrite Hrun.
  destruct o as [result | e |]; [left | right | contradiction]; eauto.
Qed.

(** * The run orchestrator *)

Lemma withCell_id (w : World) (l : ref) (r : Results) :
  heap w !! l = Some r -> withCell w l r = w.
Proof.
  intros H. unfold withCell. rewrite (list_insert_id _ _ _ H). now destruct w.
Qed.

Lemma load_run (w : World) (l : ref) (r : Results) :
  heap w !! l = Some r -> load l w = (Ret r, w).
Proof. unfold load. now intros ->. Qed.

Lemma store_run (w : World) (l : ref) (r r' : Results) :
  heap w !! l = Some r -> store l r' w = (Ret tt, withCell w l r').
Proof. unfold store. now intros ->. Qed.

Lemma withCell_lookup (w : World) (l : ref) (r r' : Results) :
  heap w !! l = Some r -> heap (withCell w l r') !! l = Some r'.
Proof.
  intros H. simpl. apply list_lookup_insert_eq. eapply lookup_lt_Some, H.
Qed.

Lemma withCell_withCell (w : World) (l : ref) (r r' : Results) :
  withCell (withCell w l r) l r' = withCell w l r'.
Proof. unfold withCell. simpl. now rewrite list_insert_insert_eq. Qed.

Section Orchestrator.

Variable env : Env.
Variables (since until : Date).

(** One iteration of the loop over the repositories. *)
Lemma processOne_run (results : ref) (repo : Repository) (r : Results) (w : World) :
  heap w !! results = Some r ->
  exists result w1,
    processRepository env repo since until w = (Ret result, w1) /\
    heap w1 = heap w /\
    processOne env results repo since until w
    = (Ret tt, withCell w1 results (record r (repo, result))).
Proof.
  intros Hcell.
  destruct (Total_processRepository env repo since until w)
    as (result & w1 & Hrun & Hheap).
  exists result, w1. split; [exact Hrun |]. split; [exact Hheap |].
  assert (heap w1 !! results = Some r) as Hcell1 by congruence.
  unfold processOne. rewrite (bind_Ret _ _ _ _ _ Hrun).
  rewrite (bind_Ret _ _ _ _ _ (load_run _ _ _ Hcell1)).
  unfold record. simpl.
  destruct (RepoResult.success result); apply (store_run _ _ _ _ Hcell1).
Qed.

(** The loop returns, and folds one outcome per repository, in order,
    into the result object. *)
Lemma processAll_run (results : ref) (repos : list Repository) (r : Results)
    (w : World) :
  heap w !! results = Some r ->
  exists outcomes w1,
    map fst outcomes = repos /\
    heap w1 = heap w /\
    processAll env results repos since until w
    = (Ret tt, withCell w1 results (fold_left record outcomes r)).
Proof.
  revert r w. induction repos as [|repo rest IH]; intros r w Hcell.
  - exists [], w. repeat split. simpl. now rewrite (withCell_id _ _ _ Hcell).
  - destruct (processOne_run results repo r w Hcell)
      as (result & w1 & Hrun & Hheap & Hone).
    assert (heap w1 !! results = Some r) as Hcell1 by congruence.
    destruct (IH (record r (repo, result)) (withCell w1 results (record r (repo, result))))
      as (outcomes & w2 & Hfst & Hheap2 & Hall).
    { eapply withCell_lookup, Hcell1. }
    exists ((repo, result) :: outcomes),
           (withCell w2 results r).
    split; [simpl; now rewrite Hfst |]. split.
    + simpl. rewrite Hheap2. simpl. rewrite list_insert_insert_eq.
      rewrite (list_insert_id _ _ _ Hcell1). exact Hheap.
    + simpl processAll. rewrite (bind_Ret _ _ _ _ _ Hone), Hall.
      now rewrite withCell_withCell.
Qed.

End Orchestrator.

Section Resolver.

Variable env : Env.

Lemma request_listForAuthenticatedUser_total (per_page page : Z) :
  Total (request_listForAuthenticatedUser env per_page page).
Proof.
  intros w. unfold request_listForAuthenticatedUser, bind, emit, interact. simpl.
  eexists _, _. split; reflexivity.
Qed.

(** The page counter bounds the [while (true)] loop: the fuel is never
    used up. *)
Lemma Total_getAllRepositories_loop (fuel : nat) (repos : list Repository) (page : Z) :
  page <= 1000 -> 1001 <= Z.of_nat fuel + page ->
  Total (getAllRepositories_loop env fuel repos page).
Proof.
  revert repos page. induction fuel as [|fuel IH]; intros repos page Hpage Hfuel;
    [simpl in Hfuel; lia |].
  simpl. apply Total_bind; [apply Total_rateLimitCheck |]. intros _ w.
  destruct (request_listForAuthenticatedUser_total 100 page w)
    as (answer & w1 & Hreq & Hheap).
  unfold bind at 1. unfold tryCatch, call_listForAuthenticatedUser.
  unfold bind at 1. rewrite (bind_Ret _ _ _ _ _ Hreq).
  destruct answer as [e | data]; simpl.
  - exists repos, w1. split; [reflexivity | assumption].
  - destruct (Z.of_nat (length data) =? 0); simpl.
    + exists repos, w1. split; [reflexivity | assumption].
    + destruct (1000 <? page + 1) eqn:Hcap; simpl.
      * eexists _, w1. split; [reflexivity | assumption].
      * apply Z.ltb_ge in Hcap.
        destruct (IH (repos ++ data)%list (page + 1) Hcap ltac:(lia) w1)
          as (all & w' & Hrun & Hheap').
        exists all, w'. split; [exact Hrun | congruence].
Qed.

Lemma Total_getAllRepositories : Total (getAllRepositories env).
Proof. apply Total_getAllRepositories_loop; simpl; lia. Qed.

Lemma Safe_selectRepositories (targetRepo : option string) :
  Safe (selectRepositories env targetRepo).
Proof.
  unfold selectRepositories. destruct (truthy targetRepo) as [target|].
  - apply Safe_bind.
    + unfold getRepositoryByName. apply Total_Safe.
      apply Total_bind; [apply Total_getAllRepositories |]. intros repos.
      apply Total_bind; [apply Total_getThis |]. intros c. apply Total_ret.
    + intros [repo|]; [apply Safe_ret | apply Safe_throw].
  - apply Total_Safe. apply Total_bind; [apply Total_getAllRepositories |].
    intros repos. apply Total_ret.
Qed.

(** The run past the line that logs the date range. *)
Lemma calculateLOCForYear_valid (targetRepo : option string) (w : World) :
  validYear (year (this w)) = true ->
  calculateLOCForYear env targetRepo w
  = (selected <- selectRepositories env targetRepo ;;
     processedAt <- now env ;;
     results <- alloc (initialResults processedAt (snd selected)) ;;
     processAll env results (fst selected)
       (StartOfYear (year (this w))) (EndOfYear (year (this w))) ;;;
     r <- load results ;;
     c <- getThis ;;
     store results (finish (requestCount c) r) ;;;
     ret results) w.
Proof.
  intros Hyear. unfold calculateLOCForYear, startOfYear, endOfYear.
  unfold bind at 1. unfold getThis at 1. rewrite Hyear. reflexivity.
Qed.

(** With a year that does not give a date, the run raises at once. *)
Lemma calculateLOCForYear_invalid (targetRepo : option string) (w : World) :
  validYear (year (this w)) = false ->
  calculateLOCForYear env targetRepo w
  = (Throw (RangeError "Invalid time value"), w).
Proof.
  intros Hyear. unfold calculateLOCForYear, startOfYear, endOfYear.
  unfold bind at 1. unfold getThis at 1. rewrite Hyear. reflexivity.
Qed.

(** What a run that has selected its repositories returns: a fresh
    result object, into which one outcome per repository was folded. *)
Lemma calculateLOCForYear_run (targetRepo : option string) (w w1 : World)
    (repos : list Repository) (mode : AnalysisMode) :
  validYear (year (this w)) = true ->
  selectRepositories env targetRepo w = (Ret (repos, mode), w1) ->
  exists outcomes w',
    map fst outcomes = repos /\
    calculateLOCForYear env targetRepo w = (Ret (length (heap w)), w') /\
    heap w' = (heap w ++
               [finish (requestCount (this w'))
                  (fold_left record outcomes
                     (initialResults (Date_now env (tick w1)) mode))])%list.
Proof.
  intros Hyear Hsel.
  destruct (Safe_selectRepositories targetRepo w) as (o & w1' & Hsel' & _ & Hheap1).
  rewrite Hsel in Hsel'. injection Hsel' as <- <-.
  set (r0 := initialResults (Date_now env (tick w1)) mode).
  set (l := length (heap w1)).
  set (w2 := {| this := this w1; heap := (heap w1 ++ [r0])%list;
                tick := S (tick w1); trace := trace w1 |}).
  assert (heap w2 !! l = Some r0) as Hcell
      by (apply list_lookup_middle; reflexivity).
  destruct (processAll_run env (StartOfYear (year (this w))) (EndOfYear (year (this w)))
              l repos r0 w2 Hcell) as (outcomes & w3 & Hfst & Hheap3 & Hall).
  set (r3 := fold_left record outcomes r0) in *.
  assert (heap w3 !! l = Some r0) as Hcell3 by congruence.
  exists outcomes, (withCell w3 l (finish (requestCount (this w3)) r3)).
  split; [exact Hfst |]. split.
  - replace (length (heap w)) with l by (unfold l; now rewrite Hheap1).
    rewrite calculateLOCForYear_valid by exact Hyear.
    rewrite (bind_Ret _ _ _ _ _ Hsel). cbn [fst snd].
    unfold bind at 1. unfold now, interact at 1.
    unfold bind at 1. unfold alloc at 1. cbn [heap this tick trace].
    fold r0 l w2.
    rewrite (bind_Ret _ _ _ _ _ Hall).
    pose proof (withCell_lookup w3 l r0 r3 Hcell3) as Hcell4.
    rewrite (bind_Ret _ _ _ _ _ (load_run _ l r3 Hcell4)).
    unfold bind at 1. unfold getThis at 1.
    rewrite (bind_Ret _ _ _ _ _ (store_run _ l r3 _ Hcell4)).
    unfold ret. now rewrite withCell_withCell.
  - cbn [heap withCell]. rewrite Hheap3. unfold w2. cbn [heap].
    rewrite <- Hheap1. fold l.
    replace l with (length (heap w1) + 0)%nat by (unfold l; lia).
    now rewrite insert_app_r.
Qed.

Lemma calculateLOCForYear_inv (targetRepo : option string) (w w' : World)
    (results : ref) :
  calculateLOCForYear env targetRepo w = (Ret results, w') ->
  validYear (year (this w)) = true /\
  exists repos mode w1,
    selectRepositories env targetRepo w = (Ret (repos, mode), w1).
Proof.
  intros Hrun.
  destruct (validYear (year (this w))) eqn:Hyear;
    [| rewrite calculateLOCForYear_invalid in Hrun by exact Hyear; discriminate].
  split; [reflexivity |].
  destruct (selectRepositories env targetRepo w) as [[[repos mode] | e |] w1] eqn:Hsel.
  - eauto.
  - rewrite calculateLOCForYear_valid in Hrun by exact Hyear.
    rewrite (bind_Throw _ _ _ _ _ Hsel) in Hrun. discriminate.
  - destruct (Safe_selectRepositories targetRepo w) as (o & w2 & Hsel' & Hns & _).
    rewrite Hsel in Hsel'. injection Hsel' as <- _. contradiction.
Qed.

End Resolver.

(** * The result object *)

Section Folding.

Implicit Types (r : Results) (outcomes : list (Repository * RepoResult.t)).

Lemma fold_record_app outcomes r (o : Repository * RepoResult.t) :
  fold_left record (outcomes ++ [o])%list r = record (fold_left record outcomes r) o.
Proof. now rewrite fold_left_app. Qed.

Lemma succeeded_app outcomes (o : Repository * RepoResult.t) :
  succeeded (outcomes ++ [o])%list
  = (succeeded outcomes ++ if RepoResult.success (snd o) then [o] else [])%list.
Proof. unfold succeeded. rewrite List.filter_app. reflexivity. Qed.

Lemma failedOnes_app outcomes (o : Repository * RepoResult.t) :
  failedOnes (outcomes ++ [o])%list
  = (failedOnes outcomes ++ if RepoResult.success (snd o) then [] else [o])%list.
Proof.
  unfold failedOnes. rewrite List.filter_app. simpl.
  now destruct (RepoResult.success (snd o)).
Qed.

Lemma sumZ_app (l1 l2 : list Z) : sumZ (l1 ++ l2)%list = sumZ l1 + sumZ l2.
Proof. unfold sumZ. induction l1 as [|x l1 IH]; simpl; [reflexivity | lia]. Qed.

(** What the loop has accumulated after any number of repositories. *)
Lemma fold_record_spec outcomes r :
  let r' := fold_left record outcomes r in
  let ok := succeeded outcomes in
  let ko := failedOnes outcomes in
  entryNames r' = (entryNames r ++ namesOf ok)%list /\
  failedRepos (processingStatus r')
  = (failedRepos (processingStatus r) ++ namesOf ko)%list /\
  successful (processingStatus r')
  = successful (processingStatus r) + Z.of_nat (length ok) /\
  failed (processingStatus r') = failed (processingStatus r) + Z.of_nat (length ko) /\
  totalAdditions r'
  = totalAdditions r
    + sumZ (map (fun o => RepoStats.additions (RepoResult.stats (snd o))) ok) /\
  totalDeletions r'
  = totalDeletions r
    + sumZ (map (fun o => RepoStats.deletions (RepoResult.stats (snd o))) ok) /\
  totalCommits r'
  = totalCommits r
    + sumZ (map (fun o => RepoStats.commits (RepoResult.stats (snd o))) ok) /\
  fileTypeStats r' = fileTypeStats r /\
  analysisMode r' = analysisMode r.
Proof.
  induction outcomes as [|o outcomes IH] using rev_ind.
  - simpl. unfold namesOf. simpl. rewrite !app_nil_r. repeat split; lia.
  - simpl. rewrite fold_record_app, succeeded_app, failedOnes_app.
    destruct IH as (Hn & Hf & Hs & Hk & Ha & Hd & Hc & Ht & Hm).
    unfold record, namesOf, entryNames in *.
    destruct (RepoResult.success (snd o)); simpl;
      rewrite ?map_app, ?length_app, ?sumZ_app, ?app_nil_r, ?Hn, ?Hf, ?Hs, ?Hk,
        ?Ha, ?Hd, ?Hc, ?Ht, ?Hm, <- ?app_assoc; simpl;
      repeat split; try reflexivity; unfold sumZ; simpl; lia.
Qed.

Lemma partition_length outcomes :
  (length (succeeded outcomes) + length (failedOnes outcomes) = length outcomes)%nat.
Proof.
  unfold succeeded, failedOnes.
  induction outcomes as [|o outcomes IH]; simpl; [reflexivity |].
  destruct (RepoResult.success (snd o)); simpl; lia.
Qed.

Lemma namesOf_In outcomes (keep : Repository * RepoResult.t -> bool) (n : string) :
  In n (namesOf (List.filter keep outcomes)) ->
  exists o, In o outcomes /\ keep o = true /\ full_name (fst o) = n.
Proof.
  unfold namesOf. rewrite in_map_iff. intros (o & Hn & Hin).
  apply filter_In in Hin as [Hin Hk]. eauto.
Qed.

(** With distinct full names, no name is on both sides. *)
Lemma partition_disjoint outcomes (n : string) :
  List.NoDup (namesOf outcomes) ->
  In n (namesOf (succeeded outcomes)) -> In n (namesOf (failedOnes outcomes)) -> False.
Proof.
  induction outcomes as [|o outcomes IH]; simpl; [intros _ [] |].
  intros Hnd Hok Hko. inversion Hnd as [|n0 l Hnotin Hnd']; subst.
  unfold succeeded, failedOnes in *. simpl in Hok, Hko.
  destruct (RepoResult.success (snd o)); simpl in Hok, Hko.
  - destruct Hok as [<- | Hok]; [| now apply IH].
    apply namesOf_In in Hko as (o' & Hin & _ & Hn).
    apply Hnotin. unfold namesOf. apply in_map_iff. eauto.
  - destruct Hko as [<- | Hko]; [| now apply IH].
    apply namesOf_In in Hok as (o' & Hin & _ & Hn).
    apply Hnotin. unfold namesOf. apply in_map_iff. eauto.
Qed.

(** Every repository is on one of the two sides. *)
Lemma partition_covers outcomes (repo : Repository) :
  In repo (map fst outcomes) ->
  In (full_name repo) (namesOf (succeeded outcomes)) \/
  In (full_name repo) (namesOf (failedOnes outcomes)).
Proof.
  rewrite in_map_iff. intros (o & <- & Hin).
  unfold namesOf, succeeded, failedOnes.
  destruct (RepoResult.success (snd o)) eqn:E; [left | right];
    apply in_map_iff; exists o; (split; [reflexivity |]);
    apply filter_In; split; auto.
  now rewrite E.
Qed.

(** Counted with their multiplicity, the names on the two sides are the
    names of the outcomes. *)
Lemma partition_perm outcomes :
  Permutation (namesOf (succeeded outcomes) ++ namesOf (failedOnes outcomes))%list
              (namesOf outcomes).
Proof.
  unfold namesOf, succeeded, failedOnes.
  induction outcomes as [|o outcomes IH]; simpl; [constructor |].
  destruct (RepoResult.success (snd o)); simpl.
  - now constructor.
  - rewrite <- Permutation_middle. now constructor.
Qed.

End Folding.

(** * Reports *)

Section Sorting.

Context {A : Type} (key : A -> Z).

Local Abbreviation compare := (fun a b : A => key b - key a).
Local Abbreviation desc := (fun a b : A => key b <= key a).

Lemma Array_insert_perm (cmp : A -> A -> Z) (a : A) (l : list A) :
  Permutation (a :: l) (Array_insert cmp a l).
Proof.
  induction l as [|b l IH]; simpl; [reflexivity |].
  destruct (cmp a b <=? 0); [reflexivity |].
  rewrite perm_swap. now apply perm_skip.
Qed.

Lemma Array_sort_perm (cmp : A -> A -> Z) (l : list A) :
  Permutation l (Array_sort cmp l).
Proof.
  induction l as [|a l IH]; simpl; [reflexivity |].
  rewrite <- Array_insert_perm. now apply perm_skip.
Qed.

Lemma Array_insert_sorted (a : A) (l : list A) :
  StronglySorted desc l -> StronglySorted desc (Array_insert compare a l).
Proof.
  induction l as [|b l IH]; intros Hs; simpl.
  - repeat constructor.
  - inversion Hs as [|b0 l0 Hs' Hall]; subst.
    destruct (key b - key a <=? 0) eqn:E.
    + apply Z.leb_le in E. constructor; [exact Hs |].
      constructor; [lia |].
      eapply Forall_impl; [exact Hall |]. simpl. intros c Hc. lia.
    + apply Z.leb_gt in E. constructor; [now apply IH |].
      eapply Permutation_Forall; [apply Array_insert_perm |].
      constructor; [lia | exact Hall].
Qed.

Lemma Array_sort_sorted (l : list A) :
  StronglySorted desc (Array_sort compare l).
Proof.
  induction l as [|a l IH]; simpl; [constructor | now apply Array_insert_sorted].
Qed.

End Sorting.

Lemma sortedResults_sorted (r : Results) :
  StronglySorted additionsDesc (repoStats (sortedResults r)) /\
  Permutation (repoStats r) (repoStats (sortedResults r)).
Proof.
  split.
  - apply (Array_sort_sorted RepoEntry.additions).
  - apply Array_sort_perm.
Qed.

Section Reports.

Variable env : Env.
Variables toLocaleString toISOString : Z -> string.

Lemma sortRepoStatsInPlace_run (results : ref) (r : Results) (w : World) :
  heap w !! results = Some r ->
  sortRepoStatsInPlace results w
  = (Ret (repoStats (sortedResults r)), withCell w results (sortedResults r)).
Proof.
  intros Hcell. unfold sortRepoStatsInPlace.
  rewrite (bind_Ret _ _ _ _ _ (load_run _ _ _ Hcell)).
  now rewrite (bind_Ret _ _ _ _ _ (store_run _ _ _ _ Hcell)).
Qed.

Lemma printSummary_run (results : ref) (r : Results) (w : World) :
  heap w !! results = Some r ->
  printSummary results w = (Ret tt, withCell w results (sortedResults r)).
Proof.
  intros Hcell. unfold printSummary.
  rewrite (bind_Ret _ _ _ _ _ (sortRepoStatsInPlace_run _ _ _ Hcell)).
  now rewrite (bind_Ret _ _ _ _ _
                 (load_run _ _ _ (withCell_lookup _ _ _ _ Hcell))).
Qed.

Lemma generateTextSummary_run (results : ref) (r : Results) (w : World) :
  heap w !! results = Some r ->
  generateTextSummary toLocaleString toISOString results w
  = (Ret (summaryOf toLocaleString toISOString (this w) r),
     withCell w results (sortedResults r)).
Proof.
  intros Hcell. unfold generateTextSummary.
  unfold bind at 1. unfold getThis at 1.
  rewrite (bind_Ret _ _ _ _ _ (load_run _ _ _ Hcell)).
  rewrite (bind_Ret _ _ _ _ _ (sortRepoStatsInPlace_run _ _ _ Hcell)).
  rewrite (bind_Ret _ _ _ _ _
             (load_run _ _ _ (withCell_lookup _ _ _ _ Hcell))).
  reflexivity.
Qed.

(** The summary of a result object that is sorted already. *)
Lemma Array_sort_id (l : list RepoEntry.t) :
  StronglySorted additionsDesc l -> Array_sort byAdditionsDesc l = l.
Proof.
  induction l as [|a l IH]; intros Hs; simpl; [reflexivity |].
  inversion Hs as [|a0 l0 Hs' Hall]; subst. rewrite (IH Hs').
  destruct l as [|b l]; simpl; [reflexivity |].
  inversion Hall as [|b0 l0 Hab _]; subst.
  unfold byAdditionsDesc, additionsDesc in *.
  replace (RepoEntry.additions b - RepoEntry.additions a <=? 0) with true;
    [reflexivity |].
  symmetry. apply Z.leb_le. lia.
Qed.

Lemma sortedResults_idem (r : Results) :
  sortedResults (sortedResults r) = sortedResults r.
Proof.
  unfold sortedResults at 1. unfold set_repoStats.
  rewrite Array_sort_id by apply sortedResults_sorted. reflexivity.
Qed.

Lemma saveResults_run (results : ref) (r : Results) (w : World) :
  heap w !! results = Some r ->
  exists w',
    saveResults env toLocaleString toISOString results w = (Ret tt, w') /\
    Emitted w w' [WriteJson r;
                  WriteText (summaryOf toLocaleString toISOString (this w) r)] /\
    heap w' = <[results := sortedResults r]> (heap w).
Proof.
  intros Hcell. unfold saveResults.
  unfold bind at 1. unfold now, interact at 1.
  set (w1 := {| this := this w; heap := heap w; tick := S (tick w);
                trace := trace w |}).
  assert (heap w1 !! results = Some r) as Hcell1 by exact Hcell.
  rewrite (bind_Ret _ _ _ _ _ (load_run _ _ _ Hcell1)).
  unfold bind at 1. unfold emit at 1.
  set (w2 := {| this := this w1; heap := heap w1; tick := tick w1;
                trace := (trace w1 ++ [WriteJson r])%list |}).
  assert (heap w2 !! results = Some r) as Hcell2 by exact Hcell.
  rewrite (bind_Ret _ _ _ _ _ (generateTextSummary_run _ _ _ Hcell2)).
  unfold emit. eexists. split; [reflexivity |].
  split; [| reflexivity].
  unfold Emitted. simpl. now rewrite <- app_assoc.
Qed.

(** A run of [main] that gets its result object writes the two reports
    from the object as [printSummary] left it. *)
Lemma main_run (GITHUB_TOKEN GITHUB_USERNAME : option string)
    (ANALYSIS_YEAR : option Z) (args : list string)
    (token user : string) (w w3 : World) (results : ref) (r : Results) :
  truthy GITHUB_TOKEN = Some token ->
  truthy GITHUB_USERNAME = Some user ->
  calculateLOCForYear env (truthy (head args))
    (snd (startRun env user (default 2025 ANALYSIS_YEAR) w)) = (Ret results, w3) ->
  heap w3 !! results = Some r ->
  exists w',
    main env toLocaleString toISOString GITHUB_TOKEN GITHUB_USERNAME
         ANALYSIS_YEAR args w = (Ret 0, w') /\
    Emitted w3 w'
      [WriteJson (sortedResults r);
       WriteText (summaryOf toLocaleString toISOString (this w3) (sortedResults r))] /\
    heap w' !! results = Some (sortedResults r).
Proof.
  intros Htoken Huser Hcalc Hcell. unfold main. rewrite Htoken, Huser.
  unfold startRun in Hcalc.
  unfold tryCatch. unfold bind at 1. unfold now at 1, interact at 1.
  unfold bind at 1 in Hcalc. unfold now at 1, interact at 1 in Hcalc.
  unfold bind at 1.
  destruct (construct env user (default 2025 ANALYSIS_YEAR) _) as [[[] | e |] w2] eqn:Hcons;
    try (unfold construct, bind, now, interact, setThis in Hcons; discriminate).
  cbn [snd] in Hcalc.
  rewrite (bind_Ret _ _ _ _ _ Hcalc).
  rewrite (bind_Ret _ _ _ _ _ (printSummary_run _ _ _ Hcell)).
  destruct (saveResults_run results (sortedResults r)
              (withCell w3 results (sortedResults r))
              (withCell_lookup _ _ _ _ Hcell)) as (w4 & Hsave & Hem & Hheap4).
  rewrite (bind_Ret _ _ _ _ _ Hsave).
  unfold bind, now, interact, ret.
  eexists. split; [reflexivity |]. split.
  - unfold Emitted in *. cbn [trace withCell] in *. exact Hem.
  - cbn [heap]. rewrite Hheap4, sortedResults_idem. cbn [heap withCell].
    rewrite list_insert_insert_eq. apply list_lookup_insert_eq.
    eapply lookup_lt_Some, Hcell.
Qed.

End Reports.

(** * The run as a whole *)

Lemma finish_fields (count : Z) (r : Results) :
  netLines (finish count r) = totalAdditions (finish count r) - totalDeletions (finish count r) /\
  entryNames (finish count r) = entryNames r /\
  processingStatus (finish count r) = processingStatus r /\
  fileTypeStats (finish count r) = fileTypeStats r.
Proof. repeat split. Qed.

(** What the result object of a run holds, given the outcomes that were
    folded into it. *)
Lemma counted_once (count : Z) (processedAt0 : Z) (mode : AnalysisMode)
    (repos : list Repository) (outcomes : list (Repository * RepoResult.t)) :
  map fst outcomes = repos ->
  let r := finish count (fold_left record outcomes (initialResults processedAt0 mode)) in
  netLines r = totalAdditions r - totalDeletions r /\
  successful (processingStatus r) + failed (processingStatus r)
  = Z.of_nat (length repos) /\
  entryNames r = namesOf (succeeded outcomes) /\
  failedRepos (processingStatus r) = namesOf (failedOnes outcomes) /\
  successful (processingStatus r) = Z.of_nat (length (succeeded outcomes)) /\
  failed (processingStatus r) = Z.of_nat (length (failedOnes outcomes)) /\
  Permutation (entryNames r ++ failedRepos (processingStatus r))%list
              (map full_name repos) /\
  (forall repo, In repo repos ->
     In (full_name repo) (entryNames r) \/
     In (full_name repo) (failedRepos (processingStatus r))) /\
  (List.NoDup (map full_name repos) ->
   forall n, ~ (In n (entryNames r) /\ In n (failedRepos (processingStatus r)))).
Proof.
  intros Hfst r.
  set (r0 := initialResults processedAt0 mode) in *.
  destruct (fold_record_spec outcomes r0) as (Hn & Hf & Hs & Hk & _).
  destruct (finish_fields count (fold_left record outcomes r0))
    as (Hnet & Hnames & Hstatus & _).
  fold r in Hnet, Hnames, Hstatus.
  simpl in Hn, Hf, Hs, Hk. rewrite Z.add_0_l in Hs, Hk.
  rewrite <- Hnames in Hn. rewrite <- Hstatus in Hf, Hs, Hk.
  pose proof (partition_length outcomes) as Hlen.
  assert (length repos = length outcomes) as Hrepos
      by (rewrite <- Hfst; now rewrite length_map).
  assert (map full_name repos = namesOf outcomes) as Hall
      by (unfold namesOf; now rewrite <- Hfst, map_map).
  split; [exact Hnet |].
  split; [lia |].
  split; [exact Hn |]. split; [exact Hf |]. split; [exact Hs |]. split; [exact Hk |].
  split; [rewrite Hn, Hf, Hall; apply partition_perm |].
  split.
  - intros repo Hin. rewrite Hn, Hf. apply partition_covers. now rewrite Hfst.
  - intros Hnd n [Hok Hko]. rewrite Hn in Hok. rewrite Hf in Hko.
    apply (partition_disjoint outcomes n); [| assumption | assumption].
    now rewrite <- Hall.
Qed.

(** C4. Every run that returns, whatever repositories were selected,
    returns a result object with
    [netLines = totalAdditions - totalDeletions]; its [successful] and
    [failed] counters add up to the number of selected repositories; and
    the selected repositories are split, in order, between [repoStats]
    (those processed with success) and [failedRepos] (the others), each
    one on exactly one side: the names on the two sides are, counted
    with their multiplicity, the names of the selected repositories.  A
    run returns whenever its year gives a date and its repositories
    could be selected; with a year that gives no date it raises a
    [RangeError] before anything else. *)
Theorem calculateLOCForYear_counts_every_repository_once :
  forall (env : Env) (targetRepo : option string) (w : World),
    (forall (results : ref) (w' : World),
        calculateLOCForYear env targetRepo w = (Ret results, w') ->
        exists (r : Results) (repos : list Repository) (mode : AnalysisMode)
               (w1 : World),
          selectRepositories env targetRepo w = (Ret (repos, mode), w1) /\
          heap w' !! results = Some r /\
          netLines r = totalAdditions r - totalDeletions r /\
          successful (processingStatus r) + failed (processingStatus r)
          = Z.of_nat (length repos) /\
          Permutation (entryNames r ++ failedRepos (processingStatus r))%list
                      (map full_name repos)) /\
    (forall (w1 : World) (repos : list Repository) (mode : AnalysisMode),
        validYear (year (this w)) = true ->
        selectRepositories env targetRepo w = (Ret (repos, mode), w1) ->
        exists (results : ref) (r : Results) (w' : World)
               (outcomes : list (Repository * RepoResult.t)),
          calculateLOCForYear env targetRepo w = (Ret results, w') /\
          heap w' !! results = Some r /\
          netLines r = totalAdditions r - totalDeletions r /\
          successful (processingStatus r) + failed (processingStatus r)
          = Z.of_nat (length repos) /\
          map fst outcomes = repos /\
          entryNames r = namesOf (succeeded outcomes) /\
          failedRepos (processingStatus r) = namesOf (failedOnes outcomes) /\
          successful (processingStatus r) = Z.of_nat (length (succeeded outcomes)) /\
          failed (processingStatus r) = Z.of_nat (length (failedOnes outcomes)) /\
          Permutation (entryNames r ++ failedRepos (processingStatus r))%list
                      (map full_name repos) /\
          (forall repo, In repo repos ->
             In (full_name repo) (entryNames r) \/
             In (full_name repo) (failedRepos (processingStatus r))) /\
          (List.NoDup (map full_name repos) ->
           forall n, ~ (In n (entryNames r) /\ In n (failedRepos (processingStatus r))))) /\
    (validYear (year (this w)) = false ->
     calculateLOCForYear env targetRepo w
     = (Throw (RangeError "Invalid time value"), w)).
Proof.
  intros env targetRepo w.
  assert (forall (w1 : World) (repos : list Repository) (mode : AnalysisMode),
             validYear (year (this w)) = true ->
             selectRepositories env targetRepo w = (Ret (repos, mode), w1) ->
             exists outcomes w',
               map fst outcomes = repos /\
               calculateLOCForYear env targetRepo w = (Ret (length (heap w)), w') /\
               heap w' !! length (heap w)
               = Some (finish (requestCount (this w'))
                         (fold_left record outcomes
                            (initialResults (Date_now env (tick w1)) mode)))) as Hrun.
  { intros w1 repos mode Hyear Hsel.
    destruct (calculateLOCForYear_run env targetRepo w w1 repos mode Hyear Hsel)
      as (outcomes & w' & Hfst & Hrun & Hheap).
    exists outcomes, w'. split; [exact Hfst |]. split; [exact Hrun |].
    rewrite Hheap. now apply list_lookup_middle. }
  split; [| split].
  - intros results w' Hcalc.
    destruct (calculateLOCForYear_inv _ _ _ _ _ Hcalc)
      as (Hyear & repos & mode & w1 & Hsel).
    destruct (Hrun w1 repos mode Hyear Hsel) as (outcomes & w2 & Hfst & Hcalc' & Hcell).
    rewrite Hcalc in Hcalc'. injection Hcalc' as -> <-.
    destruct (counted_once (requestCount (this w')) (Date_now env (tick w1)) mode
                repos outcomes Hfst)
      as (Hnet & Hsum & _ & _ & _ & _ & Hperm & _).
    eexists _, repos, mode, w1. split; [exact Hsel |]. split; [exact Hcell |].
    split; [exact Hnet |]. split; [exact Hsum | exact Hperm].
  - intros w1 repos mode Hyear Hsel.
    destruct (Hrun w1 repos mode Hyear Hsel) as (outcomes & w' & Hfst & Hcalc & Hcell).
    destruct (counted_once (requestCount (this w')) (Date_now env (tick w1)) mode
                repos outcomes Hfst)
      as (Hnet & Hsum & Hn & Hf & Hs & Hk & Hperm & Hcov & Hdis).
    eexists _, _, w', outcomes. split; [exact Hcalc |]. split; [exact Hcell |].
    repeat (split; [assumption |]). exact Hdis.
  - apply calculateLOCForYear_invalid.
Qed.

(** C6. When the processing of a repository raises an exception,
    [processRepository] returns a failure that carries the message of
    the error; the orchestrator then leaves the global totals and
    [repoStats] as they were, adds one to the [failed] counter, appends
    the full name of the repository to [failedRepos], and goes on with
    the next repository. *)
Theorem processRepository_exception_is_a_failure :
  forall (env : Env) (repo : Repository) (since until : Date)
         (w w1 : World) (e : Error)
         (results : ref) (r : Results) (rest : list Repository),
    processRepository_body env repo since until w = (Throw e, w1) ->
    heap w !! results = Some r ->
    processRepository env repo since until w
    = (Ret {| RepoResult.success := false;
              RepoResult.error := Some (message e);
              RepoResult.stats := RepoStats.zero |}, w1) /\
    exists r',
      processAll env results (repo :: rest) since until w
      = processAll env results rest since until (withCell w1 results r') /\
      totalAdditions r' = totalAdditions r /\
      totalDeletions r' = totalDeletions r /\
      totalCommits r' = totalCommits r /\
      repoStats r' = repoStats r /\
      successful (processingStatus r') = successful (processingStatus r) /\
      failed (processingStatus r') = failed (processingStatus r) + 1 /\
      failedRepos (processingStatus r')
      = (failedRepos (processingStatus r) ++ [full_name repo])%list.
Proof.
  intros env repo since until w w1 e results r rest Hbody Hcell.
  assert (processRepository env repo since until w = (Ret (failure e), w1)) as Hrun
      by (unfold processRepository; now rewrite (tryCatch_Throw _ _ _ _ _ Hbody)).
  split; [exact Hrun |].
  exists (recordFailure repo r). split; [| repeat split].
  destruct (Safe_processRepository_body env repo since until w)
    as (o & w1' & Hbody' & _ & Hheap).
  rewrite Hbody in Hbody'. injection Hbody' as _ <-.
  assert (heap w1 !! results = Some r) as Hcell1 by congruence.
  simpl processAll. unfold processOne.
  unfold bind at 1. unfold bind at 1. rewrite Hrun.
  rewrite (bind_Ret _ _ _ _ _ (load_run _ _ _ Hcell1)). simpl.
  now rewrite (store_run _ _ _ _ Hcell1).
Qed.

(** C9. In every run the [fileTypeStats] mapping of the result object is
    empty when [calculateLOCForYear] returns it and still empty in the
    JSON report, and the text summary ends with the heading of its
    file-type section: the section lists nothing. *)
Theorem fileTypeStats_is_never_populated :
  forall (env : Env) (toLocaleString toISOString : Z -> string)
         (GITHUB_TOKEN GITHUB_USERNAME : option string)
         (ANALYSIS_YEAR : option Z) (args : list string)
         (token user : string) (w w3 : World) (results : ref),
    truthy GITHUB_TOKEN = Some token ->
    truthy GITHUB_USERNAME = Some user ->
    calculateLOCForYear env (truthy (head args))
      (snd (startRun env user (default 2025 ANALYSIS_YEAR) w)) = (Ret results, w3) ->
    exists (r document : Results) (text : string) (w' : World),
      heap w3 !! results = Some r /\
      fileTypeStats r = [] /\
      main env toLocaleString toISOString GITHUB_TOKEN GITHUB_USERNAME
           ANALYSIS_YEAR args w = (Ret 0, w') /\
      Emitted w3 w' [WriteJson document; WriteText text] /\
      heap w' !! results = Some document /\
      fileTypeStats document = [] /\
      topFileTypes document = [] /\
      fileTypesSection toLocaleString document = "" /\
      exists before,
        text = before +:+ "TOP 10 FILE TYPES BY LINES ADDED:" +:+ nl.
Proof.
  intros env tl tiso TOKEN USER YEAR args token user w w3 results
         Htoken Huser Hcalc.
  destruct (calculateLOCForYear_inv _ _ _ _ _ Hcalc)
    as (Hyear & repos & mode & w1 & Hsel).
  destruct (calculateLOCForYear_run _ _ _ _ _ _ Hyear Hsel)
    as (outcomes & w3' & _ & Hcalc' & Hheap).
  rewrite Hcalc in Hcalc'. injection Hcalc' as -> <-.
  set (r0 := initialResults (Date_now env (tick w1)) mode) in *.
  set (r := finish (requestCount (this w3)) (fold_left record outcomes r0)) in *.
  assert (heap w3 !! length (heap (snd (startRun env user (default 2025 YEAR) w)))
          = Some r) as Hcell
      by (rewrite Hheap; now apply list_lookup_middle).
  assert (fileTypeStats r = []) as Hempty.
  { destruct (fold_record_spec outcomes r0) as (_ & _ & _ & _ & _ & _ & _ & Ht & _).
    exact Ht. }
  destruct (main_run env tl tiso TOKEN USER YEAR args token user w w3 _ r
              Htoken Huser Hcalc Hcell) as (w' & Hmain & Hem & Hfinal).
  exists r, (sortedResults r), (summaryOf tl tiso (this w3) (sortedResults r)), w'.
  assert (topFileTypes (sortedResults r) = []) as Htop
      by (unfold topFileTypes;
          change (fileTypeStats (sortedResults r)) with (fileTypeStats r);
          now rewrite Hempty).
  assert (fileTypesSection tl (sortedResults r) = "") as Hsection
      by (unfold fileTypesSection; now rewrite Htop).
  repeat (split; [assumption || reflexivity |]).
  unfold summaryOf. rewrite sortedResults_idem, Hsection.
  rewrite PatternFacts.append_nil_r.
  eexists. rewrite <- PatternFacts.append_assoc. reflexivity.
Qed.

(** C10. [printSummary] and [generateTextSummary] are not read-only:
    each leaves the [repoStats] array of the result object it was given
    sorted by descending additions (the same entries, reordered).  As
    [main] calls [printSummary] before [saveResults], the JSON report
    lists the repositories by descending additions; in the sample run
    that is not the order in which they were processed. *)
Theorem summaries_sort_repoStats_in_place :
  (forall (results : ref) (r : Results) (w : World),
      heap w !! results = Some r ->
      printSummary results w = (Ret tt, withCell w results (sortedResults r))) /\
  (forall (toLocaleString toISOString : Z -> string)
          (results : ref) (r : Results) (w : World),
      heap w !! results = Some r ->
      exists text,
        generateTextSummary toLocaleString toISOString results w
        = (Ret text, withCell w results (sortedResults r))) /\
  (forall r : Results,
      repoStats (sortedResults r) = Array_sort byAdditionsDesc (repoStats r) /\
      StronglySorted additionsDesc (repoStats (sortedResults r)) /\
      Permutation (repoStats r) (repoStats (sortedResults r))) /\
  (forall (env : Env) (toLocaleString toISOString : Z -> string)
          (GITHUB_TOKEN GITHUB_USERNAME : option string)
          (ANALYSIS_YEAR : option Z) (args : list string)
          (token user : string) (w w3 : World) (results : ref) (r : Results),
      truthy GITHUB_TOKEN = Some token ->
      truthy GITHUB_USERNAME = Some user ->
      calculateLOCForYear env (truthy (head args))
        (snd (startRun env user (default 2025 ANALYSIS_YEAR) w)) = (Ret results, w3) ->
      heap w3 !! results = Some r ->
      exists (text : string) (w' : World),
        main env toLocaleString toISOString GITHUB_TOKEN GITHUB_USERNAME
             ANALYSIS_YEAR args w = (Ret 0, w') /\
        Emitted w3 w' [WriteJson (sortedResults r); WriteText text]) /\
  (let run := calculateLOCForYear Example.env None
                (snd (startRun Example.env "u" 2025 Example.world0)) in
   fst run = Ret 0%nat /\
   entryNames <$> heap (snd run) !! 0%nat = Some ["u/a"; "u/b"] /\
   (fun r => entryNames (sortedResults r)) <$> heap (snd run) !! 0%nat
   = Some ["u/b"; "u/a"]).
Proof.
  split; [| split; [| split; [| split]]].
  - intros results r w Hcell. now apply printSummary_run.
  - intros tl tiso results r w Hcell. eexists.
    now apply generateTextSummary_run.
  - intros r. split; [reflexivity | apply sortedResults_sorted].
  - intros env tl tiso TOKEN USER YEAR args token user w w3 results r
           Htoken Huser Hcalc Hcell.
    destruct (main_run env tl tiso TOKEN USER YEAR args token user w w3 results r
                Htoken Huser Hcalc Hcell) as (w' & Hmain & Hem & _).
    eauto.
  - vm_compute. repeat split.
Qed.

(** * The statements at work on the sample environments *)

Lemma getCommitsForRepo_page_failure_witness :
  Paged Example.envFailingPage "u" "a" Example.since Example.until
        Example.world1 Example.afterFirstPage /\
  PageFails Example.envFailingPage "u" "a" Example.since Example.until
            Example.afterFirstPage Example.serverError Example.afterFailedPage /\
  getCommitsForRepo Example.envFailingPage "u" "a" Example.since Example.until
                    Example.world1
  = (Ret [], Example.afterFailedPage).
Proof.
  assert (Paged Example.envFailingPage "u" "a" Example.since Example.until
                Example.world1 Example.afterFirstPage) as Hp.
  { unfold Paged. eapply rtc_l; [| apply rtc_refl].
    apply (page_step Example.envFailingPage "u" "a" Example.since Example.until
             (pagingStart Example.world1) (Example.commitsOf "a")
             (world Example.afterFirstPage)).
    - reflexivity.
    - vm_compute. reflexivity.
    - discriminate. }
  assert (PageFails Example.envFailingPage "u" "a" Example.since Example.until
                    Example.afterFirstPage Example.serverError
                    Example.afterFailedPage) as Hf.
  { split; [reflexivity | vm_compute; reflexivity]. }
  split; [exact Hp |]. split; [exact Hf |].
  exact (getCommitsForRepo_page_failure_returns_nothing _ _ _ _ _ _ _ _ _ Hp Hf).
Defined.

Lemma getCommitStatsWithRetry_never_raises_witness :
  (exists w',
      getCommitStatsWithRetry Example.envServerDown "u" "a" "c1" 3 Example.world1
      = (Ret (Some CommitStats.zero), w')) /\
  getCommitStatsWithRetry Sample.envCommitGone "u" "a" "c1" 3 Example.world1
  = (Ret (Some CommitStats.zero),
     snd (attemptOnce Sample.envCommitGone "u" "a" "c1" Example.world1)).
Proof.
  split.
  - destruct (getCommitStatsWithRetry_never_raises
                Example.envServerDown "u" "a" "c1" Example.world1)
      as (stats & w' & Hrun & _ & Hcases & _).
    exists w'. rewrite Hrun. do 2 f_equal.
    pose (w1 := snd (attemptOnce Example.envServerDown "u" "a" "c1" Example.world1)).
    pose (w2 := snd (attemptOnce Example.envServerDown "u" "a" "c1" (suspended 2000 w1))).
    pose (w3 := snd (attemptOnce Example.envServerDown "u" "a" "c1" (suspended 4000 w2))).
    destruct (Hcases Example.serverError w1) as [_ Hretry1];
      [vm_compute; reflexivity |].
    destruct (Hretry1 ltac:(discriminate) ltac:(discriminate) Example.serverError w2)
      as [_ Hretry2]; [vm_compute; reflexivity |].
    destruct (Hretry2 ltac:(discriminate) ltac:(discriminate) Example.serverError w3)
      as [-> _]; [vm_compute; reflexivity |].
    reflexivity.
  - destruct (getCommitStatsWithRetry_never_raises
                Sample.envCommitGone "u" "a" "c1" Example.world1)
      as (stats & w' & Hrun & _ & Hcases & _).
    destruct (Hcases Example.notFound
                (snd (attemptOnce Sample.envCommitGone "u" "a" "c1" Example.world1)))
      as [Hgone _]; [vm_compute; reflexivity |].
    destruct (Hgone (or_introl eq_refl)) as [-> ->]. exact Hrun.
Defined.

Lemma getCommitStatsWithRetry_truncated_witness :
  exists w2,
    getCommitStatsWithRetry Sample.envFlaky "u" "a" "c1" 3 Example.world1
    = (Ret (Some (statsOfResponse Sample.largeCommit)), w2) /\
    CommitStats.truncated (statsOfResponse Sample.largeCommit) = true.
Proof.
  pose (w1 := snd (attemptOnce Sample.envFlaky "u" "a" "c1" Example.world1)).
  pose (w2 := snd (attemptOnce Sample.envFlaky "u" "a" "c1" (suspended 2000 w1))).
  exists w2. split.
  - apply (proj1 (proj2 (proj1 getCommitStatsWithRetry_truncated
                           Sample.envFlaky "u" "a" "c1" Example.world1))
             Example.serverError w1 Sample.largeCommit w2);
      [vm_compute; reflexivity | discriminate | discriminate | vm_compute; reflexivity].
  - rewrite (proj2 (proj2 (proj1 (proj2 getCommitStatsWithRetry_truncated)
                             Sample.largeCommit))).
    reflexivity.
Defined.

Lemma calculateLOCForYear_counts_witness :
  (exists results r w',
      calculateLOCForYear Example.env None Example.world1 = (Ret results, w') /\
      heap w' !! results = Some r /\
      netLines r = totalAdditions r - totalDeletions r /\
      successful (processingStatus r) + failed (processingStatus r) = 2 /\
      Permutation (entryNames r ++ failedRepos (processingStatus r))%list
                  ["u/a"; "u/b"]) /\
  calculateLOCForYear Example.env None Sample.farWorld
  = (Throw (RangeError "Invalid time value"), Sample.farWorld).
Proof.
  split.
  - destruct (proj1 (proj2 (calculateLOCForYear_counts_every_repository_once
                              Example.env None Example.world1))
                (snd (selectRepositories Example.env None Example.world1))
                [Example.repoA; Example.repoB] ModeAll)
      as (results & r & w' & outcomes & Hrun & Hcell & Hnet & Hsum & _ & _ & _ & _ & _
          & Hperm & _);
      [reflexivity | vm_compute; reflexivity |].
    exists results, r, w'. repeat split; assumption.
  - apply (proj2 (proj2 (calculateLOCForYear_counts_every_repository_once
                           Example.env None Sample.farWorld))).
    reflexivity.
Defined.

Lemma shouldIncludeFile_witness :
  exists rule, In rule excludePatterns /\ Pattern.Accepts rule "dist/x.js".
Proof.
  apply (proj1 (proj1 shouldIncludeFile_iff_no_rule_matches "dist/x.js")).
  vm_compute. reflexivity.
Defined.

Lemma processRepository_exception_witness :
  processRepository_body Example.envBrokenCommit Example.repoA
                         Example.since Example.until Example.world1
  = (Throw Example.nullFileError, Example.afterException) /\
  processRepository Example.envBrokenCommit Example.repoA Example.since Example.until
                    Example.world1
  = (Ret {| RepoResult.success := false;
            RepoResult.error :=
              Some "Cannot read properties of null (reading 'filename')";
            RepoResult.stats := RepoStats.zero |}, Example.afterException) /\
  exists r',
    processAll Example.envBrokenCommit 0%nat [Example.repoA; Example.repoB]
               Example.since Example.until Example.world1
    = processAll Example.envBrokenCommit 0%nat [Example.repoB]
                 Example.since Example.until
                 (withCell Example.afterException 0%nat r') /\
    totalAdditions r' = 0 /\
    failed (processingStatus r') = 1 /\
    failedRepos (processingStatus r') = ["u/a"].
Proof.
  assert (processRepository_body Example.envBrokenCommit Example.repoA
                                 Example.since Example.until Example.world1
          = (Throw Example.nullFileError, Example.afterException)) as Hbody
      by (vm_compute; reflexivity).
  split; [exact Hbody |].
  destruct (processRepository_exception_is_a_failure
              Example.envBrokenCommit Example.repoA Example.since Example.until
              Example.world1 Example.afterException Example.nullFileError
              0%nat (initialResults 0 ModeAll) [Example.repoB] Hbody eq_refl)
    as (Hrun & r' & Hall & Hadd & _ & _ & _ & _ & Hfailed & Hnames).
  split; [exact Hrun |].
  exists r'. split; [exact Hall |]. split; [exact Hadd |].
  split; [exact Hfailed | exact Hnames].
Defined.

Lemma rateLimitCheck_throttles_witness :
  (exists w',
      rateLimitCheck Example.env Sample.busyWorld = (Ret tt, w') /\
      Emitted Sample.busyWorld w' [Sleep (waitTimeOf 7 5000 6000); Sleep 100] /\
      waitTimeOf 7 5000 6000 = (4250 + (1 # 1099511627776))%Q /\
      (4250 - (1 # 16) <= waitTimeOf 7 5000 6000 <= 4250 + (1 # 16))%Q) /\
  (exists w',
      throttleTimes Example.env 3 Example.world1 = (Ret tt, w') /\
      Emitted Example.world1 w' [Sleep 100; Sleep 100; Sleep 100]).
Proof.
  split.
  - destruct (proj1 rateLimitCheck_throttles Example.env Sample.busyWorld)
      as (w' & Hrun & _ & _ & _ & Hover & _).
    destruct Hover as [Hem Hacc];
      [unfold Sample.busyWorld; simpl; lia ..|].
    exists w'. split; [exact Hrun |]. split; [exact Hem |].
    split; [vm_compute; reflexivity | exact Hacc].
  - apply (proj1 (proj2 (proj2 rateLimitCheck_throttles)) Example.env 3%nat
             Example.world1);
      [simpl; lia |].
    intros i Hi. cbv zeta.
    destruct i as [|[|[|i]]]; try lia; right; vm_compute; split; discriminate.
Defined.


Lemma fileTypeStats_witness :
  exists document text w',
    main Example.env Z_to_string Z_to_string (Some "t") (Some "u") None []
         Example.world0 = (Ret 0, w') /\
    In (WriteJson document) (trace w') /\
    In (WriteText text) (trace w') /\
    fileTypeStats document = [] /\
    fileTypesSection Z_to_string document = "".
Proof.
  pose (run := calculateLOCForYear Example.env (truthy (head []))
                 (snd (startRun Example.env "u" (default 2025 None) Example.world0))).
  destruct (fileTypeStats_is_never_populated
              Example.env Z_to_string Z_to_string (Some "t") (Some "u") None []
              "t" "u" Example.world0 (snd run) 0%nat)
    as (r & document & text & w' & _ & _ & Hmain & Hem & _ & Hempty & _ & Hsection & _);
    [reflexivity | reflexivity | vm_compute; reflexivity |].
  exists document, text, w'. unfold Emitted in Hem.
  split; [exact Hmain |]. rewrite Hem.
  split; [apply in_or_app; right; simpl; auto |].
  split; [apply in_or_app; right; simpl; auto |].
  split; assumption.
Defined.

Lemma summaries_sort_witness :
  printSummary 0%nat Example.world1
  = (Ret tt, withCell Example.world1 0%nat
               (sortedResults (initialResults 0 ModeAll))).
Proof.
  apply (proj1 summaries_sort_repoStats_in_place 0%nat
           (initialResults 0 ModeAll) Example.world1).
  reflexivity.
Defined.

(** * What the computations leave in the trace *)

Lemma requestsIn_app (ev1 ev2 : list Event) :
  requestsIn (ev1 ++ ev2)%list = requestsIn ev1 + requestsIn ev2.
Proof. unfold requestsIn. rewrite List.filter_app, length_app. lia. Qed.

Lemma sameAccount_refl (c : Calculator) : sameAccount c c.
Proof. repeat split. Qed.

Lemma sameAccount_trans (c1 c2 c3 : Calculator) :
  sameAccount c1 c2 -> sameAccount c2 c3 -> sameAccount c1 c3.
Proof. unfold sameAccount. intuition congruence. Qed.

Lemma Accounted_unchanged {A} (m : M A) :
  (forall w o w', m w = (o, w') -> trace w' = trace w /\ this w' = this w) ->
  Accounted m.
Proof.
  intros H w o w' Hrun. destruct (H w o w' Hrun) as [Ht Hc].
  exists []. unfold Emitted. rewrite app_nil_r, Hc.
  repeat split; [assumption | constructor | unfold requestsIn; simpl; lia].
Qed.

Lemma Accounted_ret {A} (a : A) : Accounted (ret a).
Proof. apply Accounted_unchanged. intros w o w' [= <- <-]. auto. Qed.

Lemma Accounted_throw {A} (e : Error) : Accounted (@throw A e).
Proof. apply Accounted_unchanged. intros w o w' [= <- <-]. auto. Qed.

Lemma Accounted_stuck {A} : Accounted (@stuck A).
Proof. apply Accounted_unchanged. intros w o w' [= <- <-]. auto. Qed.

Lemma Accounted_getThis : Accounted getThis.
Proof. apply Accounted_unchanged. intros w o w' [= <- <-]. auto. Qed.

Lemma Accounted_now (env : Env) : Accounted (now env).
Proof. apply Accounted_unchanged. intros w o w' [= <- <-]. auto. Qed.

Lemma Accounted_alloc (r : Results) : Accounted (alloc r).
Proof. apply Accounted_unchanged. intros w o w' [= <- <-]. auto. Qed.

Lemma Accounted_load (l : ref) : Accounted (load l).
Proof.
  apply Accounted_unchanged. intros w o w'. unfold load.
  destruct (heap w !! l); intros [= <- <-]; auto.
Qed.

Lemma Accounted_store (l : ref) (r : Results) : Accounted (store l r).
Proof.
  apply Accounted_unchanged. intros w o w'. unfold store.
  destruct (heap w !! l); intros [= <- <-]; auto.
Qed.

Lemma Accounted_sleep (ms : Q) : Accounted (sleep ms).
Proof.
  intros w o w' [= <- <-]. exists [Sleep ms].
  repeat split; [repeat constructor | unfold requestsIn; simpl; lia].
Qed.

Lemma Accounted_bind {A B} (m : M A) (k : A -> M B) :
  Accounted m -> (forall a, Accounted (k a)) -> Accounted (bind m k).
Proof.
  intros Hm Hk w o w' Hrun. unfold bind in Hrun.
  destruct (m w) as [[a | e |] w1] eqn:Hmw;
    try (injection Hrun as <- <-; exact (Hm _ _ _ Hmw)).
  destruct (Hm _ _ _ Hmw) as (ev1 & Hem1 & Hw1 & Hc1 & Ha1).
  destruct (Hk a _ _ _ Hrun) as (ev2 & Hem2 & Hw2 & Hc2 & Ha2).
  exists (ev1 ++ ev2)%list. split; [eapply Emitted_trans; eassumption |].
  split; [apply Forall_app; split; assumption |].
  split; [rewrite requestsIn_app; lia | eapply sameAccount_trans; eassumption].
Qed.

Lemma Accounted_tryCatch {A} (m : M A) (h : Error -> M A) :
  Accounted m -> (forall e, Accounted (h e)) -> Accounted (tryCatch m h).
Proof.
  intros Hm Hh w o w' Hrun. unfold tryCatch in Hrun.
  destruct (m w) as [[a | e |] w1] eqn:Hmw;
    try (injection Hrun as <- <-; exact (Hm _ _ _ Hmw)).
  destruct (Hm _ _ _ Hmw) as (ev1 & Hem1 & Hw1 & Hc1 & Ha1).
  destruct (Hh e _ _ _ Hrun) as (ev2 & Hem2 & Hw2 & Hc2 & Ha2).
  exists (ev1 ++ ev2)%list. split; [eapply Emitted_trans; eassumption |].
  split; [apply Forall_app; split; assumption |].
  split; [rewrite requestsIn_app; lia | eapply sameAccount_trans; eassumption].
Qed.

Section Accounting.

Variable env : Env.

(** The throttle only sleeps, and counts one call. *)
Lemma rateLimitCheck_effects (w : World) :
  exists w' events,
    rateLimitCheck env w = (Ret tt, w') /\
    Emitted w w' events /\
    Forall (fun e => isWrite e = false /\ isRequest e = false) events /\
    requestCount (this w') = requestCount (this w) + 1 /\
    sameAccount (this w) (this w').
Proof.
  unfold rateLimitCheck, bind, getThis, setThis, now, interact, sleep, emit, ret.
  cbn.
  destruct (rateExceeded _ _ _); cbn.
  - destruct (Qlt_bool 0 _); cbn.
    + destruct (falsy (lastWaitLog (this w)) || _); cbn;
        (eexists _, [_; _]; split; [reflexivity |]; unfold Emitted; cbn;
         rewrite <- app_assoc; repeat split; repeat constructor).
    + eexists _, [_]. split; [reflexivity |]. unfold Emitted. cbn.
      repeat split; repeat constructor.
  - eexists _, [_]. split; [reflexivity |]. unfold Emitted. cbn.
    repeat split; repeat constructor.
Qed.

(** A throttled request: one more call counted, one request issued. *)
Lemma throttled_request_accounted {A} (request : M A) (e : Event) (ask : nat -> A) :
  isRequest e = true -> isWrite e = false ->
  (forall w, request w = (emit e ;;; interact ask) w) ->
  Accounted (rateLimitCheck env ;;; request).
Proof.
  intros Hreq Hwrite Hdef w o w' Hrun.
  destruct (rateLimitCheck_effects w) as (w1 & ev1 & Hthrottle & Hem1 & Hev1 & Hc1 & Ha1).
  rewrite (bind_Ret _ _ _ _ _ Hthrottle), Hdef in Hrun.
  unfold bind, emit, interact in Hrun. simpl in Hrun. injection Hrun as <- <-.
  exists (ev1 ++ [e])%list. unfold Emitted in *. simpl. rewrite Hem1, app_assoc.
  split; [reflexivity |]. split.
  - apply Forall_app. split; [| repeat constructor; assumption].
    eapply Forall_impl; [exact Hev1 |]. simpl. tauto.
  - split; [| exact Ha1]. rewrite requestsIn_app, Hc1.
    assert (requestsIn ev1 = 0) as ->.
    { unfold requestsIn. clear -Hev1. induction Hev1 as [|x l [_ Hx] _ IH]; simpl;
        [reflexivity |]. now rewrite Hx. }
    unfold requestsIn. simpl. rewrite Hreq. simpl. lia.
Qed.

Lemma Accounted_attemptOnce (owner repo sha : string) :
  Accounted (attemptOnce env owner repo sha).
Proof.
  unfold attemptOnce.
  apply (throttled_request_accounted _ (ReqGetCommit owner repo sha)
           (fun n => getCommit env n owner repo sha)); reflexivity.
Qed.

Lemma Accounted_fetchRepoPage (page : Z) : Accounted (fetchRepoPage env page).
Proof.
  unfold fetchRepoPage.
  apply (throttled_request_accounted _ (ReqListRepos 100 page)
           (fun n => listForAuthenticatedUser env n 100 page)); reflexivity.
Qed.

Lemma Accounted_fetchPage (owner repo : string) (since until : Date) (page : Z) :
  Accounted (fetchPage env owner repo since until page).
Proof.
  intros w o w' Hrun. unfold fetchPage in Hrun.
  destruct (rateLimitCheck_effects w) as (w1 & ev1 & Hthrottle & _).
  rewrite (bind_Ret _ _ _ _ _ Hthrottle) in Hrun.
  unfold bind at 1 in Hrun. unfold getThis at 1 in Hrun.
  set (params := {| p_owner := owner; p_repo := repo; p_author := username (this w1);
                    p_since := since; p_until := until; p_per_page := 100;
                    p_page := page |}) in *.
  apply (throttled_request_accounted (request_listCommits env params)
           (ReqListCommits params) (fun n => listCommits env n params)
           eq_refl eq_refl (fun _ => eq_refl) w o w').
  now rewrite (bind_Ret _ _ _ _ _ Hthrottle).
Qed.

End Accounting.

Lemma Accounted_ext {A} (m m' : M A) :
  (forall w, m w = m' w) -> Accounted m' -> Accounted m.
Proof. intros Heq H w o w' Hrun. rewrite Heq in Hrun. eauto. Qed.

Section AccountedMethods.

Variable env : Env.

Lemma Accounted_getCommitsForRepo_loop (owner repo : string) (since until : Date)
    (fuel : nat) (commits : list Commit) (page total : Z) :
  Accounted (getCommitsForRepo_loop env fuel owner repo since until commits page total).
Proof.
  revert commits page total. induction fuel as [|fuel IH]; intros commits page total;
    destruct (Z.lt_ge_cases total maxCommitsPerRepo) as [Hlt | Hge].
  - simpl. apply Z.ltb_lt in Hlt. rewrite Hlt. apply Accounted_stuck.
  - eapply Accounted_ext; [intros w; now apply loop_stop | apply Accounted_ret].
  - eapply Accounted_ext with
      (m' := answer <- fetchPage env owner repo since until page ;;
             match answer with
             | inl e => throw e
             | inr data =>
                 if Z.of_nat (length data) =? 0 then ret commits
                 else getCommitsForRepo_loop env fuel owner repo since until
                        (commits ++ data)%list (page + 1)
                        (total + Z.of_nat (length data))
             end).
    + intros w. rewrite loop_unfold by exact Hlt. unfold bind.
      destruct (fetchPage env owner repo since until page w) as [[[e | data] | e |] w'];
        try reflexivity.
      now destruct (Z.of_nat (length data) =? 0).
    + apply Accounted_bind; [apply Accounted_fetchPage |].
      intros [e | data]; [apply Accounted_throw |].
      destruct (Z.of_nat (length data) =? 0); [apply Accounted_ret | apply IH].
  - eapply Accounted_ext; [intros w; now apply loop_stop | apply Accounted_ret].
Qed.

Lemma Accounted_getCommitsForRepo (owner repo : string) (since until : Date) :
  Accounted (getCommitsForRepo env owner repo since until).
Proof.
  unfold getCommitsForRepo. apply Accounted_tryCatch.
  - apply Accounted_getCommitsForRepo_loop.
  - intros e. apply Accounted_ret.
Qed.

Lemma Accounted_backoff (attempt : Z) : Accounted (backoff attempt).
Proof. apply Accounted_sleep. Qed.

Lemma Accounted_retryLoop (owner repo sha : string) (fuel : nat)
    (maxRetries attempt : Z) :
  Accounted (getCommitStatsWithRetry_loop env fuel owner repo sha maxRetries attempt).
Proof.
  revert attempt. induction fuel as [|fuel IH]; intros attempt;
    destruct (Z.le_gt_cases attempt maxRetries) as [Hle | Hgt].
  - simpl. apply Z.leb_le in Hle. rewrite Hle. apply Accounted_stuck.
  - simpl. apply Z.leb_gt in Hgt. rewrite Hgt. apply Accounted_ret.
  - eapply Accounted_ext with
      (m' := answer <- attemptOnce env owner repo sha ;;
             match answer with
             | inr data => ret (Some (statsOfResponse data))
             | inl error =>
                 if notFoundOrConflict error then ret (Some CommitStats.zero)
                 else if attempt =? maxRetries then ret (Some CommitStats.zero)
                 else backoff attempt ;;;
                      getCommitStatsWithRetry_loop env fuel owner repo sha
                        maxRetries (attempt + 1)
             end).
    + intros w. rewrite retryLoop_unfold by exact Hle. unfold bind at 1.
      destruct (attemptOnce env owner repo sha w) as [[[e | data] | e |] w'];
        try reflexivity.
      destruct (notFoundOrConflict e); [reflexivity |].
      destruct (attempt =? maxRetries); [reflexivity |].
      now rewrite (bind_Ret _ _ _ _ _ (backoff_run attempt w')), backoff_run.
    + apply Accounted_bind; [apply Accounted_attemptOnce |].
      intros [e | data]; [| apply Accounted_ret].
      destruct (notFoundOrConflict e); [apply Accounted_ret |].
      destruct (attempt =? maxRetries); [apply Accounted_ret |].
      apply Accounted_bind; [apply Accounted_backoff | intros _; apply IH].
  - simpl. apply Z.leb_gt in Hgt. rewrite Hgt. apply Accounted_ret.
Qed.

Lemma Accounted_getCommitStatsWithRetry (owner repo sha : string) (maxRetries : Z) :
  Accounted (getCommitStatsWithRetry env owner repo sha maxRetries).
Proof. apply Accounted_retryLoop. Qed.

(** One iteration of the loop of [getAllRepositories], in terms of the
    page fetch. *)
Lemma getAllRepositories_loop_unfold (fuel : nat) (repos : list Repository)
    (page : Z) (w : World) :
  getAllRepositories_loop env (S fuel) repos page w =
  (answer <- fetchRepoPage env page ;;
   match answer with
   | inl e => ret repos
   | inr data =>
       if Z.of_nat (length data) =? 0 then ret repos
       else if 1000 <? page + 1 then ret (repos ++ data)%list
       else getAllRepositories_loop env fuel (repos ++ data)%list (page + 1)
   end) w.
Proof.
  simpl. unfold fetchRepoPage, call_listForAuthenticatedUser, tryCatch, bind, await.
  destruct (rateLimitCheck env w) as [[[] | e |] w1]; try reflexivity.
  destruct (request_listForAuthenticatedUser env 100 page w1)
    as [[[e | data] | e |] w2] eqn:Hreq; simpl; try reflexivity.
  - destruct (Z.of_nat (length data) =? 0); simpl; [reflexivity |].
    destruct (1000 <? page + 1); reflexivity.
  - unfold request_listForAuthenticatedUser, bind, emit, interact in Hreq.
    discriminate.
Qed.

Lemma Accounted_getAllRepositories_loop (fuel : nat) (repos : list Repository)
    (page : Z) :
  Accounted (getAllRepositories_loop env fuel repos page).
Proof.
  revert repos page. induction fuel as [|fuel IH]; intros repos page.
  - apply Accounted_stuck.
  - eapply Accounted_ext; [apply getAllRepositories_loop_unfold |].
    apply Accounted_bind; [apply Accounted_fetchRepoPage |].
    intros [e | data]; [apply Accounted_ret |].
    destruct (Z.of_nat (length data) =? 0); [apply Accounted_ret |].
    destruct (1000 <? page + 1); [apply Accounted_ret | apply IH].
Qed.

Lemma Accounted_getAllRepositories : Accounted (getAllRepositories env).
Proof. apply Accounted_getAllRepositories_loop. Qed.

Lemma Accounted_selectRepositories (targetRepo : option string) :
  Accounted (selectRepositories env targetRepo).
Proof.
  unfold selectRepositories. destruct (truthy targetRepo) as [target |].
  - apply Accounted_bind.
    + unfold getRepositoryByName.
      apply Accounted_bind; [apply Accounted_getAllRepositories |]. intros repos.
      apply Accounted_bind; [apply Accounted_getThis |]. intros c.
      apply Accounted_ret.
    + intros [repo |]; [apply Accounted_ret | apply Accounted_throw].
  - apply Accounted_bind; [apply Accounted_getAllRepositories |].
    intros repos. apply Accounted_ret.
Qed.

Lemma Accounted_ownerLogin (repo : Repository) : Accounted (ownerLogin repo).
Proof.
  unfold ownerLogin. destruct (owner repo); [apply Accounted_ret | apply Accounted_throw].
Qed.

Lemma Accounted_sumIncludedFiles (files : list (option File.t)) (a d : Z) :
  Accounted (sumIncludedFiles files a d).
Proof.
  revert a d. induction files as [|[file |] files IH]; intros a d; simpl.
  - apply Accounted_ret.
  - destruct (shouldIncludeFile (File.filename file)); apply IH.
  - apply Accounted_throw.
Qed.

Lemma Accounted_filteredStats (stats : CommitStats.t) : Accounted (filteredStats stats).
Proof.
  unfold filteredStats.
  destruct (0 <? Z.of_nat (length (CommitStats.files stats)));
    [apply Accounted_sumIncludedFiles |].
  destruct (0 <? CommitStats.total stats); apply Accounted_ret.
Qed.

Lemma Accounted_processCommits (repo : Repository) (commits : list Commit)
    (sums : Sums) :
  Accounted (processCommits env repo commits sums).
Proof.
  revert sums. induction commits as [|commit rest IH]; intros sums; simpl.
  - apply Accounted_ret.
  - apply Accounted_bind; [apply Accounted_ownerLogin |]. intros login0.
    apply Accounted_bind; [apply Accounted_getCommitStatsWithRetry |].
    intros [stats |]; [| apply Accounted_throw].
    apply Accounted_bind; [apply Accounted_filteredStats |].
    intros filtered. apply IH.
Qed.

Lemma Accounted_processRepository (repo : Repository) (since until : Date) :
  Accounted (processRepository env repo since until).
Proof.
  unfold processRepository. apply Accounted_tryCatch; [| intros e; apply Accounted_ret].
  unfold processRepository_body.
  apply Accounted_bind; [apply Accounted_ownerLogin |]. intros login0.
  apply Accounted_bind; [apply Accounted_getCommitsForRepo |]. intros commits.
  destruct (Z.of_nat (length commits) =? 0); [apply Accounted_ret |].
  apply Accounted_bind; [apply Accounted_processCommits |]. intros sums.
  apply Accounted_ret.
Qed.

Lemma Accounted_processAll (results : ref) (repos : list Repository)
    (since until : Date) :
  Accounted (processAll env results repos since until).
Proof.
  induction repos as [|repo rest IH]; simpl; [apply Accounted_ret |].
  apply Accounted_bind; [| intros _; exact IH].
  unfold processOne.
  apply Accounted_bind; [apply Accounted_processRepository |]. intros result.
  apply Accounted_bind; [apply Accounted_load |]. intros r.
  destruct (RepoResult.success result); apply Accounted_store.
Qed.

Lemma Accounted_calculateLOCForYear (targetRepo : option string) :
  Accounted (calculateLOCForYear env targetRepo).
Proof.
  assert (forall date, Accounted (Date_toISOString date)) as Hdate
      by (intros [date |]; [apply Accounted_ret | apply Accounted_throw]).
  unfold calculateLOCForYear.
  apply Accounted_bind; [apply Accounted_getThis |]. intros c.
  apply Accounted_bind; [apply Hdate |]. intros since0.
  apply Accounted_bind; [apply Hdate |]. intros until0.
  apply Accounted_bind; [apply Accounted_selectRepositories |]. intros selected.
  apply Accounted_bind; [apply Accounted_now |]. intros processedAt.
  apply Accounted_bind; [apply Accounted_alloc |]. intros results.
  apply Accounted_bind; [apply Accounted_processAll |]. intros _.
  apply Accounted_bind; [apply Accounted_load |]. intros r.
  apply Accounted_bind; [apply Accounted_getThis |]. intros c'.
  apply Accounted_bind; [apply Accounted_store |]. intros _.
  apply Accounted_ret.
Qed.

End AccountedMethods.

(** * The run, from the outside *)

Section RunFacts.

Variable env : Env.

(** [calculateLOCForYear] either returns a result object, or raises
    what the selection of the repositories raised, or raises at once
    with a year that gives no date. *)
Lemma calculateLOCForYear_cases (targetRepo : option string) (w : World) :
  (exists results w' repos mode w1,
      validYear (year (this w)) = true /\
      selectRepositories env targetRepo w = (Ret (repos, mode), w1) /\
      calculateLOCForYear env targetRepo w = (Ret results, w')) \/
  (exists e w',
      (validYear (year (this w)) = true /\
       selectRepositories env targetRepo w = (Throw e, w') \/
       validYear (year (this w)) = false /\
       e = RangeError "Invalid time value" /\ w' = w) /\
      calculateLOCForYear env targetRepo w = (Throw e, w')).
Proof.
  destruct (validYear (year (this w))) eqn:Hyear.
  2: { right. eexists _, w. split; [right; auto |].
       now apply calculateLOCForYear_invalid. }
  destruct (Safe_selectRepositories env targetRepo w) as (o & w1 & Hsel & Hns & _).
  destruct o as [[repos mode] | e |]; [left | right | contradiction].
  - destruct (calculateLOCForYear_run env targetRepo w w1 repos mode Hyear Hsel)
      as (outcomes & w' & _ & Hrun & _).
    eexists _, _, _, _, _. split; [reflexivity |]. split; eassumption.
  - exists e, w1. split; [left; auto |].
    rewrite calculateLOCForYear_valid by exact Hyear.
    now rewrite (bind_Throw _ _ _ _ _ Hsel).
Qed.

Lemma calculateLOCForYear_totalApiCalls (targetRepo : option string)
    (w w' : World) (results : ref) :
  calculateLOCForYear env targetRepo w = (Ret results, w') ->
  exists r events,
    heap w' !! results = Some r /\
    Emitted w w' events /\
    Forall (fun e => isWrite e = false) events /\
    totalApiCalls (runtimeStats r) = requestCount (this w) + requestsIn events.
Proof.
  intros Hrun.
  destruct (Accounted_calculateLOCForYear env targetRepo w _ _ Hrun)
    as (events & Hem & Hnw & Hcount & _).
  destruct (calculateLOCForYear_inv _ _ _ _ _ Hrun)
    as (Hyear & repos & mode & w1 & Hsel).
  destruct (calculateLOCForYear_run _ _ _ _ _ _ Hyear Hsel)
    as (outcomes & w2 & _ & Hrun' & Hheap).
  rewrite Hrun in Hrun'. injection Hrun' as -> <-.
  eexists _, events. split; [rewrite Hheap; now apply list_lookup_middle |].
  split; [exact Hem |]. split; [exact Hnw |]. exact Hcount.
Qed.

End RunFacts.

(** X1. The number of API calls reported in the result object is the
    number of requests issued during the run, on top of the calls counted
    before it; the run itself writes no report. *)
Theorem totalApiCalls_counts_the_requests_issued :
  forall (env : Env) (targetRepo : option string) (w w' : World) (results : ref),
    calculateLOCForYear env targetRepo w = (Ret results, w') ->
    exists r events,
      heap w' !! results = Some r /\
      Emitted w w' events /\
      Forall (fun e => isWrite e = false) events /\
      totalApiCalls (runtimeStats r) = requestCount (this w) + requestsIn events.
Proof. exact calculateLOCForYear_totalApiCalls. Qed.

Section MainFacts.

Variable env : Env.
Variables toLocaleString toISOString : Z -> string.

Lemma startRun_run (user : string) (year0 : Z) (w : World) :
  exists w2,
    startRun env user year0 w = (Ret tt, w2) /\
    trace w2 = trace w /\ heap w2 = heap w /\
    requestCount (this w2) = 0 /\ username (this w2) = user /\ year (this w2) = year0.
Proof.
  unfold startRun, construct, bind, now, interact, setThis. simpl.
  eexists. split; [reflexivity |]. simpl. auto.
Qed.

(** A run of [main] whose result object could not be computed. *)
Lemma main_fails (GITHUB_TOKEN GITHUB_USERNAME : option string)
    (ANALYSIS_YEAR : option Z) (args : list string)
    (token user : string) (w w3 : World) (e : Error) :
  truthy GITHUB_TOKEN = Some token ->
  truthy GITHUB_USERNAME = Some user ->
  calculateLOCForYear env (truthy (head args))
    (snd (startRun env user (default 2025 ANALYSIS_YEAR) w)) = (Throw e, w3) ->
  main env toLocaleString toISOString GITHUB_TOKEN GITHUB_USERNAME
       ANALYSIS_YEAR args w = (Ret 1, w3).
Proof.
  intros Htoken Huser Hcalc. unfold main. rewrite Htoken, Huser.
  destruct (startRun_run user (default 2025 ANALYSIS_YEAR) w) as (w2 & Hstart & _).
  rewrite Hstart in Hcalc. cbn [snd] in Hcalc.
  unfold startRun in Hstart. unfold tryCatch.
  unfold bind at 1 in Hstart. unfold bind at 1.
  destruct (now env w) as [[t | e0 |] w1]; try discriminate.
  unfold bind at 1. rewrite Hstart.
  now rewrite (bind_Throw _ _ _ _ _ Hcalc).
Qed.

End MainFacts.

(** X2. [main] never raises and ends with the exit code 0 or 1.  With a
    credential missing it ends with 1 at once, without any effect.  When
    the analysis raises it ends with 1 and no report has been written;
    this is so, before any request, when the year gives no date.  When
    [main] ends with 0 it has written the JSON document and then the
    text summary, after all its requests, and the API calls reported in
    the document are the requests of the run. *)
Theorem main_exit_code_and_reports :
  forall (env : Env) (toLocaleString toISOString : Z -> string)
         (GITHUB_TOKEN GITHUB_USERNAME : option string)
         (ANALYSIS_YEAR : option Z) (args : list string) (w : World),
    exists (code : Z) (w' : World) (events : list Event),
      main env toLocaleString toISOString GITHUB_TOKEN GITHUB_USERNAME
           ANALYSIS_YEAR args w = (Ret code, w') /\
      Emitted w w' events /\
      (code = 0 \/ code = 1) /\
      (truthy GITHUB_TOKEN = None \/ truthy GITHUB_USERNAME = None ->
       code = 1 /\ w' = w) /\
      (forall (user : string) (e : Error) (w3 : World),
          truthy GITHUB_TOKEN <> None ->
          truthy GITHUB_USERNAME = Some user ->
          calculateLOCForYear env (truthy (head args))
            (snd (startRun env user (default 2025 ANALYSIS_YEAR) w)) = (Throw e, w3) ->
          code = 1 /\ w' = w3 /\ Forall (fun e => isWrite e = false) events) /\
      (truthy GITHUB_TOKEN <> None -> truthy GITHUB_USERNAME <> None ->
       validYear (default 2025 ANALYSIS_YEAR) = false ->
       code = 1 /\ events = []) /\
      (code = 0 ->
       exists network document text,
         events = (network ++ [WriteJson document; WriteText text])%list /\
         Forall (fun e => isWrite e = false) network /\
         totalApiCalls (runtimeStats document) = requestsIn network).
Proof.
  intros env tl tiso TOKEN USER YEAR args w.
  destruct (truthy TOKEN) as [token |] eqn:Htoken.
  2: { exists 1, w, []. unfold main. rewrite Htoken.
       split; [reflexivity |]. split; [apply Emitted_refl |].
       split; [auto |]. split; [auto |].
       split; [intros ? ? ? H; now contradiction H |].
       split; [intros H; now contradiction H | discriminate]. }
  destruct (truthy USER) as [user |] eqn:Huser.
  2: { exists 1, w, []. unfold main. rewrite Htoken, Huser.
       split; [reflexivity |]. split; [apply Emitted_refl |].
       split; [auto |]. split; [auto |].
       split; [discriminate |].
       split; [intros _ H; now contradiction H | discriminate]. }
  destruct (startRun_run env user (default 2025 YEAR) w)
    as (w2 & Hstart & Htrace2 & _ & Hcount2 & _ & Hyear2).
  destruct (calculateLOCForYear_cases env (truthy (head args)) w2)
    as [(results & w3 & repos & mode & w1 & Hyear & _ & Hcalc)
       | (e & w3 & Hwhy & Hcalc)].
  - destruct (calculateLOCForYear_totalApiCalls env _ _ _ _ Hcalc)
      as (r & network & Hcell & Hem & Hnw & Hcalls).
    assert (calculateLOCForYear env (truthy (head args))
              (snd (startRun env user (default 2025 YEAR) w)) = (Ret results, w3))
      as Hcalc' by (now rewrite Hstart).
    destruct (main_run env tl tiso TOKEN USER YEAR args token user w w3 results r
                Htoken Huser Hcalc' Hcell) as (w' & Hmain & Hem' & _).
    exists 0, w', (network ++ [WriteJson (sortedResults r);
                              WriteText (summaryOf tl tiso (this w3) (sortedResults r))])%list.
    split; [exact Hmain |]. split.
    { unfold Emitted in *. now rewrite Hem', Hem, Htrace2, app_assoc. }
    split; [auto |]. split; [intros [? | ?]; discriminate |].
    split.
    { intros user' e w3' _ [= <-] Hthrow. rewrite Hcalc' in Hthrow. discriminate. }
    split.
    { intros _ _ Hinvalid. rewrite Hyear2 in Hyear. congruence. }
    intros _. eexists _, _, _.
    split; [reflexivity |]. split; [exact Hnw |].
    rewrite Hcount2 in Hcalls. exact Hcalls.
  - destruct (Accounted_calculateLOCForYear env _ _ _ _ Hcalc)
      as (events & Hem & Hnw & _).
    assert (calculateLOCForYear env (truthy (head args))
              (snd (startRun env user (default 2025 YEAR) w)) = (Throw e, w3))
      as Hcalc' by (now rewrite Hstart).
    exists 1, w3, events.
    split; [exact (main_fails env tl tiso TOKEN USER YEAR args token user w w3 e
                     Htoken Huser Hcalc') |].
    split; [unfold Emitted in *; now rewrite Hem, Htrace2 |].
    split; [auto |]. split; [intros [? | ?]; discriminate |].
    split.
    { intros user' e' w3' _ [= <-] Hthrow. rewrite Hcalc' in Hthrow.
      injection Hthrow as _ <-. auto. }
    split; [| discriminate].
    intros _ _ Hinvalid. split; [reflexivity |].
    destruct Hwhy as [[Hyear _] | (_ & _ & ->)];
      [rewrite Hyear2 in Hyear; congruence |].
    unfold Emitted in Hem. rewrite <- (app_nil_r (trace w2)) in Hem at 1.
    apply app_inv_head in Hem. now symmetry.
Qed.

(** * The repository resolver *)

Section ResolverFacts.

Variable env : Env.

Lemma fetchRepoPage_spec (page : Z) (w : World) :
  exists n w',
    fetchRepoPage env page w = (Ret (listForAuthenticatedUser env n 100 page), w').
Proof.
  unfold fetchRepoPage.
  destruct (rateLimitCheck_total env w) as (w1 & Hrun & _).
  rewrite (bind_Ret _ _ _ _ _ Hrun).
  unfold request_listForAuthenticatedUser, bind, emit, interact. simpl.
  eexists _, _. reflexivity.
Qed.

Lemma pageOf_next {A} (all : list A) (page : Z) :
  1 <= page ->
  (take (Z.to_nat (100 * (page - 1))) all ++ pageOf all 100 page)%list
  = take (Z.to_nat (100 * (page + 1 - 1))) all.
Proof.
  intros Hpage. unfold pageOf. rewrite take_take_drop. f_equal. lia.
Qed.

Lemma pageOf_empty {A} (all : list A) (page : Z) :
  pageOf all 100 page = [] -> (length all <= Z.to_nat (100 * (page - 1)))%nat.
Proof.
  unfold pageOf. intros H. apply take_nil_inv in H as [H | H]; [discriminate |].
  now apply drop_nil_inv.
Qed.

(** On a listing without failures the loop collects page after page up
    to page 1000. *)
Lemma getAllRepositories_loop_serves (all : list Repository) (fuel : nat)
    (page : Z) (w : World) :
  ServesRepos env all ->
  1 <= page <= 1000 -> 1001 <= Z.of_nat fuel + page ->
  exists w',
    getAllRepositories_loop env fuel (take (Z.to_nat (100 * (page - 1))) all) page w
    = (Ret (take (Z.to_nat 100000) all), w').
Proof.
  intros Hserves. revert page w.
  induction fuel as [|fuel IH]; intros page w Hpage Hfuel; [simpl in Hfuel; lia |].
  rewrite getAllRepositories_loop_unfold.
  destruct (fetchRepoPage_spec page w) as (n & w1 & Hfetch).
  rewrite (bind_Ret _ _ _ _ _ Hfetch), Hserves.
  destruct (pageOf all 100 page) as [|repo data] eqn:Hdata.
  - simpl. exists w1. unfold ret. do 2 f_equal.
    apply pageOf_empty in Hdata. rewrite !take_ge; [reflexivity | lia | lia].
  - replace (Z.of_nat (length (repo :: data)) =? 0) with false
      by (symmetry; apply Z.eqb_neq; simpl length; lia).
    rewrite <- Hdata, pageOf_next by lia.
    destruct (1000 <? page + 1) eqn:Hcap.
    + apply Z.ltb_lt in Hcap. exists w1. unfold ret.
      replace (100 * (page + 1 - 1)) with 100000 by lia. reflexivity.
    + apply Z.ltb_ge in Hcap. apply IH; lia.
Qed.

(** On a listing whose first [pages] pages are served and whose next
    fetch fails, the loop returns what the served pages held. *)
Lemma getAllRepositories_loop_until (all : list Repository) (pages : Z)
    (fuel : nat) (page : Z) (w : World) :
  ServesReposUntil env all pages ->
  pages < 1000 -> 100 * (pages - 1) < Z.of_nat (length all) ->
  1 <= page <= pages + 1 -> 1001 <= Z.of_nat fuel + page ->
  exists w',
    getAllRepositories_loop env fuel (take (Z.to_nat (100 * (page - 1))) all) page w
    = (Ret (take (Z.to_nat (100 * pages)) all), w').
Proof.
  intros [Hserved Hfails] Hpages Hlen. revert page w.
  induction fuel as [|fuel IH]; intros page w Hpage Hfuel; [simpl in Hfuel; lia |].
  rewrite getAllRepositories_loop_unfold.
  destruct (fetchRepoPage_spec page w) as (n & w1 & Hfetch).
  rewrite (bind_Ret _ _ _ _ _ Hfetch).
  destruct (Z.eq_dec page (pages + 1)) as [-> | Hne].
  - destruct (Hfails n 100) as (e & ->). exists w1. unfold ret.
    replace (pages + 1 - 1) with pages by lia. reflexivity.
  - rewrite Hserved by lia.
    destruct (pageOf all 100 page) as [|repo data] eqn:Hdata.
    { apply pageOf_empty in Hdata. lia. }
    replace (Z.of_nat (length (repo :: data)) =? 0) with false
      by (symmetry; apply Z.eqb_neq; simpl length; lia).
    rewrite <- Hdata, pageOf_next by lia.
    replace (1000 <? page + 1) with false by (symmetry; apply Z.ltb_ge; lia).
    apply IH; lia.
Qed.

End ResolverFacts.

(** X3. On a repository listing that is served in pages without a
    failure, [getAllRepositories] returns the repositories of the first
    1000 pages of 100: all of them if there are at most 100000, in
    the order of the listing. *)
Theorem getAllRepositories_returns_the_listing :
  forall (env : Env) (all : list Repository) (w : World),
    ServesRepos env all ->
    exists w',
      getAllRepositories env w = (Ret (take (Z.to_nat 100000) all), w') /\
      (Z.of_nat (length all) <= 100000 -> take (Z.to_nat 100000) all = all).
Proof.
  intros env all w Hserves.
  destruct (getAllRepositories_loop_serves env all 1000 1 w Hserves) as (w' & Hrun);
    [lia | lia |].
  exists w'. split; [exact Hrun | intros Hlen; apply take_ge; lia].
Qed.

(** X4. When the fetch of a page of the repository listing fails after
    [pages] pages that were served, [getAllRepositories] returns the
    repositories of those pages: unlike the commit listing, the
    repository listing keeps what it has collected. *)
Theorem getAllRepositories_keeps_pages_before_a_failure :
  forall (env : Env) (all : list Repository) (pages : Z) (w : World),
    ServesReposUntil env all pages ->
    0 <= pages < 1000 ->
    100 * (pages - 1) < Z.of_nat (length all) ->
    exists w',
      getAllRepositories env w = (Ret (take (Z.to_nat (100 * pages)) all), w').
Proof.
  intros env all pages w Hserves Hpages Hlen.
  apply (getAllRepositories_loop_until env all pages 1000 1 w Hserves); lia.
Qed.

Lemma hasChar_app (c : ascii) (s1 s2 : string) :
  hasChar c (s1 +:+ s2) = hasChar c s1 || hasChar c s2.
Proof.
  induction s1 as [|a s1 IH]; [reflexivity |].
  rewrite PatternFacts.append_cons. simpl. now rewrite IH, orb_assoc.
Qed.

Lemma eqb_differ_on_char (c : ascii) (s t : string) :
  hasChar c s <> hasChar c t -> String.eqb s t = false.
Proof. intros H. apply String.eqb_neq. intros ->. now apply H. Qed.

Lemma eqb_behind_prefix (p s t : string) :
  String.eqb (p +:+ s) (p +:+ t) = String.eqb s t.
Proof.
  destruct (String.eqb_spec s t) as [-> | Hne].
  - apply String.eqb_refl.
  - apply String.eqb_neq. intros Heq. apply (inj (String.app p)) in Heq.
    contradiction.
Qed.

(** For the repositories of the account itself the name, and the name
    behind the account and a slash, select the same repositories. *)
Lemma matchesName_own (user repoName : string) (repo : Repository) :
  full_name repo = user +:+ "/" +:+ name repo ->
  hasChar "/" (name repo) = false ->
  hasChar "/" repoName = false ->
  matchesName user repoName repo = String.eqb (name repo) repoName /\
  matchesName user (user +:+ "/" +:+ repoName) repo = String.eqb (name repo) repoName.
Proof.
  intros Hfull Hname Hquery.
  assert (forall s, hasChar "/" (user +:+ "/" +:+ s) = true) as Hslash.
  { intros s. rewrite hasChar_app. apply orb_true_r. }
  unfold matchesName. rewrite Hfull. split.
  - rewrite (eqb_differ_on_char "/" (user +:+ "/" +:+ name repo) repoName)
      by (rewrite Hslash, Hquery; discriminate).
    rewrite !eqb_behind_prefix.
    now destruct (String.eqb (name repo) repoName).
  - rewrite (eqb_differ_on_char "/" (name repo) (user +:+ "/" +:+ repoName))
      by (rewrite Hslash, Hname; discriminate).
    rewrite !eqb_behind_prefix.
    rewrite (eqb_differ_on_char "/" (name repo) (user +:+ "/" +:+ repoName))
      by (rewrite Hslash, Hname; discriminate).
    now destruct (String.eqb (name repo) repoName).
Qed.

Lemma find_agree {A} (f g : A -> bool) (l : list A) :
  (forall x, In x l -> f x = g x) -> find f l = find g l.
Proof.
  induction l as [|x l IH]; intros H; simpl; [reflexivity |].
  rewrite (H x) by (left; reflexivity).
  destruct (g x); [reflexivity |]. apply IH. intros y Hy. apply H. now right.
Qed.

(** What [find] returns is the first element that passes the test. *)
Lemma find_first {A} (f : A -> bool) (l : list A) (x : A) :
  find f l = Some x ->
  exists before after,
    l = (before ++ x :: after)%list /\
    f x = true /\
    forall y, In y before -> f y = false.
Proof.
  induction l as [|a l IH]; simpl; [discriminate |].
  destruct (f a) eqn:Ha.
  - intros [= ->]. exists [], l. split; [reflexivity |]. split; [exact Ha |].
    intros y [].
  - intros Hfind. destruct (IH Hfind) as (before & after & -> & Hx & Hbefore).
    exists (a :: before), after. split; [reflexivity |]. split; [exact Hx |].
    intros y [<- | Hy]; [exact Ha | now apply Hbefore].
Qed.

Lemma getRepositoryByName_run (env : Env) (repoName : string) (w w' : World)
    (repos : list Repository) :
  getAllRepositories env w = (Ret repos, w') ->
  getRepositoryByName env repoName w
  = (Ret (find (matchesName (username (this w)) repoName) repos), w').
Proof.
  intros Hall.
  destruct (Accounted_getAllRepositories env w _ _ Hall) as (_ & _ & _ & _ & Huser & _).
  unfold getRepositoryByName. rewrite (bind_Ret _ _ _ _ _ Hall).
  unfold bind, getThis, ret. now rewrite Huser.
Qed.

(** X5. [getRepositoryByName] lists the repositories and returns the
    first one, in the order of the listing, whose name or full name is
    the query, or whose full name is the account, a slash and the query:
    no repository listed before it is one of these; it returns nothing
    exactly when no listed repository is one of these.  On the repositories of
    the account itself, the name of a repository and its full name
    resolve to the same repository. *)
Theorem getRepositoryByName_resolves :
  forall (env : Env) (repoName : string) (w : World),
    exists repos w' found,
      getAllRepositories env w = (Ret repos, w') /\
      getRepositoryByName env repoName w = (Ret found, w') /\
      (forall repo, found = Some repo ->
         exists before after,
           repos = (before ++ repo :: after)%list /\
           matchesName (username (this w)) repoName repo = true /\
           forall other, In other before ->
             matchesName (username (this w)) repoName other = false) /\
      (found = None <->
       forall repo, In repo repos ->
         matchesName (username (this w)) repoName repo = false) /\
      (OwnRepositories (username (this w)) repos ->
       hasChar "/" repoName = false ->
       found = find (fun repo => String.eqb (name repo) repoName) repos /\
       getRepositoryByName env (username (this w) +:+ "/" +:+ repoName) w
       = (Ret found, w')).
Proof.
  intros env repoName w.
  destruct (Total_getAllRepositories env w) as (repos & w' & Hall & _).
  exists repos, w', (find (matchesName (username (this w)) repoName) repos).
  split; [exact Hall |]. split; [now apply getRepositoryByName_run |].
  split; [| split].
  - intros repo Hfound. now apply find_first.
  - split.
    + intros Hnone repo Hin. exact (find_none _ _ Hnone repo Hin).
    + intros Hnone.
      destruct (find _ repos) as [repo |] eqn:Hfound; [| reflexivity].
      apply find_some in Hfound as [Hin Hm]. rewrite (Hnone repo Hin) in Hm.
      discriminate.
  - intros Hown Hquery.
    assert (forall q,
               (forall repo, In repo repos ->
                  matchesName (username (this w)) q repo
                  = String.eqb (name repo) repoName) ->
               find (matchesName (username (this w)) q) repos
               = find (fun repo => String.eqb (name repo) repoName) repos) as Hfind
        by (intros q Hq; now apply find_agree).
    split.
    + apply Hfind. intros repo Hin. destruct (Hown repo Hin) as [Hfull Hname].
      now apply matchesName_own.
    + rewrite (getRepositoryByName_run _ _ _ _ _ Hall).
      do 2 f_equal. rewrite !Hfind; [reflexivity | |];
        intros repo Hin; destruct (Hown repo Hin) as [Hfull Hname];
        now apply matchesName_own.
Qed.

(** * The repository processor, commit by commit *)

Lemma sumIncludedFiles_records (files : list File.t) (a d : Z) (w : World) :
  sumIncludedFiles (map Some files) a d w
  = (Ret (a + additionsOf (includedFiles files),
          d + deletionsOf (includedFiles files)), w).
Proof.
  revert a d. induction files as [|file files IH]; intros a d; simpl.
  - unfold additionsOf, deletionsOf, sumZ, ret. simpl. now rewrite !Z.add_0_r.
  - unfold includedFiles in *. simpl.
    destruct (shouldIncludeFile (File.filename file)); rewrite IH; [| reflexivity].
    unfold additionsOf, deletionsOf, sumZ. simpl. do 3 f_equal; lia.
Qed.

Lemma sumIncludedFiles_null (before : list File.t) (rest : list (option File.t))
    (a d : Z) (w : World) :
  sumIncludedFiles (map Some before ++ None :: rest)%list a d w
  = (Throw (TypeError "Cannot read properties of null (reading 'filename')"), w).
Proof.
  revert a d. induction before as [|file before IH]; intros a d; simpl;
    [reflexivity |].
  destruct (shouldIncludeFile (File.filename file)); apply IH.
Qed.

(** X6. What a commit contributes.  With file records, the additions and
    deletions of exactly the records that the classifier includes are
    summed, a missing count being 0, so that a commit whose files are all
    excluded contributes nothing; without file records, the totals of
    the commit itself are taken when its total is positive, and nothing
    otherwise; a [null] record raises a [TypeError]. *)
Theorem filteredStats_counts_included_files :
  (forall (stats : CommitStats.t) (files : list File.t) (w : World),
      CommitStats.files stats = map Some files -> files <> [] ->
      filteredStats stats w
      = (Ret (additionsOf (includedFiles files), deletionsOf (includedFiles files)), w)) /\
  (forall (stats : CommitStats.t) (files : list File.t) (w : World),
      CommitStats.files stats = map Some files -> files <> [] ->
      (forall file, In file files -> shouldIncludeFile (File.filename file) = false) ->
      filteredStats stats w = (Ret (0, 0), w)) /\
  (forall (stats : CommitStats.t) (w : World),
      CommitStats.files stats = [] ->
      filteredStats stats w
      = (Ret (if 0 <? CommitStats.total stats
              then (CommitStats.additions stats, CommitStats.deletions stats)
              else (0, 0)), w)) /\
  (forall (stats : CommitStats.t) (before : list File.t)
          (rest : list (option File.t)) (w : World),
      CommitStats.files stats = (map Some before ++ None :: rest)%list ->
      filteredStats stats w
      = (Throw (TypeError "Cannot read properties of null (reading 'filename')"), w)).
Proof.
  assert (forall (stats : CommitStats.t) (files : list File.t) (w : World),
             CommitStats.files stats = map Some files -> files <> [] ->
             filteredStats stats w
             = (Ret (additionsOf (includedFiles files),
                     deletionsOf (includedFiles files)), w)) as Hsum.
  { intros stats files w Hfiles Hne. unfold filteredStats. rewrite Hfiles.
    destruct files as [|file files]; [contradiction |].
    replace (0 <? Z.of_nat (length (map Some (file :: files)))) with true
      by (symmetry; apply Z.ltb_lt; simpl length; lia).
    now rewrite sumIncludedFiles_records. }
  split; [exact Hsum |]. split; [| split].
  - intros stats files w Hfiles Hne Hexcluded. rewrite (Hsum _ _ _ Hfiles Hne).
    assert (includedFiles files = []) as ->; [| reflexivity].
    unfold includedFiles. clear -Hexcluded.
    induction files as [|file files IH]; simpl; [reflexivity |].
    rewrite (Hexcluded file) by (left; reflexivity).
    apply IH. intros f Hf. apply Hexcluded. now right.
  - intros stats w Hfiles. unfold filteredStats. rewrite Hfiles. simpl.
    now destruct (0 <? CommitStats.total stats).
  - intros stats before rest w Hfiles. unfold filteredStats. rewrite Hfiles.
    replace (0 <? Z.of_nat (length (map Some before ++ None :: rest)%list)) with true
      by (symmetry; apply Z.ltb_lt; rewrite length_app; simpl length; lia).
    apply sumIncludedFiles_null.
Qed.

Section ProcessorFacts.

Variable env : Env.

(** The loop counts every commit once, and at most every commit as
    truncated. *)
Lemma processCommits_counts (repo : Repository) (commits : list Commit)
    (sums sums' : Sums) (w w' : World) :
  processCommits env repo commits sums w = (Ret sums', w') ->
  repoCommits sums' = repoCommits sums + Z.of_nat (length commits) /\
  truncatedCommits sums <= truncatedCommits sums' /\
  truncatedCommits sums' - truncatedCommits sums <= Z.of_nat (length commits).
Proof.
  revert sums w. induction commits as [|commit rest IH]; intros sums w; simpl.
  - intros [= <- _]. lia.
  - unfold bind at 1. destruct (ownerLogin repo w) as [[login0 | e |] w1];
      try discriminate.
    unfold bind at 1.
    destruct (getCommitStatsWithRetry env login0 (name repo) (sha commit)
                defaultMaxRetries w1) as [[[stats |] | e |] w2]; try discriminate.
    unfold bind at 1.
    destruct (filteredStats stats w2) as [[filtered | e |] w3]; try discriminate.
    intros Hrest. apply IH in Hrest. simpl in Hrest.
    destruct (CommitStats.truncated stats); lia.
Qed.

End ProcessorFacts.

Lemma processRepository_result_facts :
  forall (env : Env) (repo : Repository) (since until : Date) (w : World),
    exists result w',
      processRepository env repo since until w = (Ret result, w') /\
      let s := RepoResult.stats result in
      RepoStats.netLines s = RepoStats.additions s - RepoStats.deletions s /\
      ((RepoResult.success result = true /\
        RepoResult.error result = None /\
        exists o commits w1,
          owner repo = Some o /\
          getCommitsForRepo env (login o) (name repo) since until w
          = (Ret commits, w1) /\
          RepoStats.commits s = Z.of_nat (length commits) /\
          match RepoStats.truncatedCommits s with
          | Some truncated => commits <> [] /\ 0 <= truncated <= RepoStats.commits s
          | None => commits = []
          end) \/
       (RepoResult.success result = false /\
        s = RepoStats.zero /\
        exists e w1,
          processRepository_body env repo since until w = (Throw e, w1) /\
          RepoResult.error result = Some (message e))).
Proof.
  intros env repo since until w.
  destruct (processRepository_cases env repo since until w)
    as [(result & w' & Hbody & Hrun & _) | (e & w' & Hbody & Hrun & _)].
  2: { exists (failure e), w'. split; [exact Hrun |]. simpl.
       split; [reflexivity |]. right. repeat split. eauto. }
  exists result, w'. split; [exact Hrun |].
  unfold processRepository_body in Hbody. unfold bind at 1 in Hbody.
  unfold ownerLogin in Hbody.
  destruct (owner repo) as [o |] eqn:Howner; [| discriminate].
  unfold ret at 1 in Hbody. unfold bind at 1 in Hbody.
  destruct (getCommitsForRepo env (login o) (name repo) since until w)
    as [[commits | e |] w1] eqn:Hcommits; try discriminate.
  destruct commits as [|commit commits].
  - simpl in Hbody. injection Hbody as <- _. simpl.
    split; [reflexivity |]. left. repeat split.
    exists o, [], w1. repeat split. exact Hcommits.
  - replace (Z.of_nat (length (commit :: commits)) =? 0) with false in Hbody
      by (symmetry; apply Z.eqb_neq; simpl length; lia).
    unfold bind at 1 in Hbody.
    destruct (processCommits env repo (commit :: commits) _ w1)
      as [[sums | e |] w2] eqn:Hsums; try discriminate.
    injection Hbody as <- _. simpl.
    apply processCommits_counts in Hsums. simpl repoCommits in Hsums.
    simpl truncatedCommits in Hsums.
    split; [reflexivity |]. left. repeat split.
    exists o, (commit :: commits), w1.
    repeat split; try lia; try discriminate; exact Hcommits.
Qed.

(** X7. [processRepository] always returns a result, and in every result
    [netLines] is [additions - deletions].  A success carries no error
    message, and its commit count is the number of commits that
    [getCommitsForRepo] returned; its count of truncated commits lies
    between 0 and the commit count, and is left out exactly when there
    was no commit.  A failure carries the message of the error and zero
    stats. *)
Theorem processRepository_result_is_consistent :
  forall (env : Env) (repo : Repository) (since until : Date) (w : World),
    exists result w',
      processRepository env repo since until w = (Ret result, w') /\
      let s := RepoResult.stats result in
      RepoStats.netLines s = RepoStats.additions s - RepoStats.deletions s /\
      ((RepoResult.success result = true /\
        RepoResult.error result = None /\
        exists o commits w1,
          owner repo = Some o /\
          getCommitsForRepo env (login o) (name repo) since until w
          = (Ret commits, w1) /\
          RepoStats.commits s = Z.of_nat (length commits) /\
          match RepoStats.truncatedCommits s with
          | Some truncated => commits <> [] /\ 0 <= truncated <= RepoStats.commits s
          | None => commits = []
          end) \/
       (RepoResult.success result = false /\
        s = RepoStats.zero /\
        exists e w1,
          processRepository_body env repo since until w = (Throw e, w1) /\
          RepoResult.error result = Some (message e))).
Proof. exact processRepository_result_facts. Qed.

(** X8. A commit listing that fails is not a failure of the repository:
    when the fetch of some page of its commits fails,
    [processRepository] reports success with zero additions, deletions
    and commits, as for a repository without commits. *)
Theorem processRepository_failed_listing_is_an_empty_success :
  forall (env : Env) (repo : Repository) (o : Owner) (since until : Date)
         (w : World) (st : Paging) (e : Error) (w' : World),
    owner repo = Some o ->
    Paged env (login o) (name repo) since until w st ->
    PageFails env (login o) (name repo) since until st e w' ->
    processRepository env repo since until w = (Ret emptySuccess, w').
Proof.
  intros env repo o since until w st e w' Howner Hp Hf.
  pose proof (page_failure_discards _ _ _ _ _ _ _ _ _ Hp Hf) as Hcommits.
  unfold processRepository, tryCatch, processRepository_body.
  unfold bind at 1. unfold ownerLogin. rewrite Howner. unfold ret at 1.
  now rewrite (bind_Ret _ _ _ _ _ Hcommits).
Qed.

(** * The requests of the commit stat fetcher *)

Section RetryFacts.

Variable env : Env.
Variables (owner repo sha : string).

Lemma filter_no_request (events : list Event) :
  Forall (fun e => isWrite e = false /\ isRequest e = false) events ->
  List.filter isRequest events = [].
Proof.
  induction 1 as [|e events [_ He] _ IH]; simpl; [reflexivity |]. now rewrite He.
Qed.

(** One attempt is one throttled request for the commit. *)
Lemma attemptOnce_events (w : World) :
  exists answer w' events,
    attemptOnce env owner repo sha w = (Ret answer, w') /\
    Emitted w w' events /\
    List.filter isRequest events = [ReqGetCommit owner repo sha] /\
    requestCount (this w') = requestCount (this w) + 1.
Proof.
  unfold attemptOnce.
  destruct (rateLimitCheck_effects env w) as (w1 & ev1 & Hrun & Hem & Hev & Hcount & _).
  rewrite (bind_Ret _ _ _ _ _ Hrun).
  unfold request_getCommit, bind, emit, interact. simpl.
  eexists _, _, (ev1 ++ [ReqGetCommit owner repo sha])%list.
  split; [reflexivity |]. unfold Emitted in *. simpl.
  split; [now rewrite Hem, app_assoc |].
  split; [| exact Hcount].
  now rewrite List.filter_app, (filter_no_request _ Hev).
Qed.

Lemma fetchStats_policy_requests (n : nat) (attempt : Z) (w : World) :
  exists result w' events k,
    fetchStats_policy env n owner repo sha attempt w = (Ret result, w') /\
    Emitted w w' events /\
    List.filter isRequest events = replicate k (ReqGetCommit owner repo sha) /\
    (k <= n)%nat /\ ((1 <= n)%nat -> (1 <= k)%nat) /\
    requestCount (this w') = requestCount (this w) + Z.of_nat k.
Proof.
  revert attempt w. induction n as [|n IH]; intros attempt w; simpl.
  - exists CommitStats.zero, w, [], 0%nat.
    split; [reflexivity |]. split; [apply Emitted_refl |].
    repeat split; simpl; lia.
  - destruct (attemptOnce_events w) as (answer & w1 & ev1 & Hatt & Hem1 & Hreq1 & Hc1).
    rewrite (bind_Ret _ _ _ _ _ Hatt).
    destruct answer as [error | data];
      [| eexists _, w1, ev1, 1%nat; repeat split; auto; lia].
    destruct (notFoundOrConflict error);
      [eexists _, w1, ev1, 1%nat; repeat split; auto; lia |].
    destruct n as [|n]; [eexists _, w1, ev1, 1%nat; repeat split; auto; lia |].
    rewrite (bind_Ret _ _ _ _ _ (backoff_run attempt w1)).
    destruct (IH (attempt + 1) (suspended (inject_Z (attempt * 2 * 1000)) w1))
      as (result & w' & ev2 & k & Hrun & Hem2 & Hreq2 & Hk & _ & Hc2).
    exists result, w', (ev1 ++ Sleep (inject_Z (attempt * 2 * 1000)) :: ev2)%list, (S k).
    split; [exact Hrun |]. split.
    + unfold Emitted in *. rewrite Hem2. simpl. rewrite Hem1.
      now rewrite <- !app_assoc.
    + split; [| split; [lia | split; [lia |]]].
      * rewrite List.filter_app, Hreq1. simpl. now rewrite Hreq2.
      * rewrite Hc2. simpl requestCount. lia.
Qed.

End RetryFacts.

(** X9. For one commit [getCommitStatsWithRetry] issues at least one and
    at most three requests, all of them for that commit, and the call
    counter grows by their number. *)
Theorem getCommitStatsWithRetry_issues_one_to_three_requests :
  forall (env : Env) (owner repo sha : string) (w : World),
    exists result w' events k,
      getCommitStatsWithRetry env owner repo sha 3 w = (Ret (Some result), w') /\
      Emitted w w' events /\
      List.filter isRequest events = replicate k (ReqGetCommit owner repo sha) /\
      (1 <= k <= 3)%nat /\
      requestCount (this w') = requestCount (this w) + Z.of_nat k.
Proof.
  intros env owner repo sha w.
  destruct (getCommitStatsWithRetry_policy env owner repo sha w)
    as (result & w' & Hrun & Hpol & _).
  destruct (fetchStats_policy_requests env owner repo sha 3 1 w)
    as (result' & w'' & events & k & Hpol' & Hem & Hreq & Hk & Hone & Hcount).
  rewrite Hpol in Hpol'. injection Hpol' as <- <-.
  exists result, w', events, k. repeat split; auto; lia.
Qed.

(** * More on the file classifier *)

Lemma Matches_wordsOf (r : Pattern.regex) (w : string) :
  Pattern.Matches r w <-> In w (wordsOf r).
Proof.
  split.
  - induction 1 as [s | r1 r2 w H IH | r1 r2 w H IH | r1 r2 w1 w2 H1 IH1 H2 IH2];
      simpl.
    + now left.
    + apply in_or_app. now left.
    + apply in_or_app. now right.
    + apply in_flat_map. exists w1. split; [exact IH1 |].
      apply in_map_iff. exists w2. split; [reflexivity | exact IH2].
  - revert w. induction r as [s | r1 IH1 r2 IH2 | r1 IH1 r2 IH2]; intros w; simpl.
    + intros [<- | []]. constructor.
    + intros H. apply in_app_or in H as [H | H];
        [apply Pattern.MAltL | apply Pattern.MAltR]; auto.
    + intros H. apply in_flat_map in H as (w1 & H1 & H).
      apply in_map_iff in H as (w2 & <- & H2). constructor; auto.
Qed.

(** Every word of every exclusion rule has a dot or a slash in it. *)
Lemma rule_words_have_dot_or_slash (rule : Pattern.t) (w : string) :
  In rule excludePatterns -> Pattern.Matches (Pattern.body rule) w ->
  hasChar "." w || hasChar "/" w = true.
Proof.
  intros Hrule Hw. apply Matches_wordsOf in Hw.
  assert (forallb (fun rule =>
                     forallb (fun w => hasChar "." w || hasChar "/" w)
                             (wordsOf (Pattern.body rule)))
                  excludePatterns = true) as Hall by (vm_compute; reflexivity).
  rewrite forallb_forall in Hall. specialize (Hall rule Hrule).
  rewrite forallb_forall in Hall. exact (Hall w Hw).
Qed.

Lemma excluded_by (rule : Pattern.t) (p : string) :
  In rule excludePatterns -> Pattern.Accepts rule p -> shouldIncludeFile p = false.
Proof.
  intros Hrule Hacc. unfold shouldIncludeFile.
  rewrite negb_false_iff, existsb_exists.
  exists rule. split; [exact Hrule | now apply PatternFacts.test_true].
Qed.

(** X10. A path without a dot and without a slash is always included:
    files such as [Makefile] or [LICENSE] at the top of a repository
    count as code. *)
Theorem shouldIncludeFile_plain_names :
  forall p : string,
    hasChar "." p = false -> hasChar "/" p = false -> shouldIncludeFile p = true.
Proof.
  intros p Hdot Hslash.
  destruct (shouldIncludeFile p) eqn:Hinc; [reflexivity |].
  apply (proj1 (negb_false_iff _)) in Hinc.
  apply existsb_exists in Hinc as (rule & Hrule & Htest).
  apply PatternFacts.test_true in Htest as (pre & w & post & -> & Hw & _).
  pose proof (rule_words_have_dot_or_slash rule w Hrule Hw) as Hchars.
  rewrite !hasChar_app in Hdot, Hslash.
  apply orb_false_elim in Hdot as [_ Hdot]. apply orb_false_elim in Hdot as [Hdot _].
  apply orb_false_elim in Hslash as [_ Hslash].
  apply orb_false_elim in Hslash as [Hslash _].
  rewrite Hdot, Hslash in Hchars. discriminate.
Qed.

(** X11. Exclusion does not depend on where a file lies, except for the
    rules that name a top-level directory: a path excluded by a rule
    without [^] stays excluded below any directory, and a path excluded
    by a rule without [$] stays excluded whatever follows.  So a
    [node_modules] directory is excluded at any depth, a minified or a
    lock file under any name that ends like it, and everything below a
    top-level [dist], [build], [out], [target], [bin] or [obj]. *)
Theorem excluded_paths_stay_excluded :
  (forall (rule : Pattern.t) (p pre : string),
      In rule excludePatterns -> Pattern.anchorStart rule = false ->
      Pattern.Accepts rule p -> shouldIncludeFile (pre +:+ p) = false) /\
  (forall (rule : Pattern.t) (p post : string),
      In rule excludePatterns -> Pattern.anchorEnd rule = false ->
      Pattern.Accepts rule p -> shouldIncludeFile (p +:+ post) = false) /\
  (forall dir file : string,
      shouldIncludeFile (dir +:+ "node_modules/" +:+ file) = false) /\
  (forall p : string, shouldIncludeFile (p +:+ ".min.js") = false) /\
  (forall p : string, shouldIncludeFile (p +:+ "yarn.lock") = false) /\
  (forall top p : string,
      In top ["dist"; "build"; "out"; "target"; "bin"; "obj"] ->
      shouldIncludeFile (top +:+ "/" +:+ p) = false).
Proof.
  assert (forall (rule : Pattern.t) (p pre : string),
             In rule excludePatterns -> Pattern.anchorStart rule = false ->
             Pattern.Accepts rule p -> shouldIncludeFile (pre +:+ p) = false) as Hpre.
  { intros rule p pre Hrule Hstart (pre0 & w & post & -> & Hw & _ & Hend).
    apply (excluded_by rule _ Hrule).
    exists (pre +:+ pre0), w, post.
    split; [now rewrite PatternFacts.append_assoc |].
    split; [exact Hw |]. split; [congruence | exact Hend]. }
  assert (forall (rule : Pattern.t) (p post : string),
             In rule excludePatterns -> Pattern.anchorEnd rule = false ->
             Pattern.Accepts rule p -> shouldIncludeFile (p +:+ post) = false) as Hpost.
  { intros rule p post Hrule Hend (pre & w & post0 & -> & Hw & Hstart & _).
    apply (excluded_by rule _ Hrule).
    exists pre, w, (post0 +:+ post).
    split; [now rewrite !PatternFacts.append_assoc |].
    split; [exact Hw |]. split; [exact Hstart | congruence]. }
  split; [exact Hpre |]. split; [exact Hpost |].
  split; [| split; [| split]].
  - intros dir file.
    apply (Hpre (Pattern.anywhere (Pattern.Lit "node_modules/")));
      [unfold excludePatterns; simpl; tauto | reflexivity |].
    exists "", "node_modules/", file. repeat split; [constructor | discriminate].
  - intros p.
    apply (Hpre (Pattern.atEnd (Pattern.Seq (Pattern.Lit ".min.")
                                  (Pattern.oneOf "js" ["css"]))));
      [unfold excludePatterns; simpl; tauto | reflexivity |].
    exists "", ".min.js", "". repeat split.
    apply (Pattern.MSeq _ _ ".min." "js"); [constructor |].
    apply Pattern.MAltL. constructor.
  - intros p.
    apply (Hpre (Pattern.atEnd (Pattern.Lit "yarn.lock")));
      [unfold excludePatterns; simpl; tauto | reflexivity |].
    exists "", "yarn.lock", "". repeat split. constructor.
  - intros top p Htop.
    apply (excluded_by
             (Pattern.atStart
                (Pattern.Seq
                   (Pattern.oneOf "dist" ["build"; "out"; "target"; "bin"; "obj"])
                   (Pattern.Lit "/"))));
      [unfold excludePatterns; simpl; tauto |].
    exists "", (top +:+ "/"), p.
    split; [now rewrite PatternFacts.append_nil_l, PatternFacts.append_assoc |].
    split; [| split; [reflexivity | discriminate]].
    apply Pattern.MSeq; [| constructor].
    apply Matches_wordsOf. simpl in *. tauto.
Qed.

Lemma mock_rules_are_rules (rule : Pattern.t) :
  In rule mockExcludePatterns -> In rule excludePatterns.
Proof.
  unfold mockExcludePatterns, excludePatterns. simpl.
  intros H.
  repeat (destruct H as [<- | H]; [tauto |]). contradiction.
Qed.

(** X12. The classifier that the test suite defines for itself uses a
    part of the rules of [shouldIncludeFile]: whatever it excludes, the
    real classifier excludes too; the converse fails, for instance on a
    minified file or a source map. *)
Theorem mock_classifier_is_weaker :
  (forall p : string,
      mockShouldIncludeFile p = false -> shouldIncludeFile p = false) /\
  (forall p : string,
      shouldIncludeFile p = true -> mockShouldIncludeFile p = true) /\
  (mockShouldIncludeFile "app.min.js" = true /\
   shouldIncludeFile "app.min.js" = false) /\
  (mockShouldIncludeFile "app.js.map" = true /\
   shouldIncludeFile "app.js.map" = false).
Proof.
  assert (forall p : string,
             mockShouldIncludeFile p = false -> shouldIncludeFile p = false) as Hweak.
  { intros p Hmock. unfold mockShouldIncludeFile in Hmock.
    apply (proj1 (negb_false_iff _)) in Hmock.
    apply existsb_exists in Hmock as (rule & Hrule & Htest).
    apply (excluded_by rule); [now apply mock_rules_are_rules |].
    now apply PatternFacts.test_true. }
  split; [exact Hweak |]. split.
  - intros p Hinc. destruct (mockShouldIncludeFile p) eqn:E; [reflexivity |].
    rewrite (Hweak p E) in Hinc. discriminate.
  - split; split; vm_compute; reflexivity.
Qed.

(** * The throttle at the boundary *)

(** X13. The rate test of the throttle allows one call per 750 ms, up to
    the rounding of its doubles.  It finds the rate exceeded whenever
    the clock is at least 1 ms short of 750 ms per call (from the start
    time on), and not exceeded whenever the clock is at least 1 ms past
    it, or before the start time.  With the clock exactly at 750 ms per
    call the outcome depends on the rounding: for 79 calls the rate
    comes out above 4800, for a single call it does not.  The wait is
    the time left of 750 ms per call up to the rounding of its five
    operations: within 1/16 ms of it, and not always equal to it (for 7
    calls after one second it is [4250 + 2^-40] ms). *)
Theorem rateExceeded_is_decided_off_the_boundary :
  (forall count start now0 : Z,
      0 < count ->
      (0 <= now0 - start <= 750 * count - 1 -> now0 - start <= 2 ^ 48 ->
       rateExceeded count start now0 = true) /\
      (750 * count + 1 <= now0 - start <= 2 ^ 48 ->
       rateExceeded count start now0 = false) /\
      (now0 - start < 0 -> rateExceeded count start now0 = false)) /\
  (exists count, 0 < count /\ rateExceeded count 0 (750 * count) = true) /\
  (exists count, 0 < count /\ rateExceeded count 0 (750 * count) = false) /\
  (forall count start now0 : Z,
      0 < count <= 2 ^ 32 -> - 2 ^ 48 <= now0 - start <= 2 ^ 48 ->
      (inject_Z (750 * count - (now0 - start)) - (1 # 16)
       <= waitTimeOf count start now0
       <= inject_Z (750 * count - (now0 - start)) + (1 # 16))%Q) /\
  waitTimeOf 7 0 1000 = (4250 + (1 # 1099511627776))%Q.
Proof.
  split; [| split; [| split; [| split]]].
  - intros count start now0 Hcount. split; [| split].
    + intros Hover Hmax. now apply rateExceeded_over.
    + intros Hunder. now apply rateExceeded_under.
    + intros Hback. now apply rateExceeded_backwards.
  - exists 79. split; [lia | vm_compute; reflexivity].
  - exists 1. split; [lia | vm_compute; reflexivity].
  - intros count start now0 Hcount Helapsed. now apply waitTimeOf_accuracy.
  - vm_compute. reflexivity.
Qed.

(** * The result object, entry by entry *)

Section ProducedOutcomes.

Variable env : Env.
Variables (since until : Date).

(** [processAll_run], with where its outcomes come from. *)
Lemma processAll_produced (results : ref) (repos : list Repository) (r : Results)
    (w : World) :
  heap w !! results = Some r ->
  exists outcomes w1,
    map fst outcomes = repos /\
    Forall (Produced env since until) outcomes /\
    heap w1 = heap w /\
    processAll env results repos since until w
    = (Ret tt, withCell w1 results (fold_left record outcomes r)).
Proof.
  revert r w. induction repos as [|repo rest IH]; intros r w Hcell.
  - exists [], w. repeat split; [constructor |].
    simpl. now rewrite (withCell_id _ _ _ Hcell).
  - destruct (processOne_run env since until results repo r w Hcell)
      as (result & w1 & Hrun & Hheap & Hone).
    assert (heap w1 !! results = Some r) as Hcell1 by congruence.
    destruct (IH (record r (repo, result)) (withCell w1 results (record r (repo, result))))
      as (outcomes & w2 & Hfst & Hprod & Hheap2 & Hall).
    { eapply withCell_lookup, Hcell1. }
    exists ((repo, result) :: outcomes), (withCell w2 results r).
    split; [simpl; now rewrite Hfst |].
    split; [constructor; [exists w, w1; exact Hrun | exact Hprod] |].
    split.
    + simpl. rewrite Hheap2. simpl. rewrite list_insert_insert_eq.
      rewrite (list_insert_id _ _ _ Hcell1). exact Hheap.
    + simpl processAll. rewrite (bind_Ret _ _ _ _ _ Hone), Hall.
      now rewrite withCell_withCell.
Qed.

End ProducedOutcomes.

Lemma calculateLOCForYear_produced (env : Env) (targetRepo : option string)
    (w w' : World) (results : ref) :
  calculateLOCForYear env targetRepo w = (Ret results, w') ->
  exists repos mode w1 outcomes processedAt0,
    selectRepositories env targetRepo w = (Ret (repos, mode), w1) /\
    map fst outcomes = repos /\
    Forall (Produced env (StartOfYear (year (this w))) (EndOfYear (year (this w))))
           outcomes /\
    heap w1 = heap w /\
    results = length (heap w) /\
    heap w' !! results
    = Some (finish (requestCount (this w'))
              (fold_left record outcomes (initialResults processedAt0 mode))).
Proof.
  intros Hrun.
  destruct (calculateLOCForYear_inv _ _ _ _ _ Hrun)
    as (Hyear & repos & mode & w1 & Hsel).
  destruct (Safe_selectRepositories env targetRepo w) as (o & w1' & Hsel' & _ & Hheap1).
  rewrite Hsel in Hsel'. injection Hsel' as <- <-.
  set (r0 := initialResults (Date_now env (tick w1)) mode).
  set (l := length (heap w1)).
  set (w2 := {| this := this w1; heap := (heap w1 ++ [r0])%list;
                tick := S (tick w1); trace := trace w1 |}).
  assert (heap w2 !! l = Some r0) as Hcell
      by (apply list_lookup_middle; reflexivity).
  destruct (processAll_produced env (StartOfYear (year (this w)))
              (EndOfYear (year (this w))) l repos r0 w2 Hcell)
    as (outcomes & w3 & Hfst & Hprod & Hheap3 & Hall).
  set (r3 := fold_left record outcomes r0) in *.
  assert (heap w3 !! l = Some r0) as Hcell3 by congruence.
  assert (calculateLOCForYear env targetRepo w
          = (Ret l, withCell w3 l (finish (requestCount (this w3)) r3))) as Hrun'.
  { rewrite calculateLOCForYear_valid by exact Hyear.
    rewrite (bind_Ret _ _ _ _ _ Hsel). cbn [fst snd].
    unfold bind at 1. unfold now, interact at 1.
    unfold bind at 1. unfold alloc at 1. cbn [heap this tick trace].
    fold r0 l w2.
    rewrite (bind_Ret _ _ _ _ _ Hall).
    pose proof (withCell_lookup w3 l r0 r3 Hcell3) as Hcell4.
    rewrite (bind_Ret _ _ _ _ _ (load_run _ l r3 Hcell4)).
    unfold bind at 1. unfold getThis at 1.
    rewrite (bind_Ret _ _ _ _ _ (store_run _ l r3 _ Hcell4)).
    unfold ret. now rewrite withCell_withCell. }
  rewrite Hrun in Hrun'. injection Hrun' as -> ->.
  exists repos, mode, w1, outcomes, (Date_now env (tick w1)).
  split; [exact Hsel |]. split; [exact Hfst |]. split; [exact Hprod |].
  split; [exact Hheap1 |]. split; [unfold l; now rewrite Hheap1 |].
  eapply withCell_lookup, Hcell3.
Qed.

(** What [processRepository] returns adds up. *)
Lemma Produced_consistent (env : Env) (since until : Date)
    (outcome : Repository * RepoResult.t) :
  Produced env since until outcome ->
  let s := RepoResult.stats (snd outcome) in
  RepoStats.netLines s = RepoStats.additions s - RepoStats.deletions s /\
  0 <= orZero (RepoStats.truncatedCommits s) <= RepoStats.commits s.
Proof.
  destruct outcome as [repo result]. intros (w & w' & Hrun). simpl in *.
  destruct (processRepository_result_facts env repo since until w)
    as (result' & w'' & Hrun' & Hnet & Hcases).
  rewrite Hrun in Hrun'. injection Hrun' as <- _.
  split; [exact Hnet |].
  destruct Hcases as [(_ & _ & o & commits & w1 & _ & _ & Hcount & Htrunc)
                     | (_ & -> & _)]; [| simpl; lia].
  destruct (RepoStats.truncatedCommits (RepoResult.stats result)); simpl.
  - lia.
  - lia.
Qed.

Lemma Tallied_record (env : Env) (since until : Date) (r : Results)
    (outcome : Repository * RepoResult.t) :
  Produced env since until outcome -> Tallied r -> Tallied (record r outcome).
Proof.
  intros Hprod (Ha & Hd & Hc & Ht & Hs & Hf & Hall).
  destruct (Produced_consistent env since until outcome Hprod) as [Hnet Htrunc].
  unfold record, Tallied.
  destruct (RepoResult.success (snd outcome)); simpl.
  - rewrite !map_app, !sumZ_app, length_app, Ha, Hd, Hc, Ht, Hs, Hf. simpl.
    repeat split; try (unfold sumZ in *; simpl; lia).
    apply Forall_app. split; [exact Hall |].
    repeat constructor; simpl; [exact Hnet | lia | lia].
  - rewrite length_app, Ha, Hd, Hc, Ht, Hs, Hf. simpl.
    repeat split; try lia. exact Hall.
Qed.

Lemma Tallied_fold (env : Env) (since until : Date)
    (outcomes : list (Repository * RepoResult.t)) (r : Results) :
  Forall (Produced env since until) outcomes -> Tallied r ->
  Tallied (fold_left record outcomes r).
Proof.
  intros Hprod. revert r. induction Hprod as [|o outcomes Ho _ IH]; intros r Hr;
    simpl; [exact Hr |].
  apply IH. eapply Tallied_record; eassumption.
Qed.

Lemma sumZ_perm (l l' : list Z) : Permutation l l' -> sumZ l = sumZ l'.
Proof.
  induction 1 as [| x l l' _ IH | x y l | l l' l'' _ IH1 _ IH2];
    unfold sumZ in *; simpl; lia.
Qed.

Lemma sum_netLines (entries : list RepoEntry.t) :
  Forall entryConsistent entries ->
  sumZ (map RepoEntry.netLines entries)
  = sumZ (map RepoEntry.additions entries) - sumZ (map RepoEntry.deletions entries).
Proof.
  induction 1 as [|e entries [He _] _ IH]; simpl; [reflexivity |].
  unfold sumZ in *. simpl. lia.
Qed.

(** X14. In the result object of every run the totals are the sums over
    the entries of [repoStats]: additions, deletions, commits, truncated
    commits, and the net lines; the two counters are the lengths of
    [repoStats] and of [failedRepos]; and every entry has
    [netLines = additions - deletions] and at most as many truncated
    commits as commits. *)
Theorem calculateLOCForYear_totals_are_sums :
  forall (env : Env) (targetRepo : option string) (w w' : World) (results : ref),
    calculateLOCForYear env targetRepo w = (Ret results, w') ->
    exists r,
      heap w' !! results = Some r /\
      Tallied r /\
      netLines r = sumZ (map RepoEntry.netLines (repoStats r)).
Proof.
  intros env targetRepo w w' results Hrun.
  destruct (calculateLOCForYear_produced _ _ _ _ _ Hrun)
    as (repos & mode & w1 & outcomes & t & _ & _ & Hprod & _ & _ & Hcell).
  eexists. split; [exact Hcell |].
  assert (Tallied (fold_left record outcomes (initialResults t mode))) as Htal.
  { eapply Tallied_fold; [exact Hprod |].
    unfold Tallied, initialResults, sumZ. simpl. repeat split; constructor. }
  destruct Htal as (Ha & Hd & Hc & Ht & Hs & Hf & Hall).
  split.
  - unfold Tallied. simpl. repeat split; assumption.
  - simpl. rewrite (sum_netLines _ Hall). lia.
Qed.

(** * The two analysis modes *)

Lemma selectRepositories_single (env : Env) (targetRepo : option string)
    (target : string) (found : option Repository) (w w1 : World) :
  truthy targetRepo = Some target ->
  getRepositoryByName env target w = (Ret found, w1) ->
  selectRepositories env targetRepo w
  = (match found with
     | Some repo => Ret ([repo], ModeSingle)
     | None => Throw (notFoundError target)
     end, w1).
Proof.
  intros Htarget Hfind. unfold selectRepositories. rewrite Htarget.
  rewrite (bind_Ret _ _ _ _ _ Hfind). now destruct found.
Qed.

(** X15. The two modes of a run whose year gives a date.  With a target
    that is not found the run raises the error "Repository '<target>' not
    found" before any result object exists; with a target that is found
    the result object is in single mode and holds exactly this
    repository, as an entry or as a failure; without a target (or with
    the empty string) every run that returns is in mode all.  With a
    year that gives no date the run raises before it looks for any
    repository. *)
Theorem calculateLOCForYear_modes :
  forall (env : Env) (targetRepo : option string) (w : World),
    (forall target w1,
        validYear (year (this w)) = true ->
        truthy targetRepo = Some target ->
        getRepositoryByName env target w = (Ret None, w1) ->
        calculateLOCForYear env targetRepo w = (Throw (notFoundError target), w1) /\
        heap w1 = heap w) /\
    (forall target repo w1,
        validYear (year (this w)) = true ->
        truthy targetRepo = Some target ->
        getRepositoryByName env target w = (Ret (Some repo), w1) ->
        exists results r w',
          calculateLOCForYear env targetRepo w = (Ret results, w') /\
          heap w' !! results = Some r /\
          analysisMode r = ModeSingle /\
          ((entryNames r = [full_name repo] /\
            failedRepos (processingStatus r) = [] /\
            successful (processingStatus r) = 1 /\ failed (processingStatus r) = 0) \/
           (entryNames r = [] /\
            failedRepos (processingStatus r) = [full_name repo] /\
            successful (processingStatus r) = 0 /\ failed (processingStatus r) = 1))) /\
    (forall results w',
        truthy targetRepo = None ->
        calculateLOCForYear env targetRepo w = (Ret results, w') ->
        exists r, heap w' !! results = Some r /\ analysisMode r = ModeAll) /\
    (validYear (year (this w)) = false ->
     calculateLOCForYear env targetRepo w
     = (Throw (RangeError "Invalid time value"), w)).
Proof.
  intros env targetRepo w. split; [| split; [| split]].
  - intros target w1 Hyear Htarget Hfind.
    pose proof (selectRepositories_single env _ _ _ _ _ Htarget Hfind) as Hsel.
    cbn in Hsel. split.
    + rewrite calculateLOCForYear_valid by exact Hyear.
      now rewrite (bind_Throw _ _ _ _ _ Hsel).
    + destruct (Safe_selectRepositories env targetRepo w) as (o & w2 & Hsel' & _ & Hheap).
      rewrite Hsel in Hsel'. now injection Hsel' as _ <-.
  - intros target repo w1 Hyear Htarget Hfind.
    pose proof (selectRepositories_single env _ _ _ _ _ Htarget Hfind) as Hsel.
    cbn in Hsel.
    destruct (calculateLOCForYear_run env _ _ _ _ _ Hyear Hsel)
      as (outcomes & w' & Hfst & Hrun & Hheap).
    destruct outcomes as [|[repo' result] [|]]; try discriminate.
    simpl in Hfst. injection Hfst as ->.
    eexists _, _, w'. split; [exact Hrun |].
    split; [rewrite Hheap; now apply list_lookup_middle |].
    simpl. unfold record. simpl.
    destruct (RepoResult.success result); simpl;
      (split; [reflexivity |]); [left | right]; repeat split.
  - intros results w' Htarget Hrun.
    destruct (calculateLOCForYear_inv _ _ _ _ _ Hrun)
      as (Hyear & repos & mode & w1 & Hsel).
    destruct (calculateLOCForYear_run env _ _ _ _ _ Hyear Hsel)
      as (outcomes & w2 & _ & Hrun' & Hheap).
    rewrite Hrun in Hrun'. injection Hrun' as -> <-.
    eexists. split; [rewrite Hheap; now apply list_lookup_middle |].
    simpl.
    destruct (fold_record_spec outcomes (initialResults (Date_now env (tick w1)) mode))
      as (_ & _ & _ & _ & _ & _ & _ & _ & ->).
    simpl. unfold selectRepositories in Hsel. rewrite Htarget in Hsel.
    destruct (Total_getAllRepositories env w) as (all & w3 & Hall & _).
    rewrite (bind_Ret _ _ _ _ _ Hall) in Hsel. unfold ret in Hsel. congruence.
  - apply calculateLOCForYear_invalid.
Qed.

(** * The order of the reports *)

Section Stability.

Context {A : Type} (key : A -> Z).

Local Abbreviation compare := (fun a b : A => key b - key a).
Local Abbreviation keyed k := (List.filter (fun a : A => key a =? k)).

Lemma Array_insert_stable (k : Z) (a : A) (l : list A) :
  keyed k (Array_insert compare a l) = keyed k (a :: l).
Proof.
  induction l as [|b l IH]; [reflexivity |].
  cbn [Array_insert]. destruct (key b - key a <=? 0) eqn:E; [reflexivity |].
  apply Z.leb_gt in E.
  cbn [List.filter] in *. rewrite IH.
  destruct (key a =? k) eqn:Ea, (key b =? k) eqn:Eb; try reflexivity.
  apply Z.eqb_eq in Ea, Eb. lia.
Qed.

Lemma Array_sort_stable (k : Z) (l : list A) :
  keyed k (Array_sort compare l) = keyed k l.
Proof.
  induction l as [|a l IH]; [reflexivity |].
  cbn [Array_sort]. rewrite Array_insert_stable. cbn [List.filter].
  now rewrite IH.
Qed.

End Stability.

(** X16. The sort of the reports is stable: in the sorted result object
    the repositories with the same number of additions keep the order in
    which they were processed. *)
Theorem sorted_reports_keep_ties_in_order :
  forall (r : Results) (additions : Z),
    withAdditions additions (repoStats (sortedResults r))
    = withAdditions additions (repoStats r).
Proof.
  intros r k. unfold withAdditions, sortedResults. simpl.
  apply (Array_sort_stable RepoEntry.additions).
Qed.

Lemma summaryOf_sorted (toLocaleString toISOString : Z -> string)
    (c : Calculator) (r : Results) :
  summaryOf toLocaleString toISOString c (sortedResults r)
  = summaryOf toLocaleString toISOString c r.
Proof.
  unfold summaryOf. rewrite sortedResults_idem.
  unfold summaryHead. simpl.
  now rewrite <- (Permutation_length (Array_sort_perm byAdditionsDesc (repoStats r))).
Qed.

(** X17. [saveResults] on its own serialises the result object as it is
    stored, in processing order, and only then sorts it for the text
    summary; the object is left sorted, and the text does not depend on
    whether the object had been sorted before. *)
Theorem saveResults_serialises_before_sorting :
  forall (env : Env) (toLocaleString toISOString : Z -> string)
         (results : ref) (r : Results) (w : World),
    heap w !! results = Some r ->
    exists w',
      saveResults env toLocaleString toISOString results w = (Ret tt, w') /\
      Emitted w w' [WriteJson r;
                    WriteText (summaryOf toLocaleString toISOString (this w) r)] /\
      heap w' !! results = Some (sortedResults r) /\
      summaryOf toLocaleString toISOString (this w) (sortedResults r)
      = summaryOf toLocaleString toISOString (this w) r.
Proof.
  intros env tl tiso results r w Hcell.
  destruct (saveResults_run env tl tiso results r w Hcell) as (w' & Hrun & Hem & Hheap).
  exists w'. split; [exact Hrun |]. split; [exact Hem |]. split.
  - rewrite Hheap. apply list_lookup_insert_eq. eapply lookup_lt_Some, Hcell.
  - apply summaryOf_sorted.
Qed.

(** X18. In [main] the summary is printed before the results are saved,
    so the JSON document of a run that ends with 0 lists the repositories
    by additions, largest first; the document is the result object as the
    run leaves it, with the totals of its entries. *)
Theorem main_writes_the_sorted_document :
  forall (env : Env) (toLocaleString toISOString : Z -> string)
         (GITHUB_TOKEN GITHUB_USERNAME : option string)
         (ANALYSIS_YEAR : option Z) (args : list string) (w w' : World),
    main env toLocaleString toISOString GITHUB_TOKEN GITHUB_USERNAME
         ANALYSIS_YEAR args w = (Ret 0, w') ->
    exists network document text results,
      Emitted w w' (network ++ [WriteJson document; WriteText text])%list /\
      Forall (fun e => isWrite e = false) network /\
      StronglySorted additionsDesc (repoStats document) /\
      heap w' !! results = Some document /\
      totalAdditions document = sumZ (map RepoEntry.additions (repoStats document)) /\
      totalCommits document = sumZ (map RepoEntry.commits (repoStats document)).
Proof.
  intros env tl tiso TOKEN USER YEAR args w w' Hmain.
  destruct (truthy TOKEN) as [token |] eqn:Htoken.
  2: { unfold main in Hmain. rewrite Htoken in Hmain. discriminate. }
  destruct (truthy USER) as [user |] eqn:Huser.
  2: { unfold main in Hmain. rewrite Htoken, Huser in Hmain. discriminate. }
  destruct (startRun_run env user (default 2025 YEAR) w)
    as (w2 & Hstart & Htrace2 & _).
  destruct (calculateLOCForYear_cases env (truthy (head args)) w2)
    as [(results & w3 & repos & mode & w1 & _ & _ & Hcalc) | (e & w3 & _ & Hcalc)].
  - destruct (calculateLOCForYear_totalApiCalls env _ _ _ _ Hcalc)
      as (r & network & Hcell & Hem & Hnw & _).
    destruct (calculateLOCForYear_produced _ _ _ _ _ Hcalc)
      as (_ & mode' & _ & outcomes & t & _ & _ & Hprod & _ & _ & Hcell').
    assert (calculateLOCForYear env (truthy (head args))
              (snd (startRun env user (default 2025 YEAR) w)) = (Ret results, w3))
      as Hcalc' by (now rewrite Hstart).
    destruct (main_run env tl tiso TOKEN USER YEAR args token user w w3 results r
                Htoken Huser Hcalc' Hcell) as (w4 & Hmain' & Hem' & Hfinal).
    rewrite Hmain in Hmain'. injection Hmain' as <-.
    eexists network, (sortedResults r), _, results.
    split; [unfold Emitted in *; now rewrite Hem', Hem, Htrace2, app_assoc |].
    split; [exact Hnw |].
    split; [apply sortedResults_sorted |].
    split; [exact Hfinal |].
    rewrite Hcell in Hcell'. injection Hcell' as ->.
    assert (Tallied (fold_left record outcomes (initialResults t mode'))) as Htal.
    { eapply Tallied_fold; [exact Hprod |].
      unfold Tallied, initialResults, sumZ. simpl. repeat split; constructor. }
    destruct Htal as (Ha & _ & Hc & _).
    pose proof (Array_sort_perm byAdditionsDesc
                  (repoStats (fold_left record outcomes (initialResults t mode')))) as Hperm.
    unfold sortedResults. simpl. rewrite Ha, Hc. split.
    + apply sumZ_perm. now apply Permutation_map.
    + apply sumZ_perm. now apply Permutation_map.
  - assert (calculateLOCForYear env (truthy (head args))
              (snd (startRun env user (default 2025 YEAR) w)) = (Throw e, w3))
      as Hcalc' by (now rewrite Hstart).
    rewrite (main_fails env tl tiso TOKEN USER YEAR args token user w w3 e
               Htoken Huser Hcalc') in Hmain. discriminate.
Qed.

(** * The further statements at work on the sample environments *)

Lemma totalApiCalls_counts_witness :
  exists r events,
    heap Sample.afterRun !! 1%nat = Some r /\
    Emitted Example.world1 Sample.afterRun events /\
    totalApiCalls (runtimeStats r)
    = requestCount (this Example.world1) + requestsIn events.
Proof.
  destruct (totalApiCalls_counts_the_requests_issued
              Example.env None Example.world1 Sample.afterRun 1%nat)
    as (r & events & Hcell & Hem & _ & Hcalls); [vm_compute; reflexivity |].
  exists r, events. repeat split; assumption.
Defined.

Lemma main_without_credentials_witness :
  (exists code w',
      main Example.env Z_to_string Z_to_string None (Some "u") None []
           Example.world0 = (Ret code, w') /\
      code = 1 /\ w' = Example.world0) /\
  (exists code w',
      main Example.env Z_to_string Z_to_string (Some "t") (Some "u") (Some 12025) []
           Example.world0 = (Ret code, w') /\
      code = 1 /\ trace w' = trace Example.world0).
Proof.
  split.
  - destruct (main_exit_code_and_reports
                Example.env Z_to_string Z_to_string None (Some "u") None []
                Example.world0)
      as (code & w' & events & Hmain & _ & _ & Hmissing & _).
    exists code, w'. split; [exact Hmain |]. apply Hmissing. left. reflexivity.
  - destruct (main_exit_code_and_reports
                Example.env Z_to_string Z_to_string (Some "t") (Some "u")
                (Some 12025) [] Example.world0)
      as (code & w' & events & Hmain & Hem & _ & _ & _ & Hyear & _).
    exists code, w'. split; [exact Hmain |].
    destruct Hyear as [-> ->]; [discriminate | discriminate | reflexivity |].
    split; [reflexivity |]. unfold Emitted in Hem. now rewrite app_nil_r in Hem.
Defined.

Lemma getAllRepositories_listing_witness :
  exists w',
    getAllRepositories Example.env Example.world1
    = (Ret [Example.repoA; Example.repoB], w').
Proof.
  destruct (getAllRepositories_returns_the_listing
              Example.env [Example.repoA; Example.repoB] Example.world1)
    as (w' & Hrun & Hall).
  { intros n per_page page. reflexivity. }
  exists w'. rewrite Hrun, Hall; [reflexivity | simpl; lia].
Defined.

Lemma getAllRepositories_failure_witness :
  ServesReposUntil Sample.envListingFails [Example.repoA; Example.repoB] 1 /\
  exists w',
    getAllRepositories Sample.envListingFails Example.world1
    = (Ret [Example.repoA; Example.repoB], w').
Proof.
  assert (ServesReposUntil Sample.envListingFails
            [Example.repoA; Example.repoB] 1) as Hserves.
  { split.
    - intros n per_page page Hle. simpl.
      destruct (Z.leb_spec page 1); [reflexivity | lia].
    - intros n per_page. exists Example.serverError. reflexivity. }
  split; [exact Hserves |].
  destruct (getAllRepositories_keeps_pages_before_a_failure
              Sample.envListingFails [Example.repoA; Example.repoB] 1
              Example.world1 Hserves)
    as (w' & Hrun); [lia | simpl; lia |].
  exists w'. exact Hrun.
Defined.

Lemma getRepositoryByName_witness :
  exists w',
    getRepositoryByName Example.env "a" Example.world1
    = (Ret (Some Example.repoA), w') /\
    getRepositoryByName Example.env "u/a" Example.world1
    = (Ret (Some Example.repoA), w').
Proof.
  destruct (getRepositoryByName_resolves Example.env "a" Example.world1)
    as (repos & w' & found & Hall & Hrun & _ & _ & Hown).
  assert (getAllRepositories Example.env Example.world1
          = (Ret [Example.repoA; Example.repoB],
             snd (getAllRepositories Example.env Example.world1))) as Hall'
      by (vm_compute; reflexivity).
  rewrite Hall in Hall'. injection Hall' as ->.
  destruct Hown as [-> Hfull].
  - intros repo [<- | [<- | []]]; split; reflexivity.
  - reflexivity.
  - exists w'. split; [exact Hrun | exact Hfull].
Defined.

Lemma filteredStats_witness :
  filteredStats Sample.commitStats Example.world1 = (Ret (5, 1), Example.world1).
Proof.
  apply (proj1 filteredStats_counts_included_files
           Sample.commitStats Sample.twoFiles Example.world1);
    [reflexivity | discriminate].
Defined.

Lemma processRepository_failed_listing_witness :
  Paged Example.envFailingPage "u" "a" Example.since Example.until
        Example.world1 Example.afterFirstPage /\
  PageFails Example.envFailingPage "u" "a" Example.since Example.until
            Example.afterFirstPage Example.serverError Example.afterFailedPage /\
  processRepository Example.envFailingPage Example.repoA Example.since Example.until
                    Example.world1
  = (Ret emptySuccess, Example.afterFailedPage).
Proof.
  assert (Paged Example.envFailingPage "u" "a" Example.since Example.until
                Example.world1 Example.afterFirstPage) as Hp.
  { unfold Paged. eapply rtc_l; [| apply rtc_refl].
    apply (page_step Example.envFailingPage "u" "a" Example.since Example.until
             (pagingStart Example.world1) (Example.commitsOf "a")
             (world Example.afterFirstPage)).
    - reflexivity.
    - vm_compute. reflexivity.
    - discriminate. }
  assert (PageFails Example.envFailingPage "u" "a" Example.since Example.until
                    Example.afterFirstPage Example.serverError
                    Example.afterFailedPage) as Hf.
  { split; [reflexivity | vm_compute; reflexivity]. }
  split; [exact Hp |]. split; [exact Hf |].
  exact (processRepository_failed_listing_is_an_empty_success
           Example.envFailingPage Example.repoA {| login := "u" |}
           Example.since Example.until Example.world1 Example.afterFirstPage
           Example.serverError Example.afterFailedPage eq_refl Hp Hf).
Defined.

Lemma shouldIncludeFile_plain_names_witness :
  shouldIncludeFile "Makefile" = true.
Proof. apply shouldIncludeFile_plain_names; reflexivity. Defined.

Lemma excluded_paths_witness :
  shouldIncludeFile ("packages/app/" +:+ "node_modules/x.js") = false /\
  shouldIncludeFile ("dist/" +:+ "index.html") = false.
Proof.
  split.
  - apply (proj1 excluded_paths_stay_excluded
             (Pattern.anywhere (Pattern.Lit "node_modules/"))
             "node_modules/x.js" "packages/app/").
    + unfold excludePatterns. repeat (try (left; reflexivity); right).
    + reflexivity.
    + apply PatternFacts.test_true. vm_compute. reflexivity.
  - apply (proj1 (proj2 excluded_paths_stay_excluded)
             (Pattern.atStart
                (Pattern.Seq
                   (Pattern.oneOf "dist" ["build"; "out"; "target"; "bin"; "obj"])
                   (Pattern.Lit "/")))
             "dist/" "index.html").
    + unfold excludePatterns. repeat (try (left; reflexivity); right).
    + reflexivity.
    + apply PatternFacts.test_true. vm_compute. reflexivity.
Defined.

Lemma mock_classifier_witness :
  mockShouldIncludeFile "src/a.js" = true /\
  shouldIncludeFile "vendor/lib.js" = false.
Proof.
  split.
  - apply (proj1 (proj2 mock_classifier_is_weaker) "src/a.js"). reflexivity.
  - apply (proj1 mock_classifier_is_weaker "vendor/lib.js"). reflexivity.
Defined.

Lemma rateExceeded_off_the_boundary_witness :
  rateExceeded 4 0 1000 = true /\ rateExceeded 4 0 3001 = false /\
  (3000 - (1 # 16) <= waitTimeOf 4 0 0 <= 3000 + (1 # 16))%Q.
Proof.
  destruct (proj1 rateExceeded_is_decided_off_the_boundary 4 0 1000)
    as (Hover & _); [lia |].
  destruct (proj1 rateExceeded_is_decided_off_the_boundary 4 0 3001)
    as (_ & Hunder & _); [lia |].
  split; [apply Hover; simpl; lia |]. split; [apply Hunder; simpl; lia |].
  apply (proj1 (proj2 (proj2 (proj2 rateExceeded_is_decided_off_the_boundary)))
           4 0 0); simpl; lia.
Defined.

Lemma calculateLOCForYear_totals_witness :
  exists r, heap Sample.afterRun !! 1%nat = Some r /\ Tallied r.
Proof.
  destruct (calculateLOCForYear_totals_are_sums
              Example.env None Example.world1 Sample.afterRun 1%nat)
    as (r & Hcell & Htal & _); [vm_compute; reflexivity |].
  exists r. split; assumption.
Defined.

Lemma calculateLOCForYear_modes_witness :
  calculateLOCForYear Example.env (Some "zzz") Example.world1
  = (Throw (notFoundError "zzz"), Sample.afterLookup "zzz") /\
  (exists results r w',
      calculateLOCForYear Example.env (Some "a") Example.world1 = (Ret results, w') /\
      heap w' !! results = Some r /\
      analysisMode r = ModeSingle /\
      successful (processingStatus r) + failed (processingStatus r) = 1) /\
  calculateLOCForYear Example.env (Some "a") Sample.farWorld
  = (Throw (RangeError "Invalid time value"), Sample.farWorld).
Proof.
  split; [| split].
  - apply (proj1 (calculateLOCForYear_modes Example.env (Some "zzz") Example.world1)
             "zzz" (Sample.afterLookup "zzz"));
      [reflexivity | reflexivity | vm_compute; reflexivity].
  - destruct (proj1 (proj2 (calculateLOCForYear_modes
                              Example.env (Some "a") Example.world1))
                "a" Example.repoA (Sample.afterLookup "a"))
      as (results & r & w' & Hrun & Hcell & Hmode & Hcases);
      [reflexivity | reflexivity | vm_compute; reflexivity |].
    exists results, r, w'. split; [exact Hrun |]. split; [exact Hcell |].
    split; [exact Hmode |].
    destruct Hcases as [(_ & _ & -> & ->) | (_ & _ & -> & ->)]; reflexivity.
  - apply (proj2 (proj2 (proj2 (calculateLOCForYear_modes
                                  Example.env (Some "a") Sample.farWorld)))).
    reflexivity.
Defined.

Lemma saveResults_witness :
  exists w',
    saveResults Example.env Z_to_string Z_to_string 0%nat Example.world1
    = (Ret tt, w') /\
    heap w' !! 0%nat = Some (sortedResults (initialResults 0 ModeAll)).
Proof.
  destruct (saveResults_serialises_before_sorting
              Example.env Z_to_string Z_to_string 0%nat
              (initialResults 0 ModeAll) Example.world1)
    as (w' & Hrun & _ & Hcell & _); [reflexivity |].
  exists w'. split; assumption.
Defined.

Lemma main_document_witness :
  exists network document text,
    Emitted Example.world0 Sample.afterMain
            (network ++ [WriteJson document; WriteText text])%list /\
    StronglySorted additionsDesc (repoStats document) /\
    totalAdditions document = sumZ (map RepoEntry.additions (repoStats document)).
Proof.
  destruct (main_writes_the_sorted_document
              Example.env Z_to_string Z_to_string (Some "t") (Some "u") None []
              Example.world0 Sample.afterMain)
    as (network & document & text & results & Hem & _ & Hsorted & _ & Hadd & _);
    [vm_compute; reflexivity |].
  exists network, document, text. repeat split; assumption.
Defined.
